(** * A set-associative cache simulator (csim.c), embedded and verified

    The simulator replays a memory trace against an array of cache-line
    metadata.  Machine integers are represented in [Z] with their
    wrap-around written out; the cache image is a flat list indexed by
    [set * linesPerSet + slot], exactly as the C array is. *)

From Stdlib Require Import ZArith Lia Bool List Ascii String.
From stdpp Require Import base list.

Local Open Scope Z_scope.

(** ** Machine arithmetic *)

Module Mach.

(** [unsigned int] and [unsigned long] values after an arithmetic step. *)
Definition wrap32 (z : Z) : Z := z mod 2 ^ 32.
Definition wrap64 (z : Z) : Z := z mod 2 ^ 64.

(** [x >> n] on an [unsigned long].  The shift count is taken modulo the
    width, which is what the x86-64 target does for counts the C standard
    leaves open; for [n < 64] this is the plain logical shift. *)
Definition shr64 (x n : Z) : Z := Z.shiftr x (n mod 64).

(** [x << n] on an [unsigned long]. *)
Definition shl64 (x n : Z) : Z := wrap64 (Z.shiftl x (n mod 64)).

(** [1 << n] computed in [int] and stored in an [unsigned int]. *)
Definition int_shl1 (n : Z) : Z := wrap32 (Z.shiftl 1 (n mod 32)).

(** [(unsigned int) x] for an [int] x. *)
Definition to_unsigned (x : Z) : Z := wrap32 x.

End Mach.
Import Mach.

(** ** Data model *)

Definition NUM_ELEMENTS_IN_UNIT : Z := 5.
Definition ADDRESS_BITS_LEN : Z := 64.
Definition CACHE_INVALID_FLAG : Z := 0.
Definition CACHE_VALID_FLAG : Z := 1.
Definition EVICTION_RANK_VAL : Z := 1.

(** Cache line structure members. *)
Record cacheLine_t : Type := mkLine {
  iTag : Z;                 (* unsigned long *)
  bDirtyFlag : Z;           (* unsigned int *)
  bValidFlag : Z;           (* unsigned int *)
  iRank : Z;                (* unsigned int *)
  dirtyEvictionCount : Z    (* unsigned int *)
}.

(** What [calloc] hands out. *)
Definition zeroLine : cacheLine_t := mkLine 0 0 0 0 0.

Definition set_iTag (v : Z) (l : cacheLine_t) : cacheLine_t :=
  mkLine v (bDirtyFlag l) (bValidFlag l) (iRank l) (dirtyEvictionCount l).
Definition set_bDirtyFlag (v : Z) (l : cacheLine_t) : cacheLine_t :=
  mkLine (iTag l) v (bValidFlag l) (iRank l) (dirtyEvictionCount l).
Definition set_bValidFlag (v : Z) (l : cacheLine_t) : cacheLine_t :=
  mkLine (iTag l) (bDirtyFlag l) v (iRank l) (dirtyEvictionCount l).
Definition set_iRank (v : Z) (l : cacheLine_t) : cacheLine_t :=
  mkLine (iTag l) (bDirtyFlag l) (bValidFlag l) v (dirtyEvictionCount l).
Definition set_dirtyEvictionCount (v : Z) (l : cacheLine_t) : cacheLine_t :=
  mkLine (iTag l) (bDirtyFlag l) (bValidFlag l) (iRank l) v.

(** Modelled from the spec: [csim_stats_t] is declared in cachelab.h, which
    is not among the sources.  Its five counters are the ones the spec's
    output contract lists; they are taken to be [unsigned long]. *)
Record csim_stats_t : Type := mkStats {
  hits : Z;
  misses : Z;
  evictions : Z;
  dirty_bytes : Z;
  dirty_evictions : Z
}.

Definition zeroStats : csim_stats_t := mkStats 0 0 0 0 0.

Definition incr_hits (st : csim_stats_t) : csim_stats_t :=
  mkStats (wrap64 (hits st + 1)) (misses st) (evictions st)
          (dirty_bytes st) (dirty_evictions st).
Definition incr_misses (st : csim_stats_t) : csim_stats_t :=
  mkStats (hits st) (wrap64 (misses st + 1)) (evictions st)
          (dirty_bytes st) (dirty_evictions st).
Definition incr_evictions (st : csim_stats_t) : csim_stats_t :=
  mkStats (hits st) (misses st) (wrap64 (evictions st + 1))
          (dirty_bytes st) (dirty_evictions st).

(** The global variables of csim.c. *)
Record globals : Type := mkGlobals {
  iSetBitCount : Z;
  iSetCount : Z;
  iCacheLinesPerSet : Z;
  iBlockBitCount : Z;
  iBlocksPerLine : Z;
  iRecentAccessRankValue : Z;
  bVerbose : bool
}.

Definition globals0 : globals := mkGlobals 0 0 0 0 0 0 false.

(** The cache image: the [calloc]ed array of lines. *)
Abbreviation cacheImage_t := (list cacheLine_t) (only parsing).

(** [cacheAddr[i]] and [cacheAddr[i] = l]; indices are C integers.
    Inside the array both are exact.  An index outside the array is
    undefined behaviour in C; here such a read gives [zeroLine] and such a
    write is dropped, so statements about runs are made where every index
    is inside the array ([in_bounds], [valid_geometry]). *)
Definition line_at (c : cacheImage_t) (i : Z) : cacheLine_t :=
  nth (Z.to_nat i) c zeroLine.

Definition store_at (c : cacheImage_t) (i : Z) (l : cacheLine_t) : cacheImage_t :=
  <[Z.to_nat i := l]> c.

(** [(addrSVal * iCacheLinesPerSet) + j], evaluated in [unsigned long]. *)
Definition slot (g : globals) (addrSVal j : Z) : Z :=
  wrap64 (wrap64 (addrSVal * iCacheLinesPerSet g) + j).

(** ** Address decomposition (first half of [checkSimulatorCache]) *)

(** [for (i = 0; i < n; i++) mask = (mask << 1) + 1;] *)
Fixpoint mask_loop (n : nat) (mask : Z) : Z :=
  match n with
  | O => mask
  | S n' => mask_loop n' (wrap64 (shl64 mask 1 + 1))
  end.

Definition setMask (g : globals) : Z :=
  mask_loop (Z.to_nat (iSetBitCount g)) 0.

Definition tagMask (g : globals) : Z :=
  mask_loop
    (Z.to_nat (wrap32 (ADDRESS_BITS_LEN - wrap32 (iSetBitCount g + iBlockBitCount g))))
    0.

Definition addrSVal (g : globals) (memAddr : Z) : Z :=
  Z.land (shr64 memAddr (iBlockBitCount g)) (setMask g).

Definition addrTagVal (g : globals) (memAddr : Z) : Z :=
  Z.land (shr64 memAddr (wrap32 (iBlockBitCount g + iSetBitCount g))) (tagMask g).

(** ** Effects

    Everything the program does to the outside world, in order: the
    [printf] calls (verbose ones included), the [calloc] request and the
    final [printSummary]. *)

Record trace_record : Type := mkRecord {
  rec_op : ascii;      (* %c  *)
  rec_addr : Z;        (* %lx *)
  rec_size : Z         (* %d  *)
}.

Inductive event : Type :=
| EvHelp                                (* printHelpVerbose *)
| EvInvalidFlag                         (* "Invalid command flag, ..." *)
| EvInvalidParams                       (* "Invalid cache parameters encountered!..." *)
| EvHeapFailed                          (* "Heap allocation for cache simulator failed!" *)
| EvCalloc (nmemb : Z)                  (* calloc(nmemb, sizeof(cacheLine_t)) *)
| EvRecord (r : trace_record)           (* "%c %lx,%d" *)
| EvHit                                 (* "\thit" *)
| EvMiss                                (* "\tmiss" *)
| EvEviction                            (* "\teviction" *)
| EvNewline                             (* "\n" *)
| EvSummary (st : csim_stats_t).        (* printSummary *)

(** The mutable state the cache functions work on: the array behind
    [cacheAddr], the statistics behind [stats], and the output so far. *)
Record machine : Type := mkMachine {
  image : cacheImage_t;
  stats : csim_stats_t;
  out : list event
}.

Definition with_image (c : cacheImage_t) (m : machine) : machine :=
  mkMachine c (stats m) (out m).
Definition with_stats (st : csim_stats_t) (m : machine) : machine :=
  mkMachine (image m) st (out m).

(** [if (bVerbose) printf(...)] *)
Definition verbose (g : globals) (e : event) (m : machine) : machine :=
  if bVerbose g then mkMachine (image m) (stats m) (out m ++ [e]) else m.

(** [cacheAddr[p].field = v] and friends: read the line, change it, write
    it back. *)
Definition update_at (c : cacheImage_t) (p : Z) (f : cacheLine_t -> cacheLine_t)
  : cacheImage_t :=
  store_at c p (f (line_at c p)).

(** ** The cache model *)

(** The shape shared by the lookup and the eviction loop,
    [for (j = 0; j < n; j++) if (test(cacheAddr[set*E + j])) { ...; break; }]:
    the first slot that passes the test, if any.  The body before [break]
    only runs once, on that slot. *)
Fixpoint first_slot (test : cacheLine_t -> bool) (g : globals)
    (c : cacheImage_t) (set : Z) (fuel : nat) (j : Z) : option Z :=
  match fuel with
  | O => None
  | S fuel' =>
      if test (line_at c (slot g set j)) then Some j
      else first_slot test g c set fuel' (j + 1)
  end.

(** The loop body of [cacheLineRankUpdate], from index [i] on. *)
Fixpoint rank_loop (g : globals) (set recentAccessIndex : Z)
    (fuel : nat) (i : Z) (c : cacheImage_t) : cacheImage_t :=
  match fuel with
  | O => c
  | S fuel' =>
      let p := slot g set i in
      let c' :=
        if negb (i =? recentAccessIndex)
           && (bValidFlag (line_at c p) =? CACHE_VALID_FLAG)
        then update_at c p (fun l => set_iRank (wrap32 (iRank l - 1)) l)
        else c in
      rank_loop g set recentAccessIndex fuel' (i + 1) c'
  end.

Definition cacheLineRankUpdate (g : globals) (c : cacheImage_t)
    (addrSVal recentAccessIndex : Z) : cacheImage_t :=
  rank_loop g addrSVal recentAccessIndex (Z.to_nat (iCacheLinesPerSet g)) 0 c.

(** The tests of the three scanning loops. *)
Definition is_hit (addrTagVal : Z) (l : cacheLine_t) : bool :=
  (iTag l =? addrTagVal) && negb (bValidFlag l =? CACHE_INVALID_FLAG).
Definition is_free (l : cacheLine_t) : bool :=
  bValidFlag l =? CACHE_INVALID_FLAG.
Definition is_victim (l : cacheLine_t) : bool :=
  iRank l =? EVICTION_RANK_VAL.

(** What [cacheEvictionHandler] does to the slot it picked. *)
Definition evict_slot (g : globals) (c : cacheImage_t) (set j : Z)
    (addrTagVal memAccessType : Z) : cacheImage_t :=
  let p := slot g set j in
  let c1 := update_at c p (set_iTag addrTagVal) in
  let c2 := update_at c1 p (set_iRank (iRecentAccessRankValue g)) in
  let c3 :=
    if bDirtyFlag (line_at c2 p) =? 1
    then update_at c2 p
           (fun l => set_dirtyEvictionCount (wrap32 (dirtyEvictionCount l + 1)) l)
    else c2 in
  let c4 :=
    if memAccessType =? 0
    then update_at c3 p (set_bDirtyFlag 0)
    else update_at c3 p (set_bDirtyFlag 1) in
  cacheLineRankUpdate g c4 set j.

Definition cacheEvictionHandler (g : globals) (m : machine)
    (addrSVal addrTagVal memAccessType : Z) : machine :=
  let m1 := with_stats (incr_evictions (stats m)) m in
  let m2 := verbose g EvEviction m1 in
  match first_slot is_victim g (image m2) addrSVal
          (Z.to_nat (iCacheLinesPerSet g)) 0 with
  | Some j =>
      with_image (evict_slot g (image m2) addrSVal j addrTagVal memAccessType) m2
  | None => m2
  end.

(** The scanning loop of [cacheMissHandler]; it also computes [evictFlag]. *)
Fixpoint miss_scan (g : globals) (c : cacheImage_t) (set : Z)
    (fuel : nat) (j : Z) (evictFlag : bool) : option Z * bool :=
  match fuel with
  | O => (None, evictFlag)
  | S fuel' =>
      if bValidFlag (line_at c (slot g set j)) =? CACHE_INVALID_FLAG
      then (Some j, false)
      else miss_scan g c set fuel' (j + 1) true
  end.

(** What [cacheMissHandler] does to the empty slot it found. *)
Definition fill_slot (g : globals) (c : cacheImage_t) (set j : Z)
    (addrTagVal memAccessType : Z) : cacheImage_t :=
  let p := slot g set j in
  let c1 := update_at c p (set_bValidFlag CACHE_VALID_FLAG) in
  let c2 := update_at c1 p (set_iTag addrTagVal) in
  let c3 := update_at c2 p (set_iRank (iRecentAccessRankValue g)) in
  let c4 :=
    if memAccessType =? 1
    then update_at c3 p (set_bDirtyFlag 1)
    else update_at c3 p (set_bDirtyFlag 0) in
  cacheLineRankUpdate g c4 set j.

Definition cacheMissHandler (g : globals) (m : machine)
    (addrSVal addrTagVal memAccessType : Z) : machine :=
  let m1 := with_stats (incr_misses (stats m)) m in
  let m2 := verbose g EvMiss m1 in
  match miss_scan g (image m2) addrSVal (Z.to_nat (iCacheLinesPerSet g)) 0 false with
  | (Some j, _) =>
      with_image (fill_slot g (image m2) addrSVal j addrTagVal memAccessType) m2
  | (None, evictFlag) =>
      if evictFlag
      then cacheEvictionHandler g m2 addrSVal addrTagVal memAccessType
      else m2
  end.

(** What the lookup loop does to the slot that hit. *)
Definition hit_slot (g : globals) (c : cacheImage_t) (set j : Z)
    (memAccessType : Z) : cacheImage_t :=
  let p := slot g set j in
  let c1 :=
    if negb (iRank (line_at c p) =? iRecentAccessRankValue g)
    then cacheLineRankUpdate g
           (update_at c p (set_iRank (iRecentAccessRankValue g))) set j
    else c in
  if memAccessType =? 1 then update_at c1 p (set_bDirtyFlag 1) else c1.

(** The "cache handler section" of [checkSimulatorCache], after the set
    and the tag have been computed. *)
Definition cacheHandler (g : globals) (m : machine)
    (addrSVal addrTagVal memAccessType : Z) : machine :=
  match first_slot (is_hit addrTagVal) g (image m) addrSVal
          (Z.to_nat (iCacheLinesPerSet g)) 0 with
  | Some j =>
      let m1 := with_stats (incr_hits (stats m)) m in
      let m2 := with_image (hit_slot g (image m1) addrSVal j memAccessType) m1 in
      verbose g EvHit m2
  | None => cacheMissHandler g m addrSVal addrTagVal memAccessType
  end.

Definition checkSimulatorCache (g : globals) (m : machine)
    (memAccessType memAddr : Z) : machine :=
  cacheHandler g m (addrSVal g memAddr) (addrTagVal g memAddr) memAccessType.

(** ** The driver ([main]) *)

(** One [getopt] result with its argument already converted: [atoi(optarg)]
    for the numeric flags, the result of [fopen(optarg, "r")] for [-t]
    ([None] is [NULL]; an open file is the sequence of records that
    [fscanf] goes on to deliver). *)
Inductive cli_option : Type :=
| OptH
| OptV
| OptS (n : Z)
| OptE (n : Z)
| OptB (n : Z)
| OptT (f : option (list trace_record))
| OptUnknown.

(** The globals together with the locals of [main] that option parsing
    writes. *)
Record main_state : Type := mkMain {
  gl : globals;
  inputTraceFile : option (list trace_record);
  bHelpevoked : bool;
  iSignedSetBitCount : Z;
  iSignedCacheLinesPerSet : Z;
  iSignedBlockBitCount : Z;
  printed : list event
}.

Definition main_state0 : main_state :=
  mkMain globals0 None false (-1) (-1) (-1) [].

Definition printHelpVerbose (s : main_state) : main_state :=
  mkMain (gl s) (inputTraceFile s) (bHelpevoked s) (iSignedSetBitCount s)
         (iSignedCacheLinesPerSet s) (iSignedBlockBitCount s)
         (printed s ++ [EvHelp]).

(** The body of the [switch (options)]. *)
Definition getopt_case (s : main_state) (o : cli_option) : main_state :=
  let g := gl s in
  match o with
  | OptH =>
      printHelpVerbose
        (mkMain g (inputTraceFile s) true (iSignedSetBitCount s)
                (iSignedCacheLinesPerSet s) (iSignedBlockBitCount s) (printed s))
  | OptV =>
      mkMain (mkGlobals (iSetBitCount g) (iSetCount g) (iCacheLinesPerSet g)
                        (iBlockBitCount g) (iBlocksPerLine g)
                        (iRecentAccessRankValue g) true)
             (inputTraceFile s) (bHelpevoked s) (iSignedSetBitCount s)
             (iSignedCacheLinesPerSet s) (iSignedBlockBitCount s) (printed s)
  | OptS n =>
      mkMain (mkGlobals (to_unsigned n) (int_shl1 (to_unsigned n))
                        (iCacheLinesPerSet g) (iBlockBitCount g)
                        (iBlocksPerLine g) (iRecentAccessRankValue g) (bVerbose g))
             (inputTraceFile s) (bHelpevoked s) n
             (iSignedCacheLinesPerSet s) (iSignedBlockBitCount s) (printed s)
  | OptE n =>
      mkMain (mkGlobals (iSetBitCount g) (iSetCount g) (to_unsigned n)
                        (iBlockBitCount g) (iBlocksPerLine g)
                        (to_unsigned n) (bVerbose g))
             (inputTraceFile s) (bHelpevoked s) (iSignedSetBitCount s)
             n (iSignedBlockBitCount s) (printed s)
  | OptB n =>
      mkMain (mkGlobals (iSetBitCount g) (iSetCount g) (iCacheLinesPerSet g)
                        (to_unsigned n) (int_shl1 (to_unsigned n))
                        (iRecentAccessRankValue g) (bVerbose g))
             (inputTraceFile s) (bHelpevoked s) (iSignedSetBitCount s)
             (iSignedCacheLinesPerSet s) n (printed s)
  | OptT f =>
      mkMain g f (bHelpevoked s) (iSignedSetBitCount s)
             (iSignedCacheLinesPerSet s) (iSignedBlockBitCount s) (printed s)
  | OptUnknown =>
      mkMain g (inputTraceFile s) (bHelpevoked s) (iSignedSetBitCount s)
             (iSignedCacheLinesPerSet s) (iSignedBlockBitCount s)
             (printed s ++ [EvInvalidFlag])
  end.

Definition parse_options (argv : list cli_option) : main_state :=
  fold_left getopt_case argv main_state0.

(** The condition of the "general error checks".  The two comparisons of
    unsigned globals against zero are kept as written. *)
Definition general_error_checks (s : main_state) : bool :=
  (iSetBitCount (gl s) <? 0)
  || (iSignedCacheLinesPerSet s <? 1)
  || (match inputTraceFile s with None => true | Some _ => false end)
  || (iBlockBitCount (gl s) <? 0)
  || (iSignedSetBitCount s <? 0)
  || (iSignedBlockBitCount s <? 0).

(** One round of the [while (fscanf(...) > 0)] loop.  Each [trace_record]
    is one line on which [fscanf] filled in its three targets.  The flag
    [iMemAccessTypeFlag] lives across rounds. *)
Definition trace_step (g : globals) (acc : Z * machine) (r : trace_record)
  : Z * machine :=
  let '(iMemAccessTypeFlag, m) := acc in
  let flag :=
    if Ascii.eqb (rec_op r) "L" then 0
    else if Ascii.eqb (rec_op r) "S" then 1
    else iMemAccessTypeFlag in
  let m1 := verbose g (EvRecord r) m in
  let m2 := checkSimulatorCache g m1 flag (rec_addr r) in
  (flag, verbose g EvNewline m2).

Definition replay (g : globals) (trace : list trace_record) (acc : Z * machine)
  : Z * machine :=
  fold_left (trace_step g) trace acc.

(** The body of the two nested loops after the trace, on the line it
    reads: the pair is [(dirtyCacheLineCount, dirtyEvictedCacheLineCount)],
    both [unsigned int]. *)
Definition summary_body (acc : Z * Z) (l : cacheLine_t) : Z * Z :=
  (if bDirtyFlag l =? 1 then wrap32 (fst acc + 1) else fst acc,
   wrap32 (snd acc + dirtyEvictionCount l)).

(** The loops themselves; the index [(i * iCacheLinesPerSet) + j] is an
    [unsigned int] as well. *)
Fixpoint summary_inner (g : globals) (c : cacheImage_t) (i : Z)
    (fuel : nat) (j : Z) (acc : Z * Z) : Z * Z :=
  match fuel with
  | O => acc
  | S fuel' =>
      summary_inner g c i fuel' (j + 1)
        (summary_body acc
           (line_at c (wrap32 (wrap32 (i * iCacheLinesPerSet g) + j))))
  end.

Fixpoint summary_outer (g : globals) (c : cacheImage_t)
    (fuel : nat) (i : Z) (acc : Z * Z) : Z * Z :=
  match fuel with
  | O => acc
  | S fuel' =>
      summary_outer g c fuel' (i + 1)
        (summary_inner g c i (Z.to_nat (iCacheLinesPerSet g)) 0 acc)
  end.

(** "Update dirty bytes in the cache and dirty cache evictions". *)
Definition summarize (g : globals) (m : machine) : csim_stats_t :=
  let '(dirtyCacheLineCount, dirtyEvictedCacheLineCount) :=
    summary_outer g (image m) (Z.to_nat (iSetCount g)) 0 (0, 0) in
  mkStats (hits (stats m)) (misses (stats m)) (evictions (stats m))
          (wrap32 (dirtyCacheLineCount * iBlocksPerLine g))
          (wrap32 (dirtyEvictedCacheLineCount * iBlocksPerLine g)).

(** The zero-initialised array [calloc] returns. *)
Definition calloc (nmemb : Z) : cacheImage_t := repeat zeroLine (Z.to_nat nmemb).

(** Replay and summary for a configured simulator whose allocation
    succeeded: the part of [main] from the [fscanf] loop to the
    assignment of the two dirty totals. *)
Definition simulate (g : globals) (trace : list trace_record)
    (log : list event) : machine :=
  let nmemb := wrap32 (iSetCount g * iCacheLinesPerSet g) in
  let m0 := mkMachine (calloc nmemb) zeroStats log in
  snd (replay g trace (0, m0)).

(** [main]: the exit status and everything it printed or requested.
    [heap_ok] says whether [calloc] returns a non-null pointer. *)
Definition main (argv : list cli_option) (heap_ok : bool) : Z * list event :=
  let s := parse_options argv in
  if general_error_checks s then
    (1, if bHelpevoked s then printed s else printed s ++ [EvInvalidParams])
  else
    let g := gl s in
    let log := printed s ++ [EvCalloc (wrap32 (iSetCount g * iCacheLinesPerSet g))] in
    if heap_ok then
      match inputTraceFile s with
      | Some trace =>
          let m := simulate g trace log in
          (0, out m ++ [EvSummary (summarize g m)])
      | None => (1, log)   (* ruled out by the checks above *)
      end
    else (1, log ++ [EvHeapFailed]).

(** ** Observations used in the statements *)

(** The lines of one set, slot by slot. *)
Definition set_lines (g : globals) (c : cacheImage_t) (set : Z) : list cacheLine_t :=
  map (fun j => line_at c (slot g set (Z.of_nat j)))
      (seq 0 (Z.to_nat (iCacheLinesPerSet g))).

(** A tag is resident in a set when a valid line of the set holds it. *)
Definition resident (g : globals) (c : cacheImage_t) (set tag : Z) : bool :=
  existsb (is_hit tag) (set_lines g c set).

(** The globals as [main] leaves them after [-s s -E E -b b] (and [-v]
    when [v] holds). *)
Definition geometry (s E b : Z) (v : bool) : globals :=
  mkGlobals (to_unsigned s) (int_shl1 (to_unsigned s))
            (to_unsigned E)
            (to_unsigned b) (int_shl1 (to_unsigned b))
            (to_unsigned E) v.

(** Geometries on which the program stays within what C defines: the
    shifts that compute the set count fit an [int], and the array size
    fits the [unsigned int] product handed to [calloc]. *)
Definition valid_geometry (s E b : Z) : Prop :=
  0 <= s <= 30 /\ 1 <= E /\ 0 <= b /\ s + b <= 64 /\ 2 ^ s * E < 2 ^ 32.

(** The set [set] lies inside the array, and the array is one a 64-bit
    machine can hold: the accesses [cacheAddr[set*E + j]], [j < E], are
    all in bounds. *)
Definition in_bounds (g : globals) (c : cacheImage_t) (set : Z) : Prop :=
  0 <= iCacheLinesPerSet g /\ 0 <= set /\
  (set + 1) * iCacheLinesPerSet g <= Z.of_nat (length c) /\
  Z.of_nat (length c) < 2 ^ 64.

(** [iRank = iRank - 1] on an [unsigned int]. *)
Definition dec_rank (l : cacheLine_t) : cacheLine_t :=
  set_iRank (wrap32 (iRank l - 1)) l.

(** How a call [cacheLineRankUpdate(cacheAddr, set, r)] changes the line
    at flat index [q]. *)
Definition aged (g : globals) (c : cacheImage_t) (set r q : Z) : cacheLine_t :=
  if (set * iCacheLinesPerSet g <=? q)
     && (q <? set * iCacheLinesPerSet g + iCacheLinesPerSet g)
     && negb (q =? set * iCacheLinesPerSet g + r)
     && (bValidFlag (line_at c q) =? CACHE_VALID_FLAG)
  then dec_rank (line_at c q)
  else line_at c q.

(** The line a fill leaves in the slot it took. *)
Definition filled_line (g : globals) (addrTagVal memAccessType : Z)
    (l : cacheLine_t) : cacheLine_t :=
  mkLine addrTagVal (if memAccessType =? 1 then 1 else 0) CACHE_VALID_FLAG
         (iRecentAccessRankValue g) (dirtyEvictionCount l).

(** The line an eviction leaves in the victim's slot. *)
Definition evicted_line (g : globals) (addrTagVal memAccessType : Z)
    (l : cacheLine_t) : cacheLine_t :=
  mkLine addrTagVal (if memAccessType =? 0 then 0 else 1) (bValidFlag l)
         (iRecentAccessRankValue g)
         (if bDirtyFlag l =? 1 then wrap32 (dirtyEvictionCount l + 1)
          else dirtyEvictionCount l).

(** The line a hit leaves behind. *)
Definition touched_line (g : globals) (memAccessType : Z)
    (l : cacheLine_t) : cacheLine_t :=
  mkLine (iTag l) (if memAccessType =? 1 then 1 else bDirtyFlag l)
         (bValidFlag l) (iRecentAccessRankValue g) (dirtyEvictionCount l).

(** How an access resolves, by the three scans in the order the code
    makes them.  [NoVictim] is the eviction handler finding no line of
    rank [EVICTION_RANK_VAL]; [NoLines] is a set without slots. *)
Inductive outcome : Type :=
| Hit (j : Z)
| Fill (j : Z)
| Evict (j : Z)
| NoVictim
| NoLines.

Definition classify (g : globals) (c : cacheImage_t) (set tag : Z) : outcome :=
  let n := Z.to_nat (iCacheLinesPerSet g) in
  match first_slot (is_hit tag) g c set n 0 with
  | Some j => Hit j
  | None =>
      match first_slot is_free g c set n 0 with
      | Some j => Fill j
      | None =>
          match n with
          | O => NoLines
          | S _ =>
              match first_slot is_victim g c set n 0 with
              | Some j => Evict j
              | None => NoVictim
              end
          end
      end
  end.

(** The array has the size [main] asks [calloc] for, and that size is one
    the [unsigned int] index arithmetic of the summary loops can reach. *)
Definition well_formed (g : globals) (c : cacheImage_t) : Prop :=
  0 <= iCacheLinesPerSet g /\ 0 <= iSetCount g /\
  Z.of_nat (length c) = iSetCount g * iCacheLinesPerSet g /\
  Z.of_nat (length c) < 2 ^ 32.

(** No set holds the same tag in two valid lines. *)
Definition unique_tags (g : globals) (c : cacheImage_t) : Prop :=
  forall set i j,
    0 <= set < iSetCount g ->
    0 <= i < iCacheLinesPerSet g -> 0 <= j < iCacheLinesPerSet g -> i <> j ->
    bValidFlag (line_at c (slot g set i)) <> CACHE_INVALID_FLAG ->
    bValidFlag (line_at c (slot g set j)) <> CACHE_INVALID_FLAG ->
    iTag (line_at c (slot g set i)) <> iTag (line_at c (slot g set j)).

(** Only valid lines are dirty. *)
Definition dirty_valid (c : cacheImage_t) : Prop :=
  forall q, 0 <= q ->
    bDirtyFlag (line_at c q) = 1 ->
    bValidFlag (line_at c q) <> CACHE_INVALID_FLAG.

(** What holds of the array throughout a run. *)
Definition run_invariant (g : globals) (c : cacheImage_t) : Prop :=
  well_formed g c /\ unique_tags g c /\ dirty_valid c.

(** The two totals of the summary, as the spec words them. *)
Definition valid_and_dirty (l : cacheLine_t) : bool :=
  negb (bValidFlag l =? CACHE_INVALID_FLAG) && (bDirtyFlag l =? 1).

Definition count_valid_dirty (c : cacheImage_t) : Z :=
  Z.of_nat (length (List.filter valid_and_dirty c)).

Definition sum_dirty_evictions (c : cacheImage_t) : Z :=
  fold_right Z.add 0 (map dirtyEvictionCount c).

(** The access kind a record inherits when its own operation is neither
    ['L'] nor ['S']: that of the most recent load or store before it, and
    load (0) when there has been none. *)
Definition is_load_or_store (r : trace_record) : bool :=
  Ascii.eqb (rec_op r) "L" || Ascii.eqb (rec_op r) "S".

Definition kind_of (r : trace_record) : Z :=
  if Ascii.eqb (rec_op r) "S" then 1 else 0.

Definition inherited_kind (before : list trace_record) : Z :=
  match find is_load_or_store (rev before) with
  | Some r => kind_of r
  | None => 0
  end.

(** What the spec calls an invalid configuration, read off the values
    option parsing left behind (an option that was never given leaves its
    variable at [-1], the file at [NULL]). *)
Definition invalid_configuration (s : main_state) : Prop :=
  iSignedCacheLinesPerSet s < 1 \/ iSignedSetBitCount s < 0 \/
  iSignedBlockBitCount s < 0 \/ inputTraceFile s = None.

(** A run of lookups, each given as [(memAccessType, memAddr)]. *)
Definition access_all (g : globals) (accs : list (Z * Z)) (m : machine) : machine :=
  fold_left (fun m a => checkSimulatorCache g m (fst a) (snd a)) accs m.

(** The same on a fixed set, each lookup given as [(memAccessType, tag)]. *)
Definition populate (g : globals) (set : Z) (accs : list (Z * Z))
    (m : machine) : machine :=
  fold_left (fun m a => cacheHandler g m set (snd a) (fst a)) accs m.

(** The state of a set that was empty and then took the tags [tags] in
    this order: they sit in the first slots, ranked by arrival, the last
    one carrying rank [E]; the remaining slots are still invalid. *)
Definition populated (g : globals) (c : cacheImage_t) (set : Z)
    (tags : list Z) : Prop :=
  forall j, 0 <= j < iCacheLinesPerSet g ->
    if j <? Z.of_nat (length tags)
    then bValidFlag (line_at c (set * iCacheLinesPerSet g + j)) = CACHE_VALID_FLAG /\
         iTag (line_at c (set * iCacheLinesPerSet g + j)) = nth (Z.to_nat j) tags 0 /\
         iRank (line_at c (set * iCacheLinesPerSet g + j))
           = iCacheLinesPerSet g - (Z.of_nat (length tags) - 1 - j)
    else bValidFlag (line_at c (set * iCacheLinesPerSet g + j)) = CACHE_INVALID_FLAG.

(** The ranks of the valid lines of a set, slot by slot. *)
Definition valid_ranks (g : globals) (c : cacheImage_t) (set : Z) : list Z :=
  map iRank
      (List.filter (fun l => negb (bValidFlag l =? CACHE_INVALID_FLAG))
                   (set_lines g c set)).

(** Rank totality as the spec words it: the [k] valid lines of the set
    carry pairwise distinct ranks that make up the range ending at
    [linesPerSet], that is, each of [E], [E - 1], ..., [E - k + 1] is the
    rank of one of them. *)
Definition rank_total (g : globals) (c : cacheImage_t) (set : Z) : bool :=
  let ranks := valid_ranks g c set in
  forallb (fun r => existsb (Z.eqb r) ranks)
          (map (fun i => iCacheLinesPerSet g - Z.of_nat i)
               (seq 0 (length ranks))).

(** Trace lines ["L a,1"] and ["S a,1"]. *)
Definition load (a : Z) : trace_record := mkRecord "L" a 1.
Definition store (a : Z) : trace_record := mkRecord "S" a 1.

(** No line is dirty and no slot has seen a dirty eviction. *)
Definition all_clean (c : cacheImage_t) : Prop :=
  forall q, 0 <= q ->
    bDirtyFlag (line_at c q) = 0 /\ dirtyEvictionCount (line_at c q) = 0.

(** The same globals with [bVerbose] off. *)
Definition quiet (g : globals) : globals :=
  mkGlobals (iSetBitCount g) (iSetCount g) (iCacheLinesPerSet g)
            (iBlockBitCount g) (iBlocksPerLine g) (iRecentAccessRankValue g)
            false.

(** The rank discipline that holds with one or two lines per set: valid
    bits are 0 or 1, valid lines carry ranks between 1 and [E], two valid
    lines of a set never share a rank, and as long as the set has a free
    slot every valid line has the top rank. *)
Definition dense_ranks (g : globals) (c : cacheImage_t) : Prop :=
  forall set, 0 <= set < iSetCount g ->
    (forall i, 0 <= i < iCacheLinesPerSet g ->
       bValidFlag (line_at c (set * iCacheLinesPerSet g + i)) = 0 \/
       (bValidFlag (line_at c (set * iCacheLinesPerSet g + i)) = 1 /\
        1 <= iRank (line_at c (set * iCacheLinesPerSet g + i))
          <= iCacheLinesPerSet g)) /\
    (forall i i', 0 <= i < iCacheLinesPerSet g -> 0 <= i' < iCacheLinesPerSet g ->
       i <> i' ->
       bValidFlag (line_at c (set * iCacheLinesPerSet g + i)) = 1 ->
       bValidFlag (line_at c (set * iCacheLinesPerSet g + i')) = 1 ->
       iRank (line_at c (set * iCacheLinesPerSet g + i))
         <> iRank (line_at c (set * iCacheLinesPerSet g + i'))) /\
    (forall i i', 0 <= i < iCacheLinesPerSet g -> 0 <= i' < iCacheLinesPerSet g ->
       bValidFlag (line_at c (set * iCacheLinesPerSet g + i)) = 0 ->
       bValidFlag (line_at c (set * iCacheLinesPerSet g + i')) = 1 ->
       iRank (line_at c (set * iCacheLinesPerSet g + i')) = iCacheLinesPerSet g).

(** Two lines that agree on everything but the dirty bookkeeping. *)
Definition same_shape (l1 l2 : cacheLine_t) : Prop :=
  iTag l1 = iTag l2 /\ bValidFlag l1 = bValidFlag l2 /\ iRank l1 = iRank l2.

(** The number of valid lines of the array. *)
Definition count_valid (c : cacheImage_t) : Z :=
  Z.of_nat (length (List.filter (fun l => negb (bValidFlag l =? CACHE_INVALID_FLAG)) c)).

(** The sum of a per-line quantity over the array. *)
Definition weight_sum (w : cacheLine_t -> Z) (c : cacheImage_t) : Z :=
  fold_right Z.add 0 (map w c).

(** 1 for a valid line, 0 for an invalid one. *)
Definition valid_weight (l : cacheLine_t) : Z :=
  if bValidFlag l =? CACHE_INVALID_FLAG then 0 else 1.

(** * Facts *)

(** ** Machine arithmetic *)

(** Closed goals about concrete runs. *)
Ltac by_compute :=
  vm_compute; repeat split;
  first [reflexivity | discriminate | intro; discriminate].

Module MachFacts.

Lemma wrap32_small z : 0 <= z < 2 ^ 32 -> wrap32 z = z.
Proof. intros H. unfold wrap32. now apply Z.mod_small. Qed.

Lemma wrap64_small z : 0 <= z < 2 ^ 64 -> wrap64 z = z.
Proof. intros H. unfold wrap64. now apply Z.mod_small. Qed.

Lemma wrap32_range z : 0 <= wrap32 z < 2 ^ 32.
Proof. unfold wrap32. apply Z.mod_pos_bound. lia. Qed.

Lemma wrap64_range z : 0 <= wrap64 z < 2 ^ 64.
Proof. unfold wrap64. apply Z.mod_pos_bound. lia. Qed.

Lemma int_shl1_small n : 0 <= n <= 30 -> int_shl1 n = 2 ^ n.
Proof.
  intros Hn. unfold int_shl1.
  rewrite (Z.mod_small n 32) by lia.
  rewrite Z.shiftl_1_l. apply wrap32_small.
  split; [apply Z.pow_nonneg; lia|].
  apply (Z.pow_lt_mono_r 2 n 32); lia.
Qed.

End MachFacts.
Import MachFacts.

(** ** Address decomposition *)

Lemma mask_step k :
  0 <= k <= 64 ->
  wrap64 (shl64 (Z.ones k) 1 + 1) = Z.ones (Z.min (k + 1) 64).
Proof.
  intros Hk. unfold shl64.
  change (1 mod 64) with 1. rewrite Z.shiftl_mul_pow2 by lia.
  change (2 ^ 1) with 2. rewrite !Z.ones_equiv.
  destruct (Z.eq_dec k 64) as [->|Hne].
  - reflexivity.
  - rewrite Z.min_l by lia.
    assert (H1 : 0 < 2 ^ k) by (apply Z.pow_pos_nonneg; lia).
    assert (H2 : 2 ^ (k + 1) <= 2 ^ 64) by (apply Z.pow_le_mono_r; lia).
    rewrite Z.pow_add_r in * by lia. change (2 ^ 1) with 2 in *.
    rewrite (wrap64_small (Z.pred (2 ^ k) * 2)) by lia.
    rewrite wrap64_small by lia. lia.
Qed.

Lemma mask_loop_ones n : forall k,
  0 <= k <= 64 ->
  mask_loop n (Z.ones k) = Z.ones (Z.min (k + Z.of_nat n) 64).
Proof.
  induction n as [|n IH]; intros k Hk.
  - simpl. now rewrite Z.add_0_r, Z.min_l by lia.
  - cbn [mask_loop]. rewrite mask_step by lia.
    rewrite IH by lia. f_equal. lia.
Qed.

Lemma setMask_ones g :
  0 <= iSetBitCount g <= 64 -> setMask g = Z.ones (iSetBitCount g).
Proof.
  intros Hs. unfold setMask.
  change 0 with (Z.ones 0) at 1. rewrite mask_loop_ones by lia.
  f_equal. lia.
Qed.

Lemma tagMask_ones g :
  0 <= iSetBitCount g -> 0 <= iBlockBitCount g ->
  iSetBitCount g + iBlockBitCount g <= 64 ->
  tagMask g = Z.ones (64 - (iSetBitCount g + iBlockBitCount g)).
Proof.
  intros Hs Hb Hsb. unfold tagMask, ADDRESS_BITS_LEN.
  rewrite (wrap32_small (iSetBitCount g + iBlockBitCount g)) by lia.
  rewrite wrap32_small by lia.
  change 0 with (Z.ones 0) at 1. rewrite mask_loop_ones by lia.
  f_equal. lia.
Qed.

Lemma shiftr_high a k : 0 <= a < 2 ^ 64 -> 0 <= k <= 64 ->
  0 <= Z.shiftr a k < 2 ^ (64 - k).
Proof.
  intros Ha Hk. rewrite Z.shiftr_div_pow2 by lia.
  assert (H1 : 0 < 2 ^ k) by (apply Z.pow_pos_nonneg; lia).
  split; [apply Z.div_pos; lia|].
  apply Z.div_lt_upper_bound; [lia|].
  rewrite <- Z.pow_add_r by lia. replace (k + (64 - k)) with 64 by lia. lia.
Qed.

Section Decomposition.

Variables (g : globals) (memAddr : Z).
Let s := iSetBitCount g.
Let b := iBlockBitCount g.
Hypothesis addr_range : 0 <= memAddr < 2 ^ 64.
Hypothesis s_nonneg : 0 <= s.
Hypothesis b_nonneg : 0 <= b.
Hypothesis sb_fit : s + b <= 64.

Lemma addrSVal_spec :
  addrSVal g memAddr = Z.land (Z.shiftr memAddr b) (2 ^ s - 1).
Proof.
  unfold addrSVal. rewrite setMask_ones by (fold s; lia). fold s b.
  rewrite Z.ones_equiv, <- Z.sub_1_r. unfold shr64.
  destruct (Z.eq_dec b 64) as [Hb|Hb].
  - assert (Hs : s = 0) by lia. rewrite Hs. change (2 ^ 0 - 1) with 0.
    now rewrite !Z.land_0_r.
  - now rewrite Z.mod_small by lia.
Qed.

Lemma addrTagVal_spec :
  addrTagVal g memAddr = Z.shiftr memAddr (b + s).
Proof.
  unfold addrTagVal.
  rewrite tagMask_ones by (fold s b; lia). fold s b.
  rewrite (wrap32_small (b + s)) by lia. unfold shr64.
  destruct (Z.eq_dec (b + s) 64) as [Hbs|Hbs].
  - rewrite Hbs. replace (64 - (s + b)) with 0 by lia.
    change (Z.ones 0) with 0. rewrite Z.land_0_r.
    symmetry. apply Z.shiftr_eq_0; [lia|].
    destruct (Z.eq_dec memAddr 0) as [->|Hne]; [reflexivity|].
    apply Z.log2_lt_pow2; lia.
  - rewrite Z.mod_small by lia.
    rewrite Z.land_ones by lia. apply Z.mod_small.
    replace (64 - (s + b)) with (64 - (b + s)) by lia.
    apply shiftr_high; lia.
Qed.

Lemma addrSVal_range : 0 <= addrSVal g memAddr < 2 ^ s.
Proof.
  rewrite addrSVal_spec, Z.sub_1_r, <- Z.ones_equiv.
  rewrite Z.land_ones by lia. apply Z.mod_pos_bound.
  apply Z.pow_pos_nonneg; lia.
Qed.

Lemma recombine :
  Z.lor (Z.lor (Z.shiftl (addrTagVal g memAddr) (b + s))
               (Z.shiftl (addrSVal g memAddr) b))
        (Z.land memAddr (2 ^ b - 1)) = memAddr.
Proof.
  rewrite addrTagVal_spec, addrSVal_spec.
  rewrite !Z.sub_1_r, <- !Z.ones_equiv.
  apply Z.bits_inj'. intros n Hn.
  rewrite !Z.lor_spec, !Z.shiftl_spec, !Z.land_spec by lia.
  rewrite (Z.testbit_ones_nonneg b n) by lia.
  destruct (Z.ltb_spec n b) as [Hlt|Hge].
  - rewrite (Z.testbit_neg_r _ (n - (b + s))) by lia.
    rewrite (Z.testbit_neg_r _ (n - b)) by lia.
    simpl. now rewrite andb_true_r.
  - rewrite andb_false_r, orb_false_r.
    rewrite (Z.shiftr_spec memAddr b (n - b)) by lia.
    rewrite (Z.testbit_ones_nonneg s (n - b)) by lia.
    replace (n - b + b) with n by lia.
    destruct (Z.ltb_spec (n - b) s) as [Hlt|Hge'].
    + rewrite (Z.testbit_neg_r _ (n - (b + s))) by lia.
      simpl. now rewrite andb_true_r.
    + rewrite andb_false_r, orb_false_r.
      rewrite Z.shiftr_spec by lia. f_equal. lia.
Qed.

End Decomposition.

(** C5: set index and tag are the middle and the high bits of the address,
    the set index is below the set count, and tag, set index and block
    offset put together give the address back. *)
Theorem C5_address_decomposition (s E b : Z) (v : bool) (addr : Z) :
  0 <= s -> 0 <= b -> s + b <= 64 -> 0 <= addr < 2 ^ 64 ->
  addrSVal (geometry s E b v) addr = Z.land (Z.shiftr addr b) (2 ^ s - 1) /\
  addrTagVal (geometry s E b v) addr = Z.shiftr addr (b + s) /\
  0 <= addrSVal (geometry s E b v) addr < 2 ^ s /\
  (s <= 30 -> iSetCount (geometry s E b v) = 2 ^ s) /\
  (b <= 30 -> iBlocksPerLine (geometry s E b v) = 2 ^ b) /\
  Z.lor (Z.lor (Z.shiftl (addrTagVal (geometry s E b v) addr) (b + s))
               (Z.shiftl (addrSVal (geometry s E b v) addr) b))
        (Z.land addr (2 ^ b - 1)) = addr.
Proof.
  intros Hs Hb Hsb Ha.
  set (g := geometry s E b v).
  assert (Es : iSetBitCount g = s).
  { unfold g, geometry, to_unsigned. cbn. apply wrap32_small. lia. }
  assert (Eb : iBlockBitCount g = b).
  { unfold g, geometry, to_unsigned. cbn. apply wrap32_small. lia. }
  assert (H1 := addrSVal_spec g addr).
  assert (H2 := addrTagVal_spec g addr).
  assert (H3 := addrSVal_range g addr).
  assert (H4 := recombine g addr).
  rewrite Es, Eb in H1, H2, H3, H4.
  specialize (H1 ltac:(lia) ltac:(lia) ltac:(lia)).
  specialize (H2 ltac:(lia) ltac:(lia) ltac:(lia) ltac:(lia)).
  specialize (H3 ltac:(lia) ltac:(lia) ltac:(lia)).
  specialize (H4 ltac:(lia) ltac:(lia) ltac:(lia) ltac:(lia)).
  repeat split; try (apply H1 || apply H2 || apply H3 || apply H4); try lia.
  - intros Hs'. unfold g, geometry, to_unsigned. cbn.
    rewrite wrap32_small by lia. apply int_shl1_small. lia.
  - intros Hb'. unfold g, geometry, to_unsigned. cbn.
    rewrite wrap32_small by lia. apply int_shl1_small. lia.
Qed.

Lemma C5_address_decomposition_witness :
  addrSVal (geometry 4 2 5 false) 48879 = Z.land (Z.shiftr 48879 5) (2 ^ 4 - 1) /\
  addrTagVal (geometry 4 2 5 false) 48879 = Z.shiftr 48879 (5 + 4).
Proof.
  pose proof (C5_address_decomposition 4 2 5 false 48879) as H.
  destruct H as (H1 & H2 & _); [lia | lia | lia | lia |].
  split; [exact H1 | exact H2].
Defined.

(** ** Reading and writing the array *)

Lemma length_store_at c p l : length (store_at c p l) = length c.
Proof. unfold store_at. apply length_insert. Qed.

Lemma line_at_store_eq c p l :
  0 <= p < Z.of_nat (length c) -> line_at (store_at c p l) p = l.
Proof.
  intros Hp. unfold line_at, store_at.
  rewrite nth_lookup, list_lookup_insert_eq by lia. reflexivity.
Qed.

Lemma line_at_store_ne c p q l :
  0 <= p -> 0 <= q -> p <> q -> line_at (store_at c p l) q = line_at c q.
Proof.
  intros Hp Hq Hne. unfold line_at, store_at.
  rewrite !nth_lookup, list_lookup_insert_ne by lia. reflexivity.
Qed.

Lemma length_update_at c p f : length (update_at c p f) = length c.
Proof. apply length_store_at. Qed.

Lemma line_at_update_eq c p f :
  0 <= p < Z.of_nat (length c) -> line_at (update_at c p f) p = f (line_at c p).
Proof. intros Hp. unfold update_at. now apply line_at_store_eq. Qed.

Lemma line_at_update_ne c p q f :
  0 <= p -> 0 <= q -> p <> q -> line_at (update_at c p f) q = line_at c q.
Proof. intros Hp Hq Hne. unfold update_at. now apply line_at_store_ne. Qed.

Lemma in_bounds_length g c c' set :
  length c' = length c -> in_bounds g c set -> in_bounds g c' set.
Proof. unfold in_bounds. intros ->. tauto. Qed.

Lemma slot_eq g c set j :
  in_bounds g c set -> 0 <= j < iCacheLinesPerSet g ->
  slot g set j = set * iCacheLinesPerSet g + j.
Proof.
  intros (HE & Hs & Hlen & H64) Hj. unfold slot.
  assert (0 <= set * iCacheLinesPerSet g) by nia.
  rewrite (wrap64_small (set * iCacheLinesPerSet g)) by nia.
  apply wrap64_small. nia.
Qed.

Lemma slot_in_range g c set j :
  in_bounds g c set -> 0 <= j < iCacheLinesPerSet g ->
  0 <= slot g set j < Z.of_nat (length c).
Proof.
  intros Hb Hj. rewrite (slot_eq g c) by assumption.
  destruct Hb as (HE & Hs & Hlen & H64). nia.
Qed.

(** ** The scanning loops *)

Lemma first_slot_Some test g c set fuel : forall j0 j,
  first_slot test g c set fuel j0 = Some j ->
  j0 <= j < j0 + Z.of_nat fuel /\
  test (line_at c (slot g set j)) = true /\
  forall i, j0 <= i < j -> test (line_at c (slot g set i)) = false.
Proof.
  induction fuel as [|fuel IH]; intros j0 j H; [discriminate|].
  cbn [first_slot] in H.
  destruct (test (line_at c (slot g set j0))) eqn:Ht.
  - injection H as <-. split; [lia|]. split; [assumption|]. intros i Hi. lia.
  - apply IH in H as (H1 & H2 & H3).
    split; [lia|]. split; [assumption|].
    intros i Hi. destruct (Z.eq_dec i j0) as [->|Hne]; [assumption|].
    apply H3. lia.
Qed.

Lemma first_slot_None test g c set fuel : forall j0,
  first_slot test g c set fuel j0 = None ->
  forall i, j0 <= i < j0 + Z.of_nat fuel ->
  test (line_at c (slot g set i)) = false.
Proof.
  induction fuel as [|fuel IH]; intros j0 H i Hi; [lia|].
  cbn [first_slot] in H.
  destruct (test (line_at c (slot g set j0))) eqn:Ht; [discriminate|].
  destruct (Z.eq_dec i j0) as [->|Hne]; [assumption|].
  apply (IH (j0 + 1)); [assumption | lia].
Qed.

Lemma first_slot_found test g c set fuel j0 j :
  j0 <= j < j0 + Z.of_nat fuel ->
  test (line_at c (slot g set j)) = true ->
  (forall i, j0 <= i < j -> test (line_at c (slot g set i)) = false) ->
  first_slot test g c set fuel j0 = Some j.
Proof.
  intros Hj Ht Hbefore.
  destruct (first_slot test g c set fuel j0) as [j'|] eqn:Hf.
  - apply first_slot_Some in Hf as (H1 & H2 & H3). f_equal.
    destruct (Z.lt_trichotomy j' j) as [Hlt|[Heq|Hgt]]; [|assumption|].
    + rewrite Hbefore in H2 by lia. discriminate.
    + rewrite H3 in Ht by lia. discriminate.
  - rewrite (first_slot_None _ _ _ _ _ _ Hf j Hj) in Ht. discriminate.
Qed.

Lemma first_slot_absent test g c set fuel j0 :
  (forall i, j0 <= i < j0 + Z.of_nat fuel ->
             test (line_at c (slot g set i)) = false) ->
  first_slot test g c set fuel j0 = None.
Proof.
  intros Hall.
  destruct (first_slot test g c set fuel j0) as [j'|] eqn:Hf; [|reflexivity].
  apply first_slot_Some in Hf as (H1 & H2 & _).
  rewrite Hall in H2 by lia. discriminate.
Qed.

(** The scan of the miss handler is the generic scan for a free slot;
    [evictFlag] ends up set exactly when the loop ran and found none. *)
Lemma miss_scan_first g c set fuel : forall j flag,
  miss_scan g c set fuel j flag =
  match first_slot is_free g c set fuel j with
  | Some i => (Some i, false)
  | None => (None, match fuel with O => flag | S _ => true end)
  end.
Proof.
  induction fuel as [|fuel IH]; intros j flag; [reflexivity|].
  cbn [miss_scan first_slot]. unfold is_free at 1.
  destruct (bValidFlag (line_at c (slot g set j)) =? CACHE_INVALID_FLAG);
    [reflexivity|].
  rewrite IH. destruct (first_slot is_free g c set fuel (j + 1)); [reflexivity|].
  now destruct fuel.
Qed.

(** ** The rank update *)

Ltac zbool :=
  repeat match goal with
  | |- context [?a <=? ?b] => destruct (Z.leb_spec a b)
  | |- context [?a <? ?b] => destruct (Z.ltb_spec a b)
  | |- context [?a =? ?b] => destruct (Z.eqb_spec a b)
  end; cbn [andb orb negb]; try reflexivity; try lia.

Lemma rank_loop_length g set r fuel : forall i c,
  length (rank_loop g set r fuel i c) = length c.
Proof.
  induction fuel as [|fuel IH]; intros i c; [reflexivity|].
  cbn [rank_loop]. rewrite IH.
  destruct (negb (i =? r) && _); [apply length_update_at | reflexivity].
Qed.

Lemma rank_loop_line g set r fuel : forall i c q,
  in_bounds g c set ->
  0 <= i -> i + Z.of_nat fuel <= iCacheLinesPerSet g -> 0 <= q ->
  line_at (rank_loop g set r fuel i c) q =
  if (set * iCacheLinesPerSet g + i <=? q)
     && (q <? set * iCacheLinesPerSet g + i + Z.of_nat fuel)
     && negb (q =? set * iCacheLinesPerSet g + r)
     && (bValidFlag (line_at c q) =? CACHE_VALID_FLAG)
  then dec_rank (line_at c q)
  else line_at c q.
Proof.
  induction fuel as [|fuel IH]; intros i c q Hb Hi Hfuel Hq.
  - cbn [rank_loop]. zbool.
  - cbn [rank_loop].
    assert (Hp : slot g set i = set * iCacheLinesPerSet g + i)
      by (apply (slot_eq g c); [assumption | lia]).
    assert (Hpr : 0 <= slot g set i < Z.of_nat (length c))
      by (apply slot_in_range; [assumption | lia]).
    rewrite Hp in Hpr |- *.
    destruct (negb (i =? r)
              && (bValidFlag (line_at c (set * iCacheLinesPerSet g + i))
                  =? CACHE_VALID_FLAG)) eqn:Hc.
    + apply andb_true_iff in Hc as [Hc1 Hc2].
      apply negb_true_iff, Z.eqb_neq in Hc1. apply Z.eqb_eq in Hc2.
      rewrite IH;
        [| apply (in_bounds_length g c); [apply length_update_at | assumption]
         | lia | lia | lia].
      destruct (Z.eq_dec q (set * iCacheLinesPerSet g + i)) as [->|Hne].
      * rewrite line_at_update_eq by lia. cbn [bValidFlag set_iRank].
        unfold dec_rank. zbool.
      * rewrite line_at_update_ne by lia. zbool.
    + rewrite IH by (try assumption; lia).
      destruct (Z.eq_dec q (set * iCacheLinesPerSet g + i)) as [->|Hne].
      * apply andb_false_iff in Hc as [Hc|Hc].
        -- apply negb_false_iff, Z.eqb_eq in Hc. zbool.
        -- apply Z.eqb_neq in Hc. zbool.
      * zbool.
Qed.

Lemma cacheLineRankUpdate_length g c set r :
  length (cacheLineRankUpdate g c set r) = length c.
Proof. apply rank_loop_length. Qed.

Lemma cacheLineRankUpdate_line g c set r q :
  in_bounds g c set -> 0 <= q ->
  line_at (cacheLineRankUpdate g c set r) q = aged g c set r q.
Proof.
  intros Hb Hq. unfold cacheLineRankUpdate, aged.
  assert (HE : 0 <= iCacheLinesPerSet g) by apply Hb.
  rewrite rank_loop_line by (try assumption; lia).
  rewrite Z2Nat.id, Z.add_0_r by assumption. reflexivity.
Qed.

Lemma aged_ext g c c' set r q :
  line_at c' q = line_at c q -> aged g c' set r q = aged g c set r q.
Proof. intros H. unfold aged. now rewrite H. Qed.

Lemma aged_self g c set r :
  aged g c set r (set * iCacheLinesPerSet g + r)
  = line_at c (set * iCacheLinesPerSet g + r).
Proof. unfold aged. rewrite Z.eqb_refl. cbn. now rewrite andb_false_r. Qed.

(** ** What an access does to each line *)

Section SlotOps.

Variables (g : globals) (c : cacheImage_t) (set j : Z).
Hypothesis Hb : in_bounds g c set.
Hypothesis Hj : 0 <= j < iCacheLinesPerSet g.

Let p := set * iCacheLinesPerSet g + j.

Lemma p_in_range : 0 <= p < Z.of_nat (length c).
Proof.
  unfold p. rewrite <- (slot_eq g c) by assumption.
  now apply slot_in_range.
Qed.

Lemma fill_slot_length tag k :
  length (fill_slot g c set j tag k) = length c.
Proof.
  unfold fill_slot. rewrite cacheLineRankUpdate_length.
  destruct (k =? 1); now rewrite !length_update_at.
Qed.

Lemma fill_slot_line tag k q :
  0 <= q ->
  line_at (fill_slot g c set j tag k) q =
  if q =? p then filled_line g tag k (line_at c p) else aged g c set j q.
Proof.
  intros Hq. pose proof p_in_range as Hp.
  unfold fill_slot. rewrite (slot_eq g c) by assumption. fold p.
  rewrite cacheLineRankUpdate_line;
    [| apply (in_bounds_length g c);
       [destruct (k =? 1); now rewrite !length_update_at | assumption]
     | assumption].
  destruct (Z.eqb_spec q p) as [->|Hne].
  - unfold p at 1. rewrite aged_self. fold p. unfold filled_line.
    destruct (k =? 1);
      rewrite !line_at_update_eq by (rewrite ?length_update_at; lia);
      reflexivity.
  - apply aged_ext.
    destruct (k =? 1); now rewrite !line_at_update_ne by lia.
Qed.

Lemma evict_slot_length tag k :
  length (evict_slot g c set j tag k) = length c.
Proof.
  unfold evict_slot. rewrite cacheLineRankUpdate_length.
  destruct (k =? 0); destruct (bDirtyFlag _ =? 1);
    now rewrite !length_update_at.
Qed.

Lemma evict_slot_line tag k q :
  0 <= q ->
  line_at (evict_slot g c set j tag k) q =
  if q =? p then evicted_line g tag k (line_at c p) else aged g c set j q.
Proof.
  intros Hq. pose proof p_in_range as Hp.
  unfold evict_slot. rewrite (slot_eq g c) by assumption. fold p.
  rewrite !(line_at_update_eq _ p) by (rewrite ?length_update_at; lia).
  cbn [bDirtyFlag set_iRank set_iTag].
  rewrite cacheLineRankUpdate_line;
    [| apply (in_bounds_length g c);
       [destruct (k =? 0); destruct (bDirtyFlag _ =? 1);
        now rewrite !length_update_at | assumption]
     | assumption].
  destruct (Z.eqb_spec q p) as [->|Hne].
  - unfold p at 1. rewrite aged_self. fold p. unfold evicted_line.
    destruct (k =? 0); destruct (bDirtyFlag (line_at c p) =? 1);
      rewrite !line_at_update_eq by (rewrite ?length_update_at; lia);
      reflexivity.
  - apply aged_ext.
    destruct (k =? 0); destruct (bDirtyFlag (line_at c p) =? 1);
      now rewrite !line_at_update_ne by lia.
Qed.

Lemma hit_slot_length k :
  length (hit_slot g c set j k) = length c.
Proof.
  unfold hit_slot.
  destruct (k =? 1); destruct (negb _);
    now rewrite ?length_update_at, ?cacheLineRankUpdate_length, ?length_update_at.
Qed.

Lemma hit_slot_line k q :
  0 <= q ->
  line_at (hit_slot g c set j k) q =
  if q =? p then touched_line g k (line_at c p)
  else if iRank (line_at c p) =? iRecentAccessRankValue g then line_at c q
       else aged g c set j q.
Proof.
  intros Hq. pose proof p_in_range as Hp.
  unfold hit_slot. rewrite (slot_eq g c) by assumption. fold p.
  assert (Hb' : in_bounds g (update_at c p (set_iRank (iRecentAccessRankValue g))) set)
    by (apply (in_bounds_length g c); [apply length_update_at | assumption]).
  destruct (Z.eqb_spec (iRank (line_at c p)) (iRecentAccessRankValue g)) as [Hr|Hr];
    cbn [negb].
  - destruct (Z.eqb_spec q p) as [->|Hne].
    + unfold touched_line. rewrite <- Hr.
      destruct (k =? 1); [|now destruct (line_at c p)].
      rewrite line_at_update_eq by lia. reflexivity.
    + destruct (k =? 1); [|reflexivity].
      now rewrite line_at_update_ne by lia.
  - destruct (Z.eqb_spec q p) as [->|Hne].
    + unfold touched_line.
      destruct (k =? 1).
      * rewrite line_at_update_eq
          by (rewrite cacheLineRankUpdate_length, length_update_at; lia).
        rewrite cacheLineRankUpdate_line by (assumption || lia).
        unfold p at 1. rewrite aged_self. fold p.
        rewrite line_at_update_eq by lia. reflexivity.
      * rewrite cacheLineRankUpdate_line by (assumption || lia).
        unfold p at 1. rewrite aged_self. fold p.
        rewrite line_at_update_eq by lia. reflexivity.
    + destruct (k =? 1).
      * rewrite line_at_update_ne by lia.
        rewrite cacheLineRankUpdate_line by (assumption || lia).
        apply aged_ext. now rewrite line_at_update_ne by lia.
      * rewrite cacheLineRankUpdate_line by (assumption || lia).
        apply aged_ext. now rewrite line_at_update_ne by lia.
Qed.

End SlotOps.

(** ** How an access resolves *)

Lemma image_verbose g e m : image (verbose g e m) = image m.
Proof. unfold verbose. now destruct (bVerbose g). Qed.

Lemma stats_verbose g e m : stats (verbose g e m) = stats m.
Proof. unfold verbose. now destruct (bVerbose g). Qed.

Lemma cacheEvictionHandler_image g m set tag k :
  image (cacheEvictionHandler g m set tag k) =
  match first_slot is_victim g (image m) set
          (Z.to_nat (iCacheLinesPerSet g)) 0 with
  | Some j => evict_slot g (image m) set j tag k
  | None => image m
  end.
Proof.
  unfold cacheEvictionHandler. rewrite image_verbose. cbn [image with_stats].
  destruct (first_slot is_victim g (image m) set _ 0);
    [reflexivity | now rewrite image_verbose].
Qed.

Lemma cacheEvictionHandler_stats g m set tag k :
  stats (cacheEvictionHandler g m set tag k) = incr_evictions (stats m).
Proof.
  unfold cacheEvictionHandler. rewrite image_verbose. cbn [image with_stats].
  destruct (first_slot is_victim g (image m) set _ 0);
    cbn [stats with_image]; now rewrite stats_verbose.
Qed.

Lemma cacheHandler_image g m set tag k :
  image (cacheHandler g m set tag k) =
  match classify g (image m) set tag with
  | Hit j => hit_slot g (image m) set j k
  | Fill j => fill_slot g (image m) set j tag k
  | Evict j => evict_slot g (image m) set j tag k
  | NoVictim | NoLines => image m
  end.
Proof.
  unfold cacheHandler, classify.
  destruct (first_slot (is_hit tag) g (image m) set _ 0) as [j|];
    [now rewrite image_verbose|].
  unfold cacheMissHandler. rewrite image_verbose. cbn [image with_stats].
  rewrite miss_scan_first.
  destruct (first_slot is_free g (image m) set _ 0) as [j|]; [reflexivity|].
  destruct (Z.to_nat (iCacheLinesPerSet g)) as [|n] eqn:HE;
    [now rewrite image_verbose|].
  rewrite cacheEvictionHandler_image, image_verbose. cbn [image with_stats].
  rewrite HE. now destruct (first_slot is_victim g (image m) set (S n) 0).
Qed.

Lemma cacheHandler_stats g m set tag k :
  stats (cacheHandler g m set tag k) =
  match classify g (image m) set tag with
  | Hit _ => incr_hits (stats m)
  | Fill _ | NoLines => incr_misses (stats m)
  | Evict _ | NoVictim => incr_evictions (incr_misses (stats m))
  end.
Proof.
  unfold cacheHandler, classify.
  destruct (first_slot (is_hit tag) g (image m) set _ 0) as [j|];
    [now rewrite stats_verbose|].
  unfold cacheMissHandler. rewrite image_verbose. cbn [image with_stats].
  rewrite miss_scan_first.
  destruct (first_slot is_free g (image m) set _ 0) as [j|];
    [cbn [stats with_image]; now rewrite stats_verbose|].
  destruct (Z.to_nat (iCacheLinesPerSet g)) as [|n] eqn:HE;
    [now rewrite stats_verbose|].
  rewrite cacheEvictionHandler_stats, stats_verbose. cbn [stats with_stats].
  now destruct (first_slot is_victim g (image m) set (S n) 0).
Qed.

Section Classify.

Variables (g : globals) (c : cacheImage_t) (set tag : Z).
Let E := iCacheLinesPerSet g.

Lemma classify_Hit j :
  classify g c set tag = Hit j ->
  0 <= j < E /\ is_hit tag (line_at c (slot g set j)) = true.
Proof.
  unfold classify.
  destruct (first_slot (is_hit tag) g c set _ 0) as [j'|] eqn:Hh.
  - intros [= <-]. apply first_slot_Some in Hh as (H1 & H2 & _).
    split; [unfold E; lia | assumption].
  - destruct (first_slot is_free g c set _ 0); [discriminate|].
    destruct (Z.to_nat (iCacheLinesPerSet g)); [discriminate|].
    destruct (first_slot is_victim g c set _ 0); discriminate.
Qed.

Lemma classify_miss :
  (forall j, classify g c set tag <> Hit j) ->
  forall i, 0 <= i < E -> is_hit tag (line_at c (slot g set i)) = false.
Proof.
  unfold classify. intros Hm i Hi.
  destruct (first_slot (is_hit tag) g c set _ 0) as [j'|] eqn:Hh.
  - now destruct (Hm j').
  - apply (first_slot_None _ _ _ _ _ _ Hh). unfold E in Hi. lia.
Qed.

Lemma classify_Fill j :
  classify g c set tag = Fill j ->
  0 <= j < E /\ is_free (line_at c (slot g set j)) = true.
Proof.
  unfold classify.
  destruct (first_slot (is_hit tag) g c set _ 0); [discriminate|].
  destruct (first_slot is_free g c set _ 0) as [j'|] eqn:Hf.
  - intros [= <-]. apply first_slot_Some in Hf as (H1 & H2 & _).
    split; [unfold E; lia | assumption].
  - destruct (Z.to_nat (iCacheLinesPerSet g)); [discriminate|].
    destruct (first_slot is_victim g c set _ 0); discriminate.
Qed.

Lemma classify_Evict j :
  classify g c set tag = Evict j ->
  0 <= j < E /\ is_victim (line_at c (slot g set j)) = true /\
  (forall i, 0 <= i < j -> is_victim (line_at c (slot g set i)) = false) /\
  forall i, 0 <= i < E -> is_free (line_at c (slot g set i)) = false.
Proof.
  unfold classify.
  destruct (first_slot (is_hit tag) g c set _ 0); [discriminate|].
  destruct (first_slot is_free g c set _ 0) as [j'|] eqn:Hf; [discriminate|].
  destruct (Z.to_nat (iCacheLinesPerSet g)) as [|n] eqn:HE; [discriminate|].
  destruct (first_slot is_victim g c set _ 0) as [j'|] eqn:Hv; [|discriminate].
  intros [= <-]. apply first_slot_Some in Hv as (H1 & H2 & H3).
  split; [unfold E; lia|]. split; [assumption|]. split.
  - intros i Hi. apply H3. lia.
  - intros i Hi. apply (first_slot_None _ _ _ _ _ _ Hf). unfold E in Hi. lia.
Qed.

Lemma classify_NoVictim :
  classify g c set tag = NoVictim ->
  0 < E /\
  forall i, 0 <= i < E ->
    is_free (line_at c (slot g set i)) = false /\
    is_victim (line_at c (slot g set i)) = false.
Proof.
  unfold classify.
  destruct (first_slot (is_hit tag) g c set _ 0); [discriminate|].
  destruct (first_slot is_free g c set _ 0) as [j'|] eqn:Hf; [discriminate|].
  destruct (Z.to_nat (iCacheLinesPerSet g)) as [|n] eqn:HE; [discriminate|].
  destruct (first_slot is_victim g c set _ 0) as [j'|] eqn:Hv; [discriminate|].
  intros _. split; [unfold E; lia|].
  intros i Hi. unfold E in Hi. split.
  - apply (first_slot_None _ _ _ _ _ _ Hf). lia.
  - apply (first_slot_None _ _ _ _ _ _ Hv). lia.
Qed.

Lemma classify_NoLines :
  classify g c set tag = NoLines -> E <= 0.
Proof.
  unfold classify.
  destruct (first_slot (is_hit tag) g c set _ 0); [discriminate|].
  destruct (first_slot is_free g c set _ 0) as [j'|] eqn:Hf; [discriminate|].
  destruct (Z.to_nat (iCacheLinesPerSet g)) as [|n] eqn:HE;
    [intros _; unfold E; lia|].
  destruct (first_slot is_victim g c set _ 0); discriminate.
Qed.

End Classify.

Lemma cacheHandler_length g m set tag k :
  in_bounds g (image m) set ->
  length (image (cacheHandler g m set tag k)) = length (image m).
Proof.
  intros Hb. rewrite cacheHandler_image.
  destruct (classify g (image m) set tag) as [j|j|j| |] eqn:Hc;
    try reflexivity.
  - apply hit_slot_length.
  - apply fill_slot_length.
  - apply evict_slot_length.
Qed.

(** ** The eviction handler without a victim *)

(** C10: when no line of the set has rank [EVICTION_RANK_VAL], the
    eviction handler counts an eviction and leaves the whole array as it
    was; the other counters are untouched as well. *)
Theorem C10_eviction_without_victim g m set tag k :
  (forall j, 0 <= j < iCacheLinesPerSet g ->
     iRank (line_at (image m) (slot g set j)) <> EVICTION_RANK_VAL) ->
  image (cacheEvictionHandler g m set tag k) = image m /\
  evictions (stats (cacheEvictionHandler g m set tag k))
    = wrap64 (evictions (stats m) + 1) /\
  hits (stats (cacheEvictionHandler g m set tag k)) = hits (stats m) /\
  misses (stats (cacheEvictionHandler g m set tag k)) = misses (stats m) /\
  dirty_bytes (stats (cacheEvictionHandler g m set tag k))
    = dirty_bytes (stats m) /\
  dirty_evictions (stats (cacheEvictionHandler g m set tag k))
    = dirty_evictions (stats m).
Proof.
  intros Hnone. rewrite cacheEvictionHandler_stats. cbn.
  split; [|repeat split].
  rewrite cacheEvictionHandler_image.
  rewrite first_slot_absent; [reflexivity|].
  intros i Hi. unfold is_victim. apply Z.eqb_neq. apply Hnone. lia.
Qed.

Lemma C10_eviction_without_victim_witness :
  let g := geometry 0 3 0 false in
  let m := simulate g [load 0; load 1; load 2; load 1] [] in
  image (cacheEvictionHandler g m 0 3 0) = image m /\
  evictions (stats (cacheEvictionHandler g m 0 3 0))
    = wrap64 (evictions (stats m) + 1).
Proof.
  intros g m.
  destruct (C10_eviction_without_victim g m 0 3 0) as (H1 & H2 & _).
  - intros j Hj.
    change (0 <= j < 3) in Hj.
    assert (Hcases : j = 0 \/ j = 1 \/ j = 2) by lia.
    destruct Hcases as [-> | [-> | ->]]; vm_compute; discriminate.
  - split; [exact H1 | exact H2].
Defined.

(** ** Dirty bits *)

(** C6: a store that hits marks the line dirty and no hit clears a dirty
    bit anywhere; an eviction sets the victim's dirty bit to the kind of
    the new access, and counts one dirty eviction on that slot exactly
    when the victim was dirty. *)
Theorem C6_dirty_accounting g m set tag k j :
  in_bounds g (image m) set ->
  k = 0 \/ k = 1 ->
  (classify g (image m) set tag = Hit j ->
     (k = 1 ->
      bDirtyFlag (line_at (image (cacheHandler g m set tag k)) (slot g set j)) = 1)
     /\
     (forall q, 0 <= q ->
        bDirtyFlag (line_at (image m) q) = 1 ->
        bDirtyFlag (line_at (image (cacheHandler g m set tag k)) q) = 1))
  /\
  (classify g (image m) set tag = Evict j ->
     bDirtyFlag (line_at (image (cacheHandler g m set tag k)) (slot g set j)) = k
     /\
     (bDirtyFlag (line_at (image m) (slot g set j)) = 1 ->
      dirtyEvictionCount
        (line_at (image (cacheHandler g m set tag k)) (slot g set j))
      = wrap32 (dirtyEvictionCount (line_at (image m) (slot g set j)) + 1))
     /\
     (bDirtyFlag (line_at (image m) (slot g set j)) <> 1 ->
      dirtyEvictionCount
        (line_at (image (cacheHandler g m set tag k)) (slot g set j))
      = dirtyEvictionCount (line_at (image m) (slot g set j)))).
Proof.
  intros Hb Hk. rewrite cacheHandler_image. split; intros Hc; rewrite Hc.
  - apply classify_Hit in Hc as [Hj _].
    assert (Hp := slot_in_range g _ set j Hb Hj).
    rewrite (slot_eq g (image m)) in * by assumption.
    split.
    + intros ->. rewrite hit_slot_line by (assumption || lia).
      now rewrite Z.eqb_refl.
    + intros q Hq Hd. rewrite hit_slot_line by (assumption || lia).
      destruct (Z.eqb_spec q (set * iCacheLinesPerSet g + j)) as [->|Hne].
      * cbn. now destruct (k =? 1).
      * destruct (_ =? iRecentAccessRankValue g); [assumption|].
        unfold aged. now destruct (_ && _).
  - apply classify_Evict in Hc as (Hj & _).
    assert (Hp := slot_in_range g _ set j Hb Hj).
    rewrite (slot_eq g (image m)) in * by assumption.
    rewrite evict_slot_line by (assumption || lia).
    rewrite Z.eqb_refl. cbn. split; [|split].
    + destruct Hk as [-> | ->]; reflexivity.
    + intros ->. reflexivity.
    + intros Hd. apply Z.eqb_neq in Hd. now rewrite Hd.
Qed.

Lemma C6_dirty_accounting_witness :
  let g := geometry 0 1 4 false in
  let m := simulate g [store 0] [] in
  bDirtyFlag (line_at (image (cacheHandler g m 0 1 0)) (slot g 0 0)) = 0 /\
  dirtyEvictionCount (line_at (image (cacheHandler g m 0 1 0)) (slot g 0 0))
    = wrap32 (dirtyEvictionCount (line_at (image m) (slot g 0 0)) + 1).
Proof.
  intros g m.
  destruct (C6_dirty_accounting g m 0 1 0 0) as [_ Hev].
  - by_compute.
  - left. reflexivity.
  - destruct (Hev ltac:(vm_compute; reflexivity)) as (Hd & Hc & _).
    split; [exact Hd|]. apply Hc. vm_compute. reflexivity.
Defined.

(** ** Invariants of the array *)

Lemma aged_fields g c set r q :
  iTag (aged g c set r q) = iTag (line_at c q) /\
  bValidFlag (aged g c set r q) = bValidFlag (line_at c q) /\
  bDirtyFlag (aged g c set r q) = bDirtyFlag (line_at c q) /\
  dirtyEvictionCount (aged g c set r q) = dirtyEvictionCount (line_at c q).
Proof. unfold aged. now destruct (_ && _). Qed.

Lemma well_formed_in_bounds g c set :
  well_formed g c -> 0 <= set < iSetCount g -> in_bounds g c set.
Proof.
  intros (HE & HS & Hlen & H32) Hset. unfold in_bounds.
  repeat split; try lia; try nia.
Qed.

Lemma well_formed_length g c c' :
  length c' = length c -> well_formed g c -> well_formed g c'.
Proof. unfold well_formed. intros ->. tauto. Qed.

Lemma is_hit_false tag l :
  is_hit tag l = false ->
  bValidFlag l <> CACHE_INVALID_FLAG -> iTag l <> tag.
Proof.
  unfold is_hit. intros H Hv Ht. apply Z.eqb_eq in Ht. rewrite Ht in H.
  apply Z.eqb_neq in Hv. rewrite Hv in H. discriminate.
Qed.

(** An access changes the tag or the valid bit of at most one line, a
    line of the addressed set; if it does, the access was a miss, and the
    line ends up valid with the requested tag. *)
Lemma cacheHandler_footprint g m set tag k :
  in_bounds g (image m) set ->
  exists p,
    (forall q, 0 <= q -> q <> p ->
       iTag (line_at (image (cacheHandler g m set tag k)) q)
         = iTag (line_at (image m) q) /\
       bValidFlag (line_at (image (cacheHandler g m set tag k)) q)
         = bValidFlag (line_at (image m) q)) /\
    ((iTag (line_at (image (cacheHandler g m set tag k)) p)
        = iTag (line_at (image m) p) /\
      bValidFlag (line_at (image (cacheHandler g m set tag k)) p)
        = bValidFlag (line_at (image m) p))
     \/
     (set * iCacheLinesPerSet g <= p
        < set * iCacheLinesPerSet g + iCacheLinesPerSet g /\
      iTag (line_at (image (cacheHandler g m set tag k)) p) = tag /\
      bValidFlag (line_at (image (cacheHandler g m set tag k)) p)
        <> CACHE_INVALID_FLAG /\
      forall i, 0 <= i < iCacheLinesPerSet g ->
        is_hit tag (line_at (image m) (set * iCacheLinesPerSet g + i)) = false)).
Proof.
  intros Hb. rewrite cacheHandler_image.
  destruct (classify g (image m) set tag) as [j|j|j| |] eqn:Hc.
  - apply classify_Hit in Hc as [Hj Hh].
    exists (set * iCacheLinesPerSet g + j).
    assert (Hp := slot_in_range g _ set j Hb Hj).
    rewrite (slot_eq g (image m)) in * by assumption.
    split.
    + intros q Hq Hne. rewrite hit_slot_line by assumption.
      apply Z.eqb_neq in Hne. rewrite Hne.
      destruct (_ =? iRecentAccessRankValue g); [tauto|].
      pose proof (aged_fields g (image m) set j q). tauto.
    + left. rewrite hit_slot_line by (assumption || lia).
      rewrite Z.eqb_refl. cbn. tauto.
  - assert (Hmiss : forall i, 0 <= i < iCacheLinesPerSet g ->
              is_hit tag (line_at (image m) (set * iCacheLinesPerSet g + i)) = false).
    { intros i Hi. rewrite <- (slot_eq g (image m)) by assumption.
      apply classify_miss; [|assumption]. intros j'. rewrite Hc. discriminate. }
    apply classify_Fill in Hc as [Hj Hf].
    exists (set * iCacheLinesPerSet g + j).
    assert (Hp := slot_in_range g _ set j Hb Hj).
    rewrite (slot_eq g (image m)) in Hp by assumption.
    split.
    + intros q Hq Hne. rewrite fill_slot_line by assumption.
      apply Z.eqb_neq in Hne. rewrite Hne.
      pose proof (aged_fields g (image m) set j q). tauto.
    + right. rewrite fill_slot_line by (assumption || lia).
      rewrite Z.eqb_refl. cbn. unfold CACHE_VALID_FLAG, CACHE_INVALID_FLAG.
      repeat split; try lia. assumption.
  - assert (Hmiss : forall i, 0 <= i < iCacheLinesPerSet g ->
              is_hit tag (line_at (image m) (set * iCacheLinesPerSet g + i)) = false).
    { intros i Hi. rewrite <- (slot_eq g (image m)) by assumption.
      apply classify_miss; [|assumption]. intros j'. rewrite Hc. discriminate. }
    apply classify_Evict in Hc as (Hj & Hv & _ & Hfull).
    exists (set * iCacheLinesPerSet g + j).
    specialize (Hfull j Hj). rewrite (slot_eq g (image m)) in Hfull by assumption.
    assert (Hp := slot_in_range g _ set j Hb Hj).
    rewrite (slot_eq g (image m)) in Hp by assumption.
    split.
    + intros q Hq Hne. rewrite evict_slot_line by assumption.
      apply Z.eqb_neq in Hne. rewrite Hne.
      pose proof (aged_fields g (image m) set j q). tauto.
    + right. rewrite evict_slot_line by (assumption || lia).
      rewrite Z.eqb_refl. cbn.
      repeat split; try lia; [|assumption].
      unfold is_free in Hfull. now apply Z.eqb_neq.
  - exists 0. split; [tauto | left; tauto].
  - exists 0. split; [tauto | left; tauto].
Qed.

Lemma unique_tags_step g m set tag k :
  well_formed g (image m) -> 0 <= set < iSetCount g ->
  unique_tags g (image m) ->
  unique_tags g (image (cacheHandler g m set tag k)).
Proof.
  intros Hwf Hset Hu set' i j Hset' Hi Hj Hne.
  pose proof (well_formed_in_bounds _ _ _ Hwf Hset) as Hb.
  pose proof (well_formed_in_bounds _ _ _ Hwf Hset') as Hb'.
  specialize (Hu set' i j Hset' Hi Hj Hne).
  rewrite !(slot_eq g (image m)) in * by assumption.
  destruct (cacheHandler_footprint g m set tag k Hb) as (p & Hother & Hp).
  assert (Hqi : 0 <= set' * iCacheLinesPerSet g + i) by nia.
  assert (Hqj : 0 <= set' * iCacheLinesPerSet g + j) by nia.
  set (qi := set' * iCacheLinesPerSet g + i) in *.
  set (qj := set' * iCacheLinesPerSet g + j) in *.
  assert (Hq : qi <> qj) by (unfold qi, qj; lia).
  assert (Hsame : forall q, 0 <= q ->
            (q <> p \/
             (iTag (line_at (image (cacheHandler g m set tag k)) p)
                = iTag (line_at (image m) p) /\
              bValidFlag (line_at (image (cacheHandler g m set tag k)) p)
                = bValidFlag (line_at (image m) p))) ->
            iTag (line_at (image (cacheHandler g m set tag k)) q)
              = iTag (line_at (image m) q) /\
            bValidFlag (line_at (image (cacheHandler g m set tag k)) q)
              = bValidFlag (line_at (image m) q)).
  { intros q Hq0 [Hqp | Hqp]; [now apply Hother|].
    destruct (Z.eq_dec q p) as [->|Hqp']; [assumption | now apply Hother]. }
  destruct Hp as [Hp | (Hin & Htag & Hval & Hmiss)].
  - destruct (Hsame qi Hqi (or_intror Hp)) as [-> ->].
    destruct (Hsame qj Hqj (or_intror Hp)) as [-> ->]. assumption.
  - assert (Hset_eq : forall x, 0 <= x < iCacheLinesPerSet g ->
              set' * iCacheLinesPerSet g + x = p -> set' = set) by (intros; nia).
    destruct (Z.eq_dec qi p) as [Hip|Hip]; destruct (Z.eq_dec qj p) as [Hjp|Hjp].
    + lia.
    + destruct (Hother qj Hqj Hjp) as [-> ->].
      rewrite Hip, Htag. intros _ Hvj Heq.
      assert (set' = set) by (apply (Hset_eq i); assumption). subst set'.
      apply (is_hit_false tag (line_at (image m) qj)); auto.
      apply Hmiss. assumption.
    + destruct (Hother qi Hqi Hip) as [-> ->].
      rewrite Hjp, Htag. intros Hvi _ Heq.
      assert (set' = set) by (apply (Hset_eq j); assumption). subst set'.
      apply (is_hit_false tag (line_at (image m) qi)); auto.
      apply Hmiss. assumption.
    + destruct (Hother qi Hqi Hip) as [-> ->].
      destruct (Hother qj Hqj Hjp) as [-> ->]. assumption.
Qed.

Lemma dirty_valid_step g m set tag k :
  in_bounds g (image m) set ->
  dirty_valid (image m) ->
  dirty_valid (image (cacheHandler g m set tag k)).
Proof.
  intros Hb Hd q Hq. rewrite cacheHandler_image.
  destruct (classify g (image m) set tag) as [j|j|j| |] eqn:Hc;
    try (apply Hd; assumption).
  - apply classify_Hit in Hc as [Hj Hh].
    rewrite (slot_eq g (image m)) in Hh by assumption.
    rewrite hit_slot_line by assumption.
    destruct (Z.eqb_spec q (set * iCacheLinesPerSet g + j)) as [->|Hne].
    + cbn. intros _. unfold is_hit in Hh.
      apply andb_true_iff in Hh as [_ Hv].
      now apply negb_true_iff, Z.eqb_neq in Hv.
    + destruct (_ =? iRecentAccessRankValue g); [now apply Hd|].
      destruct (aged_fields g (image m) set j q) as (_ & -> & -> & _).
      now apply Hd.
  - apply classify_Fill in Hc as [Hj _].
    rewrite fill_slot_line by assumption.
    destruct (Z.eqb_spec q (set * iCacheLinesPerSet g + j)) as [->|Hne].
    + cbn. intros _. discriminate.
    + destruct (aged_fields g (image m) set j q) as (_ & -> & -> & _).
      now apply Hd.
  - apply classify_Evict in Hc as (Hj & _ & _ & Hfull).
    specialize (Hfull j Hj).
    rewrite (slot_eq g (image m)) in Hfull by assumption.
    rewrite evict_slot_line by assumption.
    destruct (Z.eqb_spec q (set * iCacheLinesPerSet g + j)) as [->|Hne].
    + cbn. intros _. unfold is_free in Hfull. now apply Z.eqb_neq.
    + destruct (aged_fields g (image m) set j q) as (_ & -> & -> & _).
      now apply Hd.
Qed.

(** ** Replaying a trace *)

Lemma line_at_calloc n q : line_at (calloc n) q = zeroLine.
Proof. unfold line_at, calloc. apply nth_repeat. Qed.

Lemma length_calloc n : 0 <= n -> Z.of_nat (length (calloc n)) = n.
Proof. intros Hn. unfold calloc. rewrite repeat_length. lia. Qed.

Lemma replay_snoc g trace r acc :
  replay g (trace ++ [r]) acc = trace_step g (replay g trace acc) r.
Proof. unfold replay. now rewrite fold_left_app. Qed.

(** A property of the array that every lookup keeps holds after any
    trace. *)
Lemma replay_invariant (P : cacheImage_t -> Prop) g :
  (forall m k addr, P (image m) -> P (image (checkSimulatorCache g m k addr))) ->
  forall trace acc, P (image (snd acc)) -> P (image (snd (replay g trace acc))).
Proof.
  intros Hstep trace. unfold replay.
  induction trace as [|r trace IH]; intros acc Hacc; [assumption|].
  cbn [fold_left]. apply IH. destruct acc as [flag m].
  cbn [trace_step snd]. rewrite image_verbose. apply Hstep.
  now rewrite image_verbose.
Qed.

Section Geometry.

Variables (s E b : Z) (v : bool).
Hypothesis Hgeo : valid_geometry s E b.
Let g := geometry s E b v.

Lemma geometry_fields :
  iSetBitCount g = s /\ iSetCount g = 2 ^ s /\ iCacheLinesPerSet g = E /\
  iBlockBitCount g = b /\ iRecentAccessRankValue g = E /\ E < 2 ^ 32.
Proof.
  destruct Hgeo as (Hs & HE & Hb & Hsb & Hfit).
  assert (H2s : 0 < 2 ^ s) by (apply Z.pow_pos_nonneg; lia).
  assert (HE32 : E < 2 ^ 32) by nia.
  unfold g, geometry, to_unsigned. cbn.
  rewrite !(wrap32_small s), !(wrap32_small E), !(wrap32_small b) by lia.
  rewrite int_shl1_small by lia. repeat split; lia.
Qed.

Lemma geometry_set_index addr :
  0 <= addrSVal g addr < iSetCount g.
Proof.
  destruct geometry_fields as (Hs & HS & _ & Hb & _).
  destruct Hgeo as (Hs' & HE & Hb' & Hsb & Hfit).
  rewrite HS, <- Hs at 1. apply addrSVal_range; lia.
Qed.

Lemma geometry_calloc_well_formed :
  well_formed g (calloc (wrap32 (iSetCount g * iCacheLinesPerSet g))).
Proof.
  destruct geometry_fields as (_ & HS & HE & _).
  destruct Hgeo as (Hs' & HE' & Hb' & Hsb & Hfit).
  assert (H2s : 0 < 2 ^ s) by (apply Z.pow_pos_nonneg; lia).
  rewrite HS, HE. rewrite wrap32_small by nia.
  unfold well_formed. rewrite HS, HE, length_calloc by nia. lia.
Qed.

Lemma run_invariant_calloc :
  run_invariant g (calloc (wrap32 (iSetCount g * iCacheLinesPerSet g))).
Proof.
  split; [apply geometry_calloc_well_formed|]. split.
  - intros set i j _ _ _ _ Hv. rewrite line_at_calloc in Hv. now destruct Hv.
  - intros q _ Hd. rewrite line_at_calloc in Hd. discriminate.
Qed.

Lemma run_invariant_step m k addr :
  run_invariant g (image m) ->
  run_invariant g (image (checkSimulatorCache g m k addr)).
Proof.
  intros (Hwf & Hu & Hd). unfold checkSimulatorCache.
  pose proof (geometry_set_index addr) as Hset.
  pose proof (well_formed_in_bounds _ _ _ Hwf Hset) as Hb.
  split; [|split].
  - apply (well_formed_length g (image m)); [|assumption].
    now apply cacheHandler_length.
  - now apply unique_tags_step.
  - now apply dirty_valid_step.
Qed.

Lemma run_invariant_simulate trace log :
  run_invariant g (image (simulate g trace log)).
Proof.
  unfold simulate. apply (replay_invariant (run_invariant g) g).
  - apply run_invariant_step.
  - apply run_invariant_calloc.
Qed.

End Geometry.

(** C4: however long the trace, no set of the array ends up with two
    valid lines that hold the same tag. *)
Theorem C4_unique_resident_tags (s E b : Z) (v : bool)
    (trace : list trace_record) (log : list event) :
  valid_geometry s E b ->
  unique_tags (geometry s E b v) (image (simulate (geometry s E b v) trace log)).
Proof.
  intros Hgeo. apply (run_invariant_simulate s E b v Hgeo trace log).
Qed.

Lemma C4_unique_resident_tags_witness :
  unique_tags (geometry 1 2 0 false)
    (image (simulate (geometry 1 2 0 false)
              [load 0; store 2; load 4; load 1; store 0] [])).
Proof.
  apply (C4_unique_resident_tags 1 2 0 false).
  unfold valid_geometry. lia.
Defined.

(** ** The summary loops *)

Lemma line_at_drop c k x :
  c !! k = Some x -> line_at c (Z.of_nat k) = x /\ drop k c = x :: drop (S k) c.
Proof.
  intros Hk. split.
  - unfold line_at. rewrite Nat2Z.id. now apply nth_lookup_Some.
  - now apply drop_S.
Qed.

Lemma summary_inner_take g c i fuel : forall j acc,
  0 <= i -> 0 <= j ->
  i * iCacheLinesPerSet g + j + Z.of_nat fuel <= Z.of_nat (length c) ->
  0 <= iCacheLinesPerSet g ->
  Z.of_nat (length c) < 2 ^ 32 ->
  summary_inner g c i fuel j acc =
  fold_left summary_body
    (take fuel (drop (Z.to_nat (i * iCacheLinesPerSet g + j)) c)) acc.
Proof.
  induction fuel as [|fuel IH]; intros j acc Hi Hj Hlen HE H32;
    [reflexivity|].
  cbn [summary_inner].
  assert (Hbase : 0 <= i * iCacheLinesPerSet g) by nia.
  rewrite (wrap32_small (i * iCacheLinesPerSet g)) by lia.
  rewrite wrap32_small by lia.
  set (k := Z.to_nat (i * iCacheLinesPerSet g + j)).
  destruct (lookup_lt_is_Some_2 c k ltac:(lia)) as [x Hx].
  destruct (line_at_drop c k x Hx) as [Hline Hdrop].
  replace (Z.of_nat k) with (i * iCacheLinesPerSet g + j) in Hline by lia.
  rewrite Hline, Hdrop. cbn [take fold_left].
  rewrite IH by lia. do 3 f_equal. lia.
Qed.

Lemma summary_outer_take g c fuel : forall i acc,
  0 <= i -> 0 <= iCacheLinesPerSet g ->
  (i + Z.of_nat fuel) * iCacheLinesPerSet g <= Z.of_nat (length c) ->
  Z.of_nat (length c) < 2 ^ 32 ->
  summary_outer g c fuel i acc =
  fold_left summary_body
    (take (fuel * Z.to_nat (iCacheLinesPerSet g))
          (drop (Z.to_nat (i * iCacheLinesPerSet g)) c)) acc.
Proof.
  induction fuel as [|fuel IH]; intros i acc Hi HE Hlen H32; [reflexivity|].
  cbn [summary_outer].
  rewrite summary_inner_take by (try assumption; nia).
  rewrite IH by (try assumption; lia).
  rewrite Z.add_0_r, <- fold_left_app.
  replace (Z.to_nat ((i + 1) * iCacheLinesPerSet g))
    with (Z.to_nat (i * iCacheLinesPerSet g) + Z.to_nat (iCacheLinesPerSet g))%nat
    by nia.
  rewrite <- drop_drop, take_take_drop. reflexivity.
Qed.

Lemma summary_outer_all g c acc :
  well_formed g c ->
  summary_outer g c (Z.to_nat (iSetCount g)) 0 acc = fold_left summary_body c acc.
Proof.
  intros (HE & HS & Hlen & H32).
  rewrite summary_outer_take by (try assumption; lia).
  cbn [Z.mul Z.to_nat]. rewrite drop_0, take_ge; [reflexivity|]. nia.
Qed.

Lemma fold_summary_body c : forall d e,
  0 <= d < 2 ^ 32 -> 0 <= e < 2 ^ 32 ->
  fold_left summary_body c (d, e) =
  (wrap32 (d + Z.of_nat (length (List.filter (fun l => bDirtyFlag l =? 1) c))),
   wrap32 (e + sum_dirty_evictions c)).
Proof.
  induction c as [|l c IH]; intros d e Hd He.
  - cbn. now rewrite !Z.add_0_r, !wrap32_small.
  - cbn [fold_left summary_body fst snd List.filter].
    unfold sum_dirty_evictions. cbn [map fold_right].
    fold (sum_dirty_evictions c).
    destruct (bDirtyFlag l =? 1) eqn:Hdl.
    + replace (summary_body (d, e) l)
        with (wrap32 (d + 1), wrap32 (e + dirtyEvictionCount l))
        by (unfold summary_body; cbn [fst snd]; now rewrite Hdl).
      rewrite IH by (try apply wrap32_range; assumption).
      cbn [length]. unfold wrap32.
      rewrite !Zplus_mod_idemp_l. f_equal; f_equal; lia.
    + replace (summary_body (d, e) l)
        with (d, wrap32 (e + dirtyEvictionCount l))
        by (unfold summary_body; cbn [fst snd]; now rewrite Hdl).
      rewrite IH by (try apply wrap32_range; assumption).
      unfold wrap32. rewrite !Zplus_mod_idemp_l. f_equal; f_equal; lia.
Qed.

Lemma dirty_valid_count c :
  dirty_valid c ->
  Z.of_nat (length (List.filter (fun l => bDirtyFlag l =? 1) c))
  = count_valid_dirty c.
Proof.
  intros Hd. unfold count_valid_dirty. do 2 f_equal.
  apply filter_ext_in. intros l Hin.
  destruct (In_nth c l zeroLine Hin) as (n & Hn & Hl).
  specialize (Hd (Z.of_nat n) ltac:(lia)).
  unfold line_at in Hd. rewrite Nat2Z.id, Hl in Hd.
  unfold valid_and_dirty.
  destruct (Z.eqb_spec (bDirtyFlag l) 1) as [H1|H1];
    [|now rewrite andb_false_r].
  apply Hd, Z.eqb_neq in H1. now rewrite H1.
Qed.

Lemma count_valid_dirty_bound c :
  0 <= count_valid_dirty c <= Z.of_nat (length c).
Proof.
  unfold count_valid_dirty.
  pose proof (filter_length_le valid_and_dirty c). lia.
Qed.

Lemma summarize_totals g m :
  well_formed g (image m) -> dirty_valid (image m) ->
  dirty_bytes (summarize g m)
    = wrap32 (count_valid_dirty (image m) * iBlocksPerLine g) /\
  dirty_evictions (summarize g m)
    = wrap32 (sum_dirty_evictions (image m) * iBlocksPerLine g) /\
  hits (summarize g m) = hits (stats m) /\
  misses (summarize g m) = misses (stats m) /\
  evictions (summarize g m) = evictions (stats m).
Proof.
  intros Hwf Hd. unfold summarize.
  rewrite summary_outer_all by assumption.
  rewrite fold_summary_body by lia.
  rewrite dirty_valid_count by assumption. cbn.
  pose proof (count_valid_dirty_bound (image m)) as Hc.
  destruct Hwf as (_ & _ & _ & H32).
  rewrite !Z.add_0_l.
  rewrite (wrap32_small (count_valid_dirty (image m))) by lia.
  repeat split. unfold wrap32. now rewrite Z.mul_mod_idemp_l by lia.
Qed.

Lemma replay_invariant_machine (P : machine -> Prop) g :
  (forall e m, P m -> P (verbose g e m)) ->
  (forall m k addr, P m -> P (checkSimulatorCache g m k addr)) ->
  forall trace acc, P (snd acc) -> P (snd (replay g trace acc)).
Proof.
  intros Hverb Hstep trace. unfold replay.
  induction trace as [|r trace IH]; intros acc Hacc; [assumption|].
  cbn [fold_left]. apply IH. destruct acc as [flag m].
  cbn [trace_step snd]. auto.
Qed.

(** The two dirty totals of the statistics stay untouched while the trace
    is replayed. *)
Lemma simulate_dirty_totals g trace log :
  dirty_bytes (stats (simulate g trace log)) = 0 /\
  dirty_evictions (stats (simulate g trace log)) = 0.
Proof.
  unfold simulate.
  apply (replay_invariant_machine
           (fun m => dirty_bytes (stats m) = 0 /\ dirty_evictions (stats m) = 0) g).
  - intros e m H. now rewrite stats_verbose.
  - intros m k addr H. unfold checkSimulatorCache. rewrite cacheHandler_stats.
    now destruct (classify g (image m) _ _).
  - cbn. split; reflexivity.
Qed.

(** C7 with exact products fails once a product leaves 32 bits: four
    dirty lines of 2^30 bytes each are summarized as zero dirty bytes. *)
Lemma C7_dirty_bytes_wrap :
  let g := geometry 2 1 30 false in
  let m := simulate g [store 0; store (2 ^ 30); store (2 ^ 31); store (3 * 2 ^ 30)] [] in
  valid_geometry 2 1 30 /\
  count_valid_dirty (image m) = 4 /\
  dirty_bytes (summarize g m) = 0 /\
  dirty_bytes (summarize g m) <> count_valid_dirty (image m) * 2 ^ 30.
Proof.
  split; [unfold valid_geometry; lia|].
  vm_compute. repeat split; try reflexivity. discriminate.
Qed.

(** C7, in the arithmetic of the code: the totals are formed after the replay, from one pass
    over the array, in 32-bit unsigned arithmetic; each is the product the
    spec names, reduced modulo 2^32, hence the product itself whenever
    that is below 2^32. *)
Theorem C7_summary_totals (s E b : Z) (v : bool)
    (trace : list trace_record) (log : list event) :
  valid_geometry s E b -> b <= 30 ->
  dirty_bytes (summarize (geometry s E b v) (simulate (geometry s E b v) trace log))
    = wrap32 (count_valid_dirty (image (simulate (geometry s E b v) trace log))
              * 2 ^ b) /\
  dirty_evictions (summarize (geometry s E b v) (simulate (geometry s E b v) trace log))
    = wrap32 (sum_dirty_evictions (image (simulate (geometry s E b v) trace log))
              * 2 ^ b) /\
  dirty_bytes (stats (simulate (geometry s E b v) trace log)) = 0 /\
  dirty_evictions (stats (simulate (geometry s E b v) trace log)) = 0.
Proof.
  intros Hgeo Hb.
  destruct (run_invariant_simulate s E b v Hgeo trace log) as (Hwf & _ & Hd).
  destruct (summarize_totals _ _ Hwf Hd) as (H1 & H2 & _).
  assert (HB : iBlocksPerLine (geometry s E b v) = 2 ^ b).
  { destruct Hgeo as (_ & _ & Hb0 & _).
    unfold geometry, to_unsigned. cbn.
    rewrite wrap32_small by lia. apply int_shl1_small. lia. }
  rewrite HB in H1, H2.
  split; [exact H1|]. split; [exact H2|]. apply simulate_dirty_totals.
Qed.

Lemma C7_summary_totals_witness :
  let g := geometry 0 1 4 false in
  let m := simulate g [store 0; load 16] [] in
  dirty_bytes (summarize g m) = wrap32 (count_valid_dirty (image m) * 2 ^ 4) /\
  dirty_evictions (summarize g m)
    = wrap32 (sum_dirty_evictions (image m) * 2 ^ 4).
Proof.
  intros g m.
  destruct (C7_summary_totals 0 1 4 false [store 0; load 16] [])
    as (H1 & H2 & _).
  - unfold valid_geometry. lia.
  - lia.
  - split; [exact H1 | exact H2].
Defined.

(** ** The driver *)

Lemma getopt_case_printed s o :
  exists tail, printed (getopt_case s o) = printed s ++ tail /\
               Forall (fun e => e = EvHelp \/ e = EvInvalidFlag) tail.
Proof.
  destruct o; cbn;
    try (exists []; rewrite app_nil_r; split; [reflexivity | constructor]).
  - exists [EvHelp]. split; [reflexivity|]. constructor; [now left | constructor].
  - exists [EvInvalidFlag]. split; [reflexivity|].
    constructor; [now right | constructor].
Qed.

Lemma fold_getopt_printed argv : forall s,
  Forall (fun e => e = EvHelp \/ e = EvInvalidFlag) (printed s) ->
  Forall (fun e => e = EvHelp \/ e = EvInvalidFlag)
         (printed (fold_left getopt_case argv s)).
Proof.
  induction argv as [|o argv IH]; intros s Hs; [assumption|].
  cbn [fold_left]. apply IH.
  destruct (getopt_case_printed s o) as (tail & -> & Htail).
  apply Forall_app. now split.
Qed.

Lemma parse_options_printed argv :
  Forall (fun e => e = EvHelp \/ e = EvInvalidFlag) (printed (parse_options argv)).
Proof. apply fold_getopt_printed. constructor. Qed.

Lemma fold_getopt_unsigned argv : forall s,
  0 <= iSetBitCount (gl s) -> 0 <= iBlockBitCount (gl s) ->
  0 <= iSetBitCount (gl (fold_left getopt_case argv s)) /\
  0 <= iBlockBitCount (gl (fold_left getopt_case argv s)).
Proof.
  induction argv as [|o argv IH]; intros s Hs Hb; [now split|].
  cbn [fold_left]. apply IH; destruct o; cbn; try assumption;
    unfold to_unsigned; apply wrap32_range.
Qed.

Lemma general_error_checks_spec argv :
  general_error_checks (parse_options argv) = true <->
  invalid_configuration (parse_options argv).
Proof.
  unfold parse_options.
  destruct (fold_getopt_unsigned argv main_state0) as [Hs Hb]; [cbn; lia..|].
  set (s := fold_left getopt_case argv main_state0) in *.
  unfold general_error_checks, invalid_configuration.
  rewrite !orb_true_iff, !Z.ltb_lt.
  destruct (inputTraceFile s); split; intros H;
    repeat match goal with H : _ \/ _ |- _ => destruct H end;
    try lia; try discriminate; auto.
Qed.

(** C8 without the help exception fails: with [-h] alone the run ends
    with status 1, but the invalid-parameters message is not printed. *)
Lemma C8_help_suppresses_report :
  invalid_configuration (parse_options [OptH]) /\
  main [OptH] true = (1, [EvHelp]) /\
  ~ In EvInvalidParams (snd (main [OptH] true)).
Proof.
  split; [left; vm_compute; reflexivity|].
  split; [reflexivity|].
  cbn. intros [H|[]]. discriminate H.
Qed.

(** C8, with the help exception: an invalid configuration makes [main] return 1 having
    printed nothing but help text, unknown-flag notices and, unless help
    was asked for, the invalid-parameters message: no allocation, no
    replay, no summary.  A valid one has a trace file and passes the
    checks; on a geometry within the bounds of the array
    ([valid_geometry]) the run then requests the array and, if that
    succeeds, replays the trace, prints the summary and returns 0. *)
Theorem C8_configuration_gate (argv : list cli_option) (heap_ok : bool) :
  (invalid_configuration (parse_options argv) ->
     fst (main argv heap_ok) = 1 /\
     snd (main argv heap_ok)
       = (if bHelpevoked (parse_options argv)
          then printed (parse_options argv)
          else printed (parse_options argv) ++ [EvInvalidParams]) /\
     Forall (fun e => e = EvHelp \/ e = EvInvalidFlag \/ e = EvInvalidParams)
            (snd (main argv heap_ok)))
  /\
  (~ invalid_configuration (parse_options argv) ->
     exists trace,
       inputTraceFile (parse_options argv) = Some trace /\
       general_error_checks (parse_options argv) = false /\
       forall s E b v,
         gl (parse_options argv) = geometry s E b v ->
         valid_geometry s E b ->
         main argv heap_ok =
         let g := geometry s E b v in
         let log := printed (parse_options argv)
                    ++ [EvCalloc (wrap32 (iSetCount g * iCacheLinesPerSet g))] in
         if heap_ok
         then (0, out (simulate g trace log)
                  ++ [EvSummary (summarize g (simulate g trace log))])
         else (1, log ++ [EvHeapFailed])).
Proof.
  pose proof (general_error_checks_spec argv) as Hspec.
  pose proof (parse_options_printed argv) as Hpr.
  split; intros Hcfg.
  - unfold main. apply Hspec in Hcfg. rewrite Hcfg. cbn [fst snd].
    split; [reflexivity|]. split; [reflexivity|].
    assert (Hweak : Forall (fun e => e = EvHelp \/ e = EvInvalidFlag \/ e = EvInvalidParams)
                           (printed (parse_options argv))).
    { eapply Forall_impl; [exact Hpr|]. cbn. tauto. }
    destruct (bHelpevoked (parse_options argv)); [assumption|].
    apply Forall_app. split; [assumption|]. constructor; [tauto | constructor].
  - destruct (general_error_checks (parse_options argv)) eqn:Hchk.
    + destruct Hcfg. now apply Hspec.
    + destruct (inputTraceFile (parse_options argv)) as [trace|] eqn:Hfile.
      * exists trace. split; [reflexivity|]. split; [reflexivity|].
        intros s E b v Hgl _. unfold main. rewrite Hchk, Hfile, <- Hgl.
        now destruct heap_ok.
      * destruct Hcfg. unfold invalid_configuration. tauto.
Qed.

Lemma C8_configuration_gate_witness :
  fst (main [OptS 1; OptE 0; OptB 2; OptT (Some [load 0])] true) = 1 /\
  fst (main [OptS 1; OptE 2; OptB 2; OptT (Some [load 0])] true) = 0.
Proof.
  split.
  - apply (C8_configuration_gate [OptS 1; OptE 0; OptB 2; OptT (Some [load 0])] true).
    left. vm_compute. reflexivity.
  - destruct (proj2 (C8_configuration_gate
                       [OptS 1; OptE 2; OptB 2; OptT (Some [load 0])] true))
      as (trace & _ & _ & Hrun).
    + intros [H|[H|[H|H]]]; vm_compute in H; try discriminate H;
        now destruct H.
    + rewrite (Hrun 1 2 2 false); [reflexivity | reflexivity |].
      unfold valid_geometry. lia.
Defined.

Lemma replay_flag g before m0 :
  fst (replay g before (0, m0)) = inherited_kind before.
Proof.
  induction before as [|r before IH] using rev_ind; [reflexivity|].
  rewrite replay_snoc. unfold inherited_kind in *. rewrite rev_app_distr.
  cbn [rev app find]. unfold is_load_or_store at 1.
  destruct (replay g before (0, m0)) as [flag m] eqn:Hr. cbn [fst] in IH.
  cbn [trace_step fst].
  destruct (Ascii.eqb (rec_op r) "L") eqn:HL; cbn [orb].
  - unfold kind_of. apply Ascii.eqb_eq in HL. now rewrite HL.
  - destruct (Ascii.eqb (rec_op r) "S") eqn:HS; cbn [orb].
    + unfold kind_of. now rewrite HS.
    + exact IH.
Qed.

(** C9: a record whose operation is neither ['L'] nor ['S'] is looked up
    like any other, with the kind left by the last load or store before
    it, or as a load when there was none. *)
Theorem C9_other_operation g (before : list trace_record) (r : trace_record)
    (m0 : machine) :
  rec_op r <> "L"%char -> rec_op r <> "S"%char ->
  replay g (before ++ [r]) (0, m0) =
  (inherited_kind before,
   verbose g EvNewline
     (checkSimulatorCache g
        (verbose g (EvRecord r) (snd (replay g before (0, m0))))
        (inherited_kind before) (rec_addr r))).
Proof.
  intros HL HS. rewrite replay_snoc, <- (replay_flag g before m0).
  destruct (replay g before (0, m0)) as [flag m]. cbn [trace_step fst snd].
  apply Ascii.eqb_neq in HL, HS. now rewrite HL, HS.
Qed.

Lemma C9_other_operation_witness :
  let g := geometry 0 1 0 false in
  let m0 := mkMachine (calloc 1) zeroStats [] in
  replay g ([store 0] ++ [mkRecord "M" 0 1]) (0, m0) =
  (inherited_kind [store 0],
   verbose g EvNewline
     (checkSimulatorCache g
        (verbose g (EvRecord (mkRecord "M" 0 1)) (snd (replay g [store 0] (0, m0))))
        (inherited_kind [store 0]) 0)).
Proof.
  intros g m0.
  apply (C9_other_operation g [store 0] (mkRecord "M" 0 1) m0); discriminate.
Defined.

(** ** Replacement order *)

Lemma resident_iff g c set tag :
  resident g c set tag = true <->
  exists j, 0 <= j < iCacheLinesPerSet g /\
            is_hit tag (line_at c (slot g set j)) = true.
Proof.
  unfold resident, set_lines. rewrite existsb_exists. split.
  - intros (l & Hin & Hl). apply in_map_iff in Hin as (n & <- & Hn).
    apply in_seq in Hn. exists (Z.of_nat n). split; [lia | assumption].
  - intros (j & Hj & Hl). exists (line_at c (slot g set j)).
    split; [|assumption]. apply in_map_iff. exists (Z.to_nat j).
    split; [now rewrite Z2Nat.id by lia|]. apply in_seq. lia.
Qed.

Lemma resident_false_iff g c set tag :
  resident g c set tag = false <->
  forall j, 0 <= j < iCacheLinesPerSet g ->
            is_hit tag (line_at c (slot g set j)) = false.
Proof.
  split.
  - intros Hr j Hj.
    destruct (is_hit tag (line_at c (slot g set j))) eqn:Hh; [|reflexivity].
    rewrite (proj2 (resident_iff g c set tag)) in Hr; [discriminate|].
    now exists j.
  - intros Hall. destruct (resident g c set tag) eqn:Hr; [|reflexivity].
    apply resident_iff in Hr as (j & Hj & Hh).
    rewrite Hall in Hh by assumption. discriminate.
Qed.

(** Whether the requested tag is resident after an access, by how the
    access resolved. *)
Lemma resident_after_access g m set tag k :
  in_bounds g (image m) set ->
  resident g (image (cacheHandler g m set tag k)) set tag =
  match classify g (image m) set tag with
  | Hit _ | Fill _ | Evict _ => true
  | NoVictim | NoLines => false
  end.
Proof.
  intros Hb. rewrite cacheHandler_image.
  destruct (classify g (image m) set tag) as [j|j|j| |] eqn:Hc.
  - apply classify_Hit in Hc as [Hj Hh].
    apply resident_iff. exists j. split; [assumption|].
    assert (Hp := slot_in_range g _ set j Hb Hj).
    rewrite (slot_eq g (image m)) in * by assumption.
    rewrite hit_slot_line by (assumption || lia).
    rewrite Z.eqb_refl. exact Hh.
  - apply classify_Fill in Hc as [Hj _].
    apply resident_iff. exists j. split; [assumption|].
    assert (Hp := slot_in_range g _ set j Hb Hj).
    rewrite (slot_eq g (image m)) in * by assumption.
    rewrite fill_slot_line by (assumption || lia).
    rewrite Z.eqb_refl. unfold is_hit. cbn. now rewrite Z.eqb_refl.
  - apply classify_Evict in Hc as (Hj & _ & _ & Hfull).
    specialize (Hfull j Hj).
    apply resident_iff. exists j. split; [assumption|].
    assert (Hp := slot_in_range g _ set j Hb Hj).
    rewrite (slot_eq g (image m)) in * by assumption.
    rewrite evict_slot_line by (assumption || lia).
    rewrite Z.eqb_refl. unfold is_hit. cbn. rewrite Z.eqb_refl.
    unfold is_free in Hfull. now rewrite Hfull.
  - apply resident_false_iff. intros j Hj.
    apply classify_miss; [|assumption]. intros j'. rewrite Hc. discriminate.
  - apply resident_false_iff. intros j Hj.
    apply classify_miss; [|assumption]. intros j'. rewrite Hc. discriminate.
Qed.

Section Populate.

Variables (g : globals) (set : Z).
Local Abbreviation E := (iCacheLinesPerSet g).
Hypothesis HE : 1 <= E < 2 ^ 32.
Hypothesis Hrank : iRecentAccessRankValue g = E.

Lemma populated_no_hit c tags tag :
  populated g c set tags -> tag ∉ tags ->
  forall i, 0 <= i < E ->
    is_hit tag (line_at c (set * E + i)) = false.
Proof.
  intros Hpop Hnew i Hi. specialize (Hpop i Hi).
  unfold is_hit.
  destruct (Z.ltb_spec i (Z.of_nat (length tags))) as [Hlt|Hge].
  - destruct Hpop as (_ & Ht & _). rewrite Ht.
    destruct (Z.eqb_spec (nth (Z.to_nat i) tags 0) tag) as [Heq|Hne];
      [|reflexivity].
    destruct Hnew. rewrite <- Heq. apply list_elem_of_In, nth_In. lia.
  - rewrite Hpop. cbn. apply andb_false_r.
Qed.

Lemma populated_fills_next c tags tag :
  in_bounds g c set ->
  populated g c set tags -> Z.of_nat (length tags) < E -> tag ∉ tags ->
  classify g c set tag = Fill (Z.of_nat (length tags)).
Proof.
  intros Hb Hpop Hroom Hnew. unfold classify.
  rewrite first_slot_absent.
  2:{ intros i Hi. rewrite (slot_eq g c) by (assumption || lia).
      apply (populated_no_hit c tags); try assumption. lia. }
  rewrite (first_slot_found is_free g c set _ 0 (Z.of_nat (length tags)));
    [reflexivity | lia | |].
  - rewrite (slot_eq g c) by (assumption || lia).
    specialize (Hpop (Z.of_nat (length tags)) ltac:(lia)).
    rewrite Z.ltb_irrefl in Hpop. unfold is_free.
    now rewrite Hpop.
  - intros i Hi. rewrite (slot_eq g c) by (assumption || lia).
    specialize (Hpop i ltac:(lia)).
    destruct (Z.ltb_spec i (Z.of_nat (length tags))); [|lia].
    destruct Hpop as (Hv & _). unfold is_free.  now rewrite Hv.
Qed.

Lemma populated_step m tags tag k :
  in_bounds g (image m) set ->
  populated g (image m) set tags -> Z.of_nat (length tags) < E -> tag ∉ tags ->
  populated g (image (cacheHandler g m set tag k)) set (tags ++ [tag]).
Proof.
  intros Hb Hpop Hroom Hnew.
  rewrite cacheHandler_image, (populated_fills_next _ tags) by assumption.
  intros j Hj.
  rewrite length_app. cbn [length].
  rewrite fill_slot_line; [| assumption | lia | destruct Hb; nia].
  specialize (Hpop j Hj).
  destruct (Z.eqb_spec (set * E + j) (set * E + Z.of_nat (length tags)))
    as [Heq|Hne].
  - assert (Hjn : j = Z.of_nat (length tags)) by lia.
    destruct (Z.ltb_spec j (Z.of_nat (length tags + 1))); [|lia].
    cbn. rewrite Hrank, Hjn, Nat2Z.id, nth_middle.
    repeat split; lia.
  - unfold aged.
    destruct (Z.ltb_spec j (Z.of_nat (length tags))) as [Hlt|Hge].
    + destruct Hpop as (Hv & Ht & Hr).
      destruct (Z.ltb_spec j (Z.of_nat (length tags + 1))); [|lia].
      rewrite Hv.
      replace ((set * E <=? set * E + j) && (set * E + j <? set * E + E)
               && negb (set * E + j =? set * E + Z.of_nat (length tags))
               && (CACHE_VALID_FLAG =? CACHE_VALID_FLAG)) with true
        by (symmetry; zbool).
      cbn. rewrite Hv, Ht, Hr, app_nth1 by lia.
      repeat split. rewrite wrap32_small; lia.
    + destruct (Z.ltb_spec j (Z.of_nat (length tags + 1))); [lia|].
      rewrite Hpop. cbn. rewrite !andb_false_r. assumption.
Qed.

Lemma populate_populated accs : forall m tags,
  in_bounds g (image m) set ->
  populated g (image m) set tags ->
  NoDup (tags ++ map snd accs) ->
  Z.of_nat (length tags) + Z.of_nat (length accs) <= E ->
  in_bounds g (image (populate g set accs m)) set /\
  populated g (image (populate g set accs m)) set (tags ++ map snd accs) /\
  hits (stats (populate g set accs m)) = hits (stats m) /\
  evictions (stats (populate g set accs m)) = evictions (stats m).
Proof.
  induction accs as [|a accs IH]; intros m tags Hb Hpop Hnd Hlen.
  - cbn. rewrite app_nil_r.
    split; [exact Hb|]. split; [exact Hpop|]. split; reflexivity.
  - cbn [populate fold_left map] in *. fold (populate g set accs).
    cbn [length] in Hlen.
    replace (tags ++ snd a :: map snd accs)
      with ((tags ++ [snd a]) ++ map snd accs) in *
      by (now rewrite <- app_assoc).
    assert (Hnew : snd a ∉ tags).
    { apply NoDup_app in Hnd as (Hnd & _ & _).
      apply NoDup_app in Hnd as (_ & Hdis & _).
      intros Hin. apply (Hdis _ Hin). apply list_elem_of_In. now left. }
    assert (Hstats : stats (cacheHandler g m set (snd a) (fst a))
                     = incr_misses (stats m)).
    { rewrite cacheHandler_stats, (populated_fills_next _ tags);
        [reflexivity | assumption | assumption | lia | assumption]. }
    destruct (IH (cacheHandler g m set (snd a) (fst a)) (tags ++ [snd a]))
      as (H1 & H2 & H3 & H4).
    + apply (in_bounds_length g (image m)); [|assumption].
      now apply cacheHandler_length.
    + apply populated_step; try assumption. lia.
    + assumption.
    + rewrite length_app. cbn [length]. lia.
    + rewrite Hstats in H3, H4. cbn in H3, H4.
      split; [exact H1|]. split; [exact H2|]. split; [exact H3 | exact H4].
Qed.

End Populate.

(** A valid line whose rank is not [EVICTION_RANK_VAL] keeps its tag
    through any access to its set. *)
Lemma cacheHandler_keeps_line g m set tag k j :
  in_bounds g (image m) set ->
  0 <= j < iCacheLinesPerSet g ->
  bValidFlag (line_at (image m) (slot g set j)) <> CACHE_INVALID_FLAG ->
  iRank (line_at (image m) (slot g set j)) <> EVICTION_RANK_VAL ->
  iTag (line_at (image (cacheHandler g m set tag k)) (slot g set j))
    = iTag (line_at (image m) (slot g set j)) /\
  bValidFlag (line_at (image (cacheHandler g m set tag k)) (slot g set j))
    = bValidFlag (line_at (image m) (slot g set j)).
Proof.
  intros Hb Hj Hv Hr. rewrite cacheHandler_image.
  assert (Hp := slot_in_range g _ set j Hb Hj).
  destruct (classify g (image m) set tag) as [i|i|i| |] eqn:Hc;
    try (split; reflexivity).
  - apply classify_Hit in Hc as [Hi _].
    rewrite (slot_eq g (image m) set j) in * by assumption.
    rewrite hit_slot_line by (assumption || lia).
    destruct (Z.eqb_spec (set * iCacheLinesPerSet g + j)
                         (set * iCacheLinesPerSet g + i)) as [Heq|Hne];
      [rewrite <- Heq; cbn; tauto|].
    destruct (_ =? iRecentAccessRankValue g); [tauto|].
    pose proof (aged_fields g (image m) set i (set * iCacheLinesPerSet g + j)).
    tauto.
  - apply classify_Fill in Hc as [Hi Hf].
    assert (Hij : i <> j).
    { intros ->. unfold is_free in Hf. apply Z.eqb_eq in Hf. contradiction. }
    rewrite (slot_eq g (image m) set j) in * by assumption.
    rewrite fill_slot_line by (assumption || lia).
    replace (set * iCacheLinesPerSet g + j =? set * iCacheLinesPerSet g + i)
      with false by (symmetry; apply Z.eqb_neq; lia).
    pose proof (aged_fields g (image m) set i (set * iCacheLinesPerSet g + j)).
    tauto.
  - apply classify_Evict in Hc as (Hi & Hvict & _).
    assert (Hij : i <> j).
    { intros ->. unfold is_victim in Hvict. apply Z.eqb_eq in Hvict.
      contradiction. }
    rewrite (slot_eq g (image m) set j) in * by assumption.
    rewrite evict_slot_line by (assumption || lia).
    replace (set * iCacheLinesPerSet g + j =? set * iCacheLinesPerSet g + i)
      with false by (symmetry; apply Z.eqb_neq; lia).
    pose proof (aged_fields g (image m) set i (set * iCacheLinesPerSet g + j)).
    tauto.
Qed.

Lemma nth_tl_S (l : list Z) n : nth n (tl l) 0 = nth (S n) l 0.
Proof. destruct l; [now destruct n | reflexivity]. Qed.

Lemma length_tl_lt (l : list Z) n : (n < length (tl l) -> S n < length l)%nat.
Proof. destruct l; cbn; lia. Qed.

Section FullSet.

Variables (g : globals) (set : Z) (m : machine) (tags : list Z).
Local Abbreviation E := (iCacheLinesPerSet g).
Hypothesis HE : 1 <= E < 2 ^ 32.
Hypothesis Hrank : iRecentAccessRankValue g = E.
Hypothesis Hb : in_bounds g (image m) set.
Hypothesis Hpop : populated g (image m) set tags.
Hypothesis Hfull : Z.of_nat (length tags) = E.
Hypothesis Hnd : NoDup tags.

Lemma full_line j :
  0 <= j < E ->
  bValidFlag (line_at (image m) (slot g set j)) = CACHE_VALID_FLAG /\
  iTag (line_at (image m) (slot g set j)) = nth (Z.to_nat j) tags 0 /\
  iRank (line_at (image m) (slot g set j)) = j + 1.
Proof.
  intros Hj. rewrite (slot_eq g (image m)) by assumption.
  specialize (Hpop j Hj).
  destruct (Z.ltb_spec j (Z.of_nat (length tags))); [|lia].
  destruct Hpop as (Hv & Ht & Hr). repeat split; try assumption. lia.
Qed.

Lemma full_tags_distinct i j :
  0 <= i < E -> 0 <= j < E ->
  nth (Z.to_nat i) tags 0 = nth (Z.to_nat j) tags 0 -> i = j.
Proof.
  intros Hi Hj Heq. apply NoDup_ListNoDup in Hnd.
  assert (Z.to_nat i = Z.to_nat j); [|lia].
  apply (proj1 (List.NoDup_nth tags 0) Hnd); [lia | lia | assumption].
Qed.

Lemma full_resident t : t ∈ tags -> resident g (image m) set t = true.
Proof.
  intros Hin. apply list_elem_of_In in Hin.
  destruct (In_nth tags t 0 Hin) as (n & Hn & Ht).
  apply resident_iff. exists (Z.of_nat n). split; [lia|].
  destruct (full_line (Z.of_nat n) ltac:(lia)) as (Hv & Htag & _).
  unfold is_hit. rewrite Hv, Htag, Nat2Z.id, Ht, Z.eqb_refl. reflexivity.
Qed.

Lemma full_evicts_first tag :
  tag ∉ tags -> classify g (image m) set tag = Evict 0.
Proof.
  intros Hnew. unfold classify.
  rewrite first_slot_absent.
  2:{ intros i Hi. rewrite (slot_eq g (image m)) by (assumption || lia).
      apply (populated_no_hit g set (image m) tags); try assumption. lia. }
  rewrite first_slot_absent.
  2:{ intros i Hi. destruct (full_line i ltac:(lia)) as (Hv & _).
      unfold is_free. now rewrite Hv. }
  destruct (Z.to_nat E) as [|n] eqn:HEn; [lia|].
  rewrite (first_slot_found is_victim g (image m) set (S n) 0 0);
    [reflexivity | lia | | intros; lia].
  destruct (full_line 0 ltac:(lia)) as (_ & _ & Hr).
  unfold is_victim. now rewrite Hr.
Qed.

(** The line in slot [j] once a new tag has been brought into the full
    set. *)
Lemma after_eviction tag k j :
  tag ∉ tags -> 0 <= j < E ->
  bValidFlag (line_at (image (cacheHandler g m set tag k)) (slot g set j))
    = CACHE_VALID_FLAG /\
  iTag (line_at (image (cacheHandler g m set tag k)) (slot g set j))
    = if j =? 0 then tag else nth (Z.to_nat j) tags 0.
Proof.
  intros Hnew Hj.
  rewrite cacheHandler_image, full_evicts_first by assumption.
  destruct (full_line j Hj) as (Hv & Ht & _).
  destruct (full_line 0 ltac:(lia)) as (Hv0 & _).
  assert (Hp := slot_in_range g _ set j Hb Hj).
  rewrite (slot_eq g (image m)) in * by (assumption || lia).
  rewrite evict_slot_line by (assumption || lia).
  rewrite Z.add_0_r in *.
  destruct (Z.eqb_spec j 0) as [->|Hne].
  - rewrite Z.add_0_r in *. rewrite Z.eqb_refl. cbn. split; [assumption|reflexivity].
  - replace (set * E + j =? set * E) with false
      by (symmetry; apply Z.eqb_neq; lia).
    destruct (aged_fields g (image m) set 0 (set * E + j)) as (-> & -> & _).
    now split.
Qed.

Lemma first_tag_evicted tag k :
  tag ∉ tags ->
  resident g (image (cacheHandler g m set tag k)) set (nth 0 tags 0) = false /\
  resident g (image (cacheHandler g m set tag k)) set tag = true /\
  (forall t, t ∈ tl tags ->
     resident g (image (cacheHandler g m set tag k)) set t = true) /\
  evictions (stats (cacheHandler g m set tag k))
    = wrap64 (evictions (stats m) + 1).
Proof.
  intros Hnew. split; [|split; [|split]].
  - apply resident_false_iff. intros j Hj.
    destruct (after_eviction tag k j Hnew Hj) as (Hv & Ht).
    unfold is_hit. rewrite Ht.
    destruct (Z.eqb_spec j 0) as [->|Hne].
    + destruct (Z.eqb_spec tag (nth 0 tags 0)) as [Heq|]; [|reflexivity].
      destruct Hnew. rewrite Heq. apply list_elem_of_In, nth_In. lia.
    + destruct (Z.eqb_spec (nth (Z.to_nat j) tags 0) (nth 0 tags 0)) as [Heq|];
        [|reflexivity].
      apply (full_tags_distinct j 0) in Heq; lia.
  - apply resident_iff. exists 0. split; [lia|].
    destruct (after_eviction tag k 0 Hnew ltac:(lia)) as (Hv & Ht).
    unfold is_hit. rewrite Hv, Ht. cbn. now rewrite Z.eqb_refl.
  - intros t Hin. apply list_elem_of_In in Hin.
    destruct (In_nth (tl tags) t 0 Hin) as (n & Hn & Ht).
    apply length_tl_lt in Hn. rewrite nth_tl_S in Ht.
    apply resident_iff. exists (Z.of_nat (S n)). split; [lia|].
    destruct (after_eviction tag k (Z.of_nat (S n)) Hnew ltac:(lia)) as (Hv & Htag).
    unfold is_hit. rewrite Hv, Htag.
    replace (Z.of_nat (S n) =? 0) with false by (symmetry; apply Z.eqb_neq; lia).
    rewrite Nat2Z.id, Ht, Z.eqb_refl. reflexivity.
  - rewrite cacheHandler_stats, full_evicts_first by assumption. reflexivity.
Qed.

Lemma second_tag_hits :
  2 <= E -> classify g (image m) set (nth 1 tags 0) = Hit 1.
Proof.
  intros HE2. unfold classify.
  rewrite (first_slot_found (is_hit (nth 1 tags 0)) g (image m) set _ 0 1);
    [reflexivity | lia | |].
  - destruct (full_line 1 ltac:(lia)) as (Hv & Ht & _).
    unfold is_hit. rewrite Hv, Ht. change (Z.to_nat 1) with 1%nat.
    now rewrite Z.eqb_refl.
  - intros i Hi. assert (i = 0) by lia. subst i.
    destruct (full_line 0 ltac:(lia)) as (Hv & Ht & _).
    unfold is_hit. rewrite Ht.
    destruct (Z.eqb_spec (nth (Z.to_nat 0) tags 0) (nth 1 tags 0)) as [Heq|];
      [|reflexivity].
    apply (full_tags_distinct 0 1) in Heq; lia.
Qed.

(** The set after a hit on the second tag: tags and valid bits as before,
    the hit line at rank [E]; with three or more lines every other line
    has gone down by one, the first line to rank 0. *)
Lemma after_second_tag_hit k2 j :
  2 <= E -> 0 <= j < E ->
  bValidFlag (line_at (image (cacheHandler g m set (nth 1 tags 0) k2)) (slot g set j))
    = CACHE_VALID_FLAG /\
  iTag (line_at (image (cacheHandler g m set (nth 1 tags 0) k2)) (slot g set j))
    = nth (Z.to_nat j) tags 0 /\
  iRank (line_at (image (cacheHandler g m set (nth 1 tags 0) k2)) (slot g set j))
    = if j =? 1 then E else if E =? 2 then j + 1 else j.
Proof.
  intros HE2 Hj.
  rewrite cacheHandler_image, second_tag_hits by assumption.
  destruct (full_line j Hj) as (Hv & Ht & Hr).
  destruct (full_line 1 ltac:(lia)) as (Hv1 & Ht1 & Hr1).
  assert (Hp := slot_in_range g _ set j Hb Hj).
  rewrite (slot_eq g (image m)) in * by (assumption || lia).
  rewrite hit_slot_line by (assumption || lia).
  rewrite Hr1, Hrank.
  destruct (Z.eqb_spec j 1) as [->|Hne].
  - rewrite Z.eqb_refl. cbn. now rewrite Hrank.
  - replace (set * E + j =? set * E + 1) with false
      by (symmetry; apply Z.eqb_neq; lia).
    change (1 + 1) with 2.
    destruct (Z.eqb_spec 2 E) as [HE'|HE'].
    + replace (E =? 2) with true by (symmetry; apply Z.eqb_eq; lia).
      now repeat split.
    + replace (E =? 2) with false by (symmetry; apply Z.eqb_neq; lia).
      unfold aged. rewrite Hv.
      replace ((set * E <=? set * E + j) && (set * E + j <? set * E + E)
               && negb (set * E + j =? set * E + 1)
               && (CACHE_VALID_FLAG =? CACHE_VALID_FLAG)) with true
        by (symmetry; zbool).
      cbn. rewrite Hv, Ht, Hr. repeat split.
      rewrite wrap32_small; lia.
Qed.

(** A hit on the second tag, then a new tag: the second tag stays. *)
Lemma second_tag_protected tag k k2 :
  2 <= E -> tag ∉ tags ->
  hits (stats (cacheHandler g m set (nth 1 tags 0) k2))
    = wrap64 (hits (stats m) + 1) /\
  resident g
    (image (cacheHandler g (cacheHandler g m set (nth 1 tags 0) k2) set tag k))
    set (nth 1 tags 0) = true.
Proof.
  intros HE2 Hnew.
  split; [rewrite cacheHandler_stats, second_tag_hits by assumption; reflexivity|].
  set (mh := cacheHandler g m set (nth 1 tags 0) k2).
  assert (Hbh : in_bounds g (image mh) set).
  { apply (in_bounds_length g (image m)); [|assumption].
    now apply cacheHandler_length. }
  destruct (after_second_tag_hit k2 1 HE2 ltac:(lia)) as (Hv & Ht & Hr).
  fold mh in Hv, Ht, Hr. cbn in Hr.
  destruct (cacheHandler_keeps_line g mh set tag k 1 Hbh ltac:(lia)) as (Ht' & Hv').
  - rewrite Hv. discriminate.
  - rewrite Hr. unfold EVICTION_RANK_VAL. lia.
  - apply resident_iff. exists 1. split; [lia|].
    unfold is_hit. rewrite Ht', Hv', Ht, Hv. change (Z.to_nat 1) with 1%nat.
    now rewrite Z.eqb_refl.
Qed.

(** With three or more lines per set, that hit leaves the full set
    without a line of rank [EVICTION_RANK_VAL]: the next new tag counts
    as an eviction, replaces nothing and is not resident afterwards. *)
Lemma inner_hit_blocks_eviction tag k k2 :
  3 <= E -> tag ∉ tags ->
  classify g (image (cacheHandler g m set (nth 1 tags 0) k2)) set tag = NoVictim /\
  resident g
    (image (cacheHandler g (cacheHandler g m set (nth 1 tags 0) k2) set tag k))
    set tag = false.
Proof.
  intros HE3 Hnew.
  set (mh := cacheHandler g m set (nth 1 tags 0) k2).
  assert (Hbh : in_bounds g (image mh) set).
  { apply (in_bounds_length g (image m)); [|assumption].
    now apply cacheHandler_length. }
  assert (Hc : classify g (image mh) set tag = NoVictim).
  { unfold classify.
    rewrite first_slot_absent.
    2:{ intros i Hi.
        destruct (after_second_tag_hit k2 i ltac:(lia) ltac:(lia)) as (_ & Ht & _).
        fold mh in Ht. unfold is_hit. rewrite Ht.
        destruct (Z.eqb_spec (nth (Z.to_nat i) tags 0) tag) as [Heq|];
          [|reflexivity].
        destruct Hnew. rewrite <- Heq. apply list_elem_of_In, nth_In. lia. }
    rewrite first_slot_absent.
    2:{ intros i Hi.
        destruct (after_second_tag_hit k2 i ltac:(lia) ltac:(lia)) as (Hv & _).
        fold mh in Hv. unfold is_free. now rewrite Hv. }
    destruct (Z.to_nat E) as [|n] eqn:HEn; [lia|].
    rewrite first_slot_absent; [reflexivity|].
    intros i Hi.
    destruct (after_second_tag_hit k2 i ltac:(lia) ltac:(lia)) as (_ & _ & Hr).
    fold mh in Hr. unfold is_victim. rewrite Hr.
    replace (E =? 2) with false by (symmetry; apply Z.eqb_neq; lia).
    unfold EVICTION_RANK_VAL.
    destruct (Z.eqb_spec i 1); apply Z.eqb_neq; lia. }
  split; [exact Hc|].
  rewrite resident_after_access by assumption. now rewrite Hc.
Qed.

End FullSet.

Lemma empty_populated g c set :
  in_bounds g c set ->
  (forall j, 0 <= j < iCacheLinesPerSet g ->
     bValidFlag (line_at c (slot g set j)) = CACHE_INVALID_FLAG) ->
  populated g c set [].
Proof.
  intros Hb Hempty j Hj. cbn [length].
  destruct (Z.ltb_spec j (Z.of_nat 0)); [lia|].
  rewrite <- (slot_eq g c) by assumption. now apply Hempty.
Qed.

Lemma access_all_populate g set accs : forall m,
  Forall (fun a => addrSVal g (snd a) = set) accs ->
  access_all g accs m
  = populate g set (map (fun a => (fst a, addrTagVal g (snd a))) accs) m.
Proof.
  unfold access_all, populate.
  induction accs as [|a accs IH]; intros m Hall; [reflexivity|].
  apply Forall_cons in Hall as [Ha Hall].
  cbn [fold_left map fst snd].
  rewrite IH by assumption. unfold checkSimulatorCache. now rewrite Ha.
Qed.

(** C3: [E] distinct tags sent to an empty set all miss without evicting
    and end up resident; the set then gives up the first of them when a
    new tag arrives, and keeps all the others; if the second tag is hit
    in between, the new tag does not displace it. *)
Theorem C3_least_recently_used g (m0 : machine) (set : Z)
    (accs : list (Z * Z)) (k addr : Z) :
  1 <= iCacheLinesPerSet g < 2 ^ 32 ->
  iRecentAccessRankValue g = iCacheLinesPerSet g ->
  in_bounds g (image m0) set ->
  (forall j, 0 <= j < iCacheLinesPerSet g ->
     bValidFlag (line_at (image m0) (slot g set j)) = CACHE_INVALID_FLAG) ->
  Z.of_nat (length accs) = iCacheLinesPerSet g ->
  Forall (fun a => addrSVal g (snd a) = set) accs ->
  addrSVal g addr = set ->
  NoDup (addrTagVal g addr :: map (fun a => addrTagVal g (snd a)) accs) ->
  let tags := map (fun a => addrTagVal g (snd a)) accs in
  let m := access_all g accs m0 in
  hits (stats m) = hits (stats m0) /\
  evictions (stats m) = evictions (stats m0) /\
  (forall t, t ∈ tags -> resident g (image m) set t = true) /\
  resident g (image (checkSimulatorCache g m k addr)) set (nth 0 tags 0) = false /\
  resident g (image (checkSimulatorCache g m k addr)) set (addrTagVal g addr) = true /\
  (forall t, t ∈ tl tags ->
     resident g (image (checkSimulatorCache g m k addr)) set t = true) /\
  evictions (stats (checkSimulatorCache g m k addr))
    = wrap64 (evictions (stats m) + 1) /\
  (2 <= iCacheLinesPerSet g ->
   forall k2 addr2,
     addrSVal g addr2 = set -> addrTagVal g addr2 = nth 1 tags 0 ->
     hits (stats (checkSimulatorCache g m k2 addr2)) = wrap64 (hits (stats m) + 1) /\
     resident g
       (image (checkSimulatorCache g (checkSimulatorCache g m k2 addr2) k addr))
       set (nth 1 tags 0) = true).
Proof.
  intros HE Hrank Hb Hempty Hlen Hsame Haddr Hnd tags m.
  apply NoDup_cons in Hnd as [Hnew Hnd]. fold tags in Hnew, Hnd.
  assert (Htags : map snd (map (fun a => (fst a, addrTagVal g (snd a))) accs) = tags).
  { unfold tags. rewrite map_map. reflexivity. }
  destruct (populate_populated g set HE Hrank
              (map (fun a => (fst a, addrTagVal g (snd a))) accs) m0 [])
    as (Hbm & Hpop & Hhits & Hevs).
  - assumption.
  - now apply empty_populated.
  - cbn [app]. now rewrite Htags.
  - cbn [length]. rewrite length_map. lia.
  - cbn [app] in Hpop. rewrite Htags in Hpop.
    rewrite <- (access_all_populate g set accs m0 Hsame) in Hbm, Hpop, Hhits, Hevs.
    fold m in Hbm, Hpop, Hhits, Hevs.
    assert (Hfull : Z.of_nat (length tags) = iCacheLinesPerSet g)
      by (unfold tags; rewrite length_map; assumption).
    split; [assumption|]. split; [assumption|].
    split; [intros t Ht; now apply (full_resident g set m tags)|].
    unfold checkSimulatorCache. rewrite Haddr.
    destruct (first_tag_evicted g set m tags HE Hbm Hpop Hfull Hnd
                (addrTagVal g addr) k Hnew) as (H1 & H2 & H3 & H4).
    repeat (split; [assumption|]).
    intros HE2 k2 addr2 Hset2 Htag2. rewrite Hset2, Htag2.
    now apply (second_tag_protected g set m tags).
Qed.

Lemma C3_least_recently_used_witness :
  let g := geometry 0 3 0 false in
  let m := access_all g [(0, 10); (1, 20); (0, 30)] (mkMachine (calloc 3) zeroStats []) in
  resident g (image (checkSimulatorCache g m 0 40)) 0 10 = false /\
  resident g (image (checkSimulatorCache g m 0 40)) 0 40 = true /\
  resident g (image (checkSimulatorCache g (checkSimulatorCache g m 0 20) 0 40)) 0 20
    = true.
Proof.
  intros g m.
  destruct (C3_least_recently_used g (mkMachine (calloc 3) zeroStats []) 0
              [(0, 10); (1, 20); (0, 30)] 0 40)
    as (_ & _ & _ & H1 & H2 & _ & _ & H3).
  - vm_compute. split; [discriminate | reflexivity].
  - reflexivity.
  - by_compute.
  - intros j Hj. cbn [image]. now rewrite line_at_calloc.
  - reflexivity.
  - repeat constructor.
  - reflexivity.
  - apply (bool_decide_unpack _). vm_compute. exact I.
  - split; [exact H1|]. split; [exact H2|].
    apply (H3 ltac:(vm_compute; discriminate) 0 20); reflexivity.
Defined.

(** ** Scenarios *)

(** The three end-to-end runs the spec lists. *)
Example two_sets_one_line :
  main [OptS 1; OptE 1; OptB 0; OptT (Some [load 0; load 1; load 0])] true
  = (0, [EvCalloc 2; EvSummary (mkStats 1 2 0 0 0)]).
Proof. vm_compute. reflexivity. Qed.

Example one_line_eviction :
  main [OptS 0; OptE 1; OptB 0; OptT (Some [load 0; load 8])] true
  = (0, [EvCalloc 1; EvSummary (mkStats 0 2 1 0 0)]).
Proof. vm_compute. reflexivity. Qed.

Example dirty_eviction :
  main [OptS 0; OptE 1; OptB 4; OptT (Some [store 0; load 16])] true
  = (0, [EvCalloc 1; EvSummary (mkStats 0 2 1 0 16)]).
Proof. vm_compute. reflexivity. Qed.

(** C1, at the input where the code departs from it (three lines per set,
    trace [L 0 / L 1 / L 2 / L 1 / L 3]): the last access misses on a full
    set in which the hit on tag 1 has left the ranks 0, 3, 2, so that no
    line has rank [EVICTION_RANK_VAL]; an eviction is counted, the array
    stays as it was, and tag 3 is not resident afterwards. *)
Theorem C1_miss_without_replacement :
  let g := geometry 0 3 0 false in
  let m := simulate g [load 0; load 1; load 2; load 1] [] in
  resident g (image m) (addrSVal g 3) (addrTagVal g 3) = false /\
  classify g (image m) (addrSVal g 3) (addrTagVal g 3) = NoVictim /\
  image (checkSimulatorCache g m 0 3) = image m /\
  resident g (image (checkSimulatorCache g m 0 3)) (addrSVal g 3) (addrTagVal g 3)
    = false /\
  stats (checkSimulatorCache g m 0 3) = mkStats 1 4 1 0 0 /\
  main [OptS 0; OptE 3; OptB 0;
        OptT (Some [load 0; load 1; load 2; load 1; load 3])] true
  = (0, [EvCalloc 3; EvSummary (mkStats 1 4 1 0 0)]).
Proof. vm_compute. repeat split; reflexivity. Qed.

(** C2, at the input where the code departs from it (three lines per set,
    trace [L 0 / L 1 / L 2 / L 1]): the hit on the line of rank 2 lowers
    both other lines, leaving the three valid lines with ranks 0, 3, 2. *)
Theorem C2_ranks_after_inner_hit :
  let g := geometry 0 3 0 false in
  let m := simulate g [load 0; load 1; load 2; load 1] [] in
  valid_ranks g (image (simulate g [load 0; load 1; load 2] [])) 0 = [1; 2; 3] /\
  valid_ranks g (image m) 0 = [0; 3; 2] /\
  rank_total g (image m) 0 = false.
Proof. vm_compute. repeat split; reflexivity. Qed.

(** * Further properties of the simulator *)

(** ** Where an access writes *)

(** The line at flat index [q] after a lookup, by how the lookup resolved. *)
Lemma cacheHandler_line g m set tag k q :
  in_bounds g (image m) set -> 0 <= q ->
  line_at (image (cacheHandler g m set tag k)) q =
  match classify g (image m) set tag with
  | Hit j =>
      if q =? set * iCacheLinesPerSet g + j
      then touched_line g k (line_at (image m) (set * iCacheLinesPerSet g + j))
      else if iRank (line_at (image m) (set * iCacheLinesPerSet g + j))
              =? iRecentAccessRankValue g
           then line_at (image m) q
           else aged g (image m) set j q
  | Fill j =>
      if q =? set * iCacheLinesPerSet g + j
      then filled_line g tag k (line_at (image m) (set * iCacheLinesPerSet g + j))
      else aged g (image m) set j q
  | Evict j =>
      if q =? set * iCacheLinesPerSet g + j
      then evicted_line g tag k (line_at (image m) (set * iCacheLinesPerSet g + j))
      else aged g (image m) set j q
  | NoVictim | NoLines => line_at (image m) q
  end.
Proof.
  intros Hb Hq. rewrite cacheHandler_image.
  destruct (classify g (image m) set tag) as [j|j|j| |] eqn:Hc;
    try reflexivity.
  - apply classify_Hit in Hc as [Hj _]. now apply hit_slot_line.
  - apply classify_Fill in Hc as [Hj _]. now apply fill_slot_line.
  - apply classify_Evict in Hc as [Hj _]. now apply evict_slot_line.
Qed.

Lemma classify_slot_range g c set tag j :
  classify g c set tag = Hit j \/ classify g c set tag = Fill j \/
  classify g c set tag = Evict j ->
  0 <= j < iCacheLinesPerSet g.
Proof.
  intros [H|[H|H]].
  - now apply classify_Hit in H.
  - now apply classify_Fill in H.
  - now apply classify_Evict in H.
Qed.

Lemma aged_other_set g c set r q :
  q < set * iCacheLinesPerSet g \/
  set * iCacheLinesPerSet g + iCacheLinesPerSet g <= q ->
  aged g c set r q = line_at c q.
Proof. intros H. unfold aged. zbool. Qed.

(** X1: a lookup leaves the array at its length and writes only inside the
    addressed set: every line of any other set keeps all five fields. *)
Theorem X1_other_sets_untouched g m memAccessType memAddr set' j :
  in_bounds g (image m) (addrSVal g memAddr) ->
  in_bounds g (image m) set' ->
  set' <> addrSVal g memAddr ->
  0 <= j < iCacheLinesPerSet g ->
  length (image (checkSimulatorCache g m memAccessType memAddr))
    = length (image m) /\
  line_at (image (checkSimulatorCache g m memAccessType memAddr)) (slot g set' j)
    = line_at (image m) (slot g set' j).
Proof.
  intros Hb Hb' Hne Hj. unfold checkSimulatorCache.
  split; [now apply cacheHandler_length|].
  rewrite (slot_eq g (image m) set') by assumption.
  set (S0 := addrSVal g memAddr) in *.
  assert (Hout : set' * iCacheLinesPerSet g + j < S0 * iCacheLinesPerSet g \/
                 S0 * iCacheLinesPerSet g + iCacheLinesPerSet g
                   <= set' * iCacheLinesPerSet g + j) by nia.
  assert (Hq : 0 <= set' * iCacheLinesPerSet g + j)
    by (destruct Hb' as (? & ? & _); nia).
  rewrite cacheHandler_line by assumption.
  destruct (classify g (image m) S0 (addrTagVal g memAddr)) as [i|i|i| |] eqn:Hc;
    try reflexivity;
    assert (Hi : 0 <= i < iCacheLinesPerSet g)
      by (apply (classify_slot_range g (image m) S0 (addrTagVal g memAddr)); tauto);
    (replace (set' * iCacheLinesPerSet g + j =? S0 * iCacheLinesPerSet g + i)
       with false by (symmetry; apply Z.eqb_neq; lia));
    rewrite ?aged_other_set by assumption;
    try reflexivity.
  now destruct (_ =? _).
Qed.

Lemma X1_other_sets_untouched_witness :
  let g := geometry 1 2 0 false in
  let m := simulate g [store 0; load 2] [] in
  line_at (image (checkSimulatorCache g m 1 1)) (slot g 0 1)
    = line_at (image m) (slot g 0 1).
Proof.
  intros g m.
  apply (X1_other_sets_untouched g m 1 1 0 1); by_compute.
Defined.

(** ** The counters *)

Lemma checkSimulatorCache_counts g m k addr :
  0 <= hits (stats m) -> 0 <= evictions (stats m) <= misses (stats m) ->
  hits (stats m) + misses (stats m) + 1 < 2 ^ 64 ->
  0 <= hits (stats (checkSimulatorCache g m k addr)) /\
  0 <= evictions (stats (checkSimulatorCache g m k addr))
    <= misses (stats (checkSimulatorCache g m k addr)) /\
  hits (stats (checkSimulatorCache g m k addr))
  + misses (stats (checkSimulatorCache g m k addr))
  = hits (stats m) + misses (stats m) + 1.
Proof.
  intros Hh He Hsum. unfold checkSimulatorCache. rewrite cacheHandler_stats.
  destruct (classify g (image m) _ _); cbn;
    rewrite ?wrap64_small by lia; lia.
Qed.

Lemma replay_counts g trace : forall acc,
  0 <= hits (stats (snd acc)) ->
  0 <= evictions (stats (snd acc)) <= misses (stats (snd acc)) ->
  hits (stats (snd acc)) + misses (stats (snd acc)) + Z.of_nat (length trace)
    < 2 ^ 64 ->
  0 <= hits (stats (snd (replay g trace acc))) /\
  0 <= evictions (stats (snd (replay g trace acc)))
    <= misses (stats (snd (replay g trace acc))) /\
  hits (stats (snd (replay g trace acc)))
  + misses (stats (snd (replay g trace acc)))
  = hits (stats (snd acc)) + misses (stats (snd acc)) + Z.of_nat (length trace).
Proof.
  unfold replay.
  induction trace as [|r trace IH]; intros acc Hh He Hsum.
  - cbn. repeat split; lia.
  - cbn [fold_left]. cbn [length] in Hsum.
    destruct acc as [flag m]. cbn [trace_step snd] in *.
    set (flag' := if Ascii.eqb (rec_op r) "L" then 0
                  else if Ascii.eqb (rec_op r) "S" then 1 else flag).
    destruct (checkSimulatorCache_counts g (verbose g (EvRecord r) m) flag'
                (rec_addr r)) as (H1 & H2 & H3);
      rewrite ?stats_verbose; try lia.
    rewrite stats_verbose in H3.
    destruct (IH (flag', verbose g EvNewline
                           (checkSimulatorCache g (verbose g (EvRecord r) m)
                              flag' (rec_addr r)))) as (H4 & H5 & H6);
      cbn [snd]; rewrite ?stats_verbose; try lia.
    cbn [snd] in H6. rewrite stats_verbose in H6. subst flag'.
    cbn [length]. repeat split; lia.
Qed.

(** X2: over a whole run every record counts as exactly one hit or one
    miss, and evictions never outnumber misses. *)
Theorem X2_every_record_counted g (trace : list trace_record) (log : list event) :
  Z.of_nat (length trace) < 2 ^ 64 ->
  hits (stats (simulate g trace log)) + misses (stats (simulate g trace log))
    = Z.of_nat (length trace) /\
  0 <= hits (stats (simulate g trace log)) /\
  0 <= evictions (stats (simulate g trace log))
    <= misses (stats (simulate g trace log)).
Proof.
  intros Hlen. unfold simulate.
  destruct (replay_counts g trace
              (0, mkMachine (calloc (wrap32 (iSetCount g * iCacheLinesPerSet g)))
                            zeroStats log)) as (H1 & H2 & H3);
    cbn [snd stats zeroStats hits misses evictions]; try lia.
  cbn [snd stats zeroStats hits misses] in H3. repeat split; lia.
Qed.

Lemma X2_every_record_counted_witness :
  let g := geometry 0 3 0 false in
  hits (stats (simulate g [load 0; load 1; load 2; load 1; load 3] []))
  + misses (stats (simulate g [load 0; load 1; load 2; load 1; load 3] []))
  = 5.
Proof.
  intros g.
  apply (X2_every_record_counted g [load 0; load 1; load 2; load 1; load 3] []).
  cbn. lia.
Defined.

(** ** Array bounds *)

(** X3: on a valid geometry the array keeps the size [2^s * E] through
    any trace, and every index [set * E + j] the lookup of any address can
    form lies inside it. *)
Theorem X3_indices_in_bounds (s E b : Z) (v : bool)
    (trace : list trace_record) (log : list event) (memAddr j : Z) :
  valid_geometry s E b ->
  0 <= j < E ->
  Z.of_nat (length (image (simulate (geometry s E b v) trace log))) = 2 ^ s * E /\
  0 <= slot (geometry s E b v) (addrSVal (geometry s E b v) memAddr) j
    < Z.of_nat (length (image (simulate (geometry s E b v) trace log))).
Proof.
  intros Hgeo Hj.
  destruct (run_invariant_simulate s E b v Hgeo trace log) as (Hwf & _).
  destruct (geometry_fields s E b v Hgeo) as (_ & HS & HE & _).
  split.
  - destruct Hwf as (_ & _ & Hlen & _). now rewrite Hlen, HS, HE.
  - apply slot_in_range; [|now rewrite HE].
    apply well_formed_in_bounds; [assumption|].
    now apply geometry_set_index.
Qed.

Lemma X3_indices_in_bounds_witness :
  0 <= slot (geometry 2 2 4 false) (addrSVal (geometry 2 2 4 false) 255) 1
    < Z.of_nat (length (image (simulate (geometry 2 2 4 false)
                                 [load 0; store 255; load 64] []))).
Proof.
  apply (X3_indices_in_bounds 2 2 4 false [load 0; store 255; load 64] [] 255 1).
  - unfold valid_geometry. lia.
  - lia.
Defined.

(** ** Blocks, sets and tags *)

Lemma block_split x s :
  0 <= s -> x = 2 ^ s * Z.shiftr x s + Z.land x (2 ^ s - 1).
Proof.
  intros Hs. rewrite Z.shiftr_div_pow2 by assumption.
  rewrite Z.sub_1_r, <- Z.ones_equiv, Z.land_ones by assumption.
  apply Z.div_mod. apply Z.pow_nonzero; lia.
Qed.

Lemma geometry_decomposition (s E b : Z) (v : bool) (a : Z) :
  0 <= s -> 0 <= b -> s + b <= 64 -> 0 <= a < 2 ^ 64 ->
  addrSVal (geometry s E b v) a = Z.land (Z.shiftr a b) (2 ^ s - 1) /\
  addrTagVal (geometry s E b v) a = Z.shiftr a (b + s).
Proof.
  intros Hs Hb Hsb Ha.
  assert (Es : iSetBitCount (geometry s E b v) = s)
    by (unfold geometry, to_unsigned; cbn; apply wrap32_small; lia).
  assert (Eb : iBlockBitCount (geometry s E b v) = b)
    by (unfold geometry, to_unsigned; cbn; apply wrap32_small; lia).
  assert (H1 := addrSVal_spec (geometry s E b v) a).
  assert (H2 := addrTagVal_spec (geometry s E b v) a).
  rewrite Es, Eb in H1, H2.
  split; [apply H1 | apply H2]; lia.
Qed.

(** X5: two addresses get the same set index and the same tag exactly
    when they lie in the same block, that is, agree above the [b] offset
    bits. *)
Theorem X5_same_block_same_line (s E b : Z) (v : bool) (a a' : Z) :
  0 <= s -> 0 <= b -> s + b <= 64 ->
  0 <= a < 2 ^ 64 -> 0 <= a' < 2 ^ 64 ->
  (addrSVal (geometry s E b v) a = addrSVal (geometry s E b v) a' /\
   addrTagVal (geometry s E b v) a = addrTagVal (geometry s E b v) a')
  <-> Z.shiftr a b = Z.shiftr a' b.
Proof.
  intros Hs Hb Hsb Ha Ha'.
  destruct (geometry_decomposition s E b v a Hs Hb Hsb Ha) as (-> & ->).
  destruct (geometry_decomposition s E b v a' Hs Hb Hsb Ha') as (-> & ->).
  rewrite <- !(Z.shiftr_shiftr _ b s) by assumption.
  split.
  - intros [Hset Htag].
    rewrite (block_split (Z.shiftr a b) s), (block_split (Z.shiftr a' b) s)
      by assumption.
    now rewrite Hset, Htag.
  - intros ->. split; reflexivity.
Qed.

Lemma X5_same_block_same_line_witness :
  addrSVal (geometry 4 2 5 false) 48879 = addrSVal (geometry 4 2 5 false) 48864 /\
  addrTagVal (geometry 4 2 5 false) 48879 = addrTagVal (geometry 4 2 5 false) 48864.
Proof.
  apply (X5_same_block_same_line 4 2 5 false 48879 48864); try lia.
  reflexivity.
Defined.

(** ** Accessing a block again *)

Lemma is_hit_ext tag l l' :
  iTag l' = iTag l -> bValidFlag l' = bValidFlag l ->
  is_hit tag l' = is_hit tag l.
Proof. unfold is_hit. now intros -> ->. Qed.

Lemma classify_Hit_first g c set tag j :
  classify g c set tag = Hit j ->
  forall i, 0 <= i < j -> is_hit tag (line_at c (slot g set i)) = false.
Proof.
  unfold classify.
  destruct (first_slot (is_hit tag) g c set _ 0) as [j'|] eqn:Hh.
  - intros [= <-]. apply first_slot_Some in Hh as (_ & _ & H3).
    intros i Hi. apply H3. lia.
  - destruct (first_slot is_free g c set _ 0); [discriminate|].
    destruct (Z.to_nat (iCacheLinesPerSet g)); [discriminate|].
    destruct (first_slot is_victim g c set _ 0); discriminate.
Qed.

(** Once an access has put or found its tag in slot [j], the same tag
    hits in slot [j], and that line carries the top rank. *)
Lemma resolved_then_hit g m set tag k j :
  in_bounds g (image m) set ->
  classify g (image m) set tag = Hit j \/
  classify g (image m) set tag = Fill j \/
  classify g (image m) set tag = Evict j ->
  classify g (image (cacheHandler g m set tag k)) set tag = Hit j /\
  iRank (line_at (image (cacheHandler g m set tag k)) (slot g set j))
    = iRecentAccessRankValue g.
Proof.
  intros Hb Hc.
  pose proof (classify_slot_range g _ set tag j Hc) as Hj.
  assert (Hp := slot_in_range g _ set j Hb Hj).
  assert (Hbefore : forall i, 0 <= i < j ->
            is_hit tag (line_at (image m) (slot g set i)) = false).
  { destruct Hc as [Hc|[Hc|Hc]].
    - now apply classify_Hit_first.
    - intros i Hi. apply classify_miss; [|lia]. intros j'. rewrite Hc. discriminate.
    - intros i Hi. apply classify_miss; [|lia]. intros j'. rewrite Hc. discriminate. }
  assert (Hother : forall i, 0 <= i < iCacheLinesPerSet g -> i <> j ->
            is_hit tag (line_at (image (cacheHandler g m set tag k)) (slot g set i))
            = is_hit tag (line_at (image m) (slot g set i))).
  { intros i Hi Hij.
    assert (Hq := slot_in_range g _ set i Hb Hi).
    rewrite (slot_eq g (image m) set i) in * by assumption.
    rewrite cacheHandler_line by (assumption || lia).
    pose proof (aged_fields g (image m) set j (set * iCacheLinesPerSet g + i))
      as (Ht & Hv & _).
    destruct Hc as [Hc|[Hc|Hc]]; rewrite Hc;
      (replace (set * iCacheLinesPerSet g + i =? set * iCacheLinesPerSet g + j)
         with false by (symmetry; apply Z.eqb_neq; lia));
      try (now apply is_hit_ext).
    destruct (_ =? iRecentAccessRankValue g); [reflexivity|].
    now apply is_hit_ext. }
  assert (Hself : is_hit tag (line_at (image (cacheHandler g m set tag k)) (slot g set j))
                  = true /\
                  iRank (line_at (image (cacheHandler g m set tag k)) (slot g set j))
                  = iRecentAccessRankValue g).
  { rewrite (slot_eq g (image m) set j) in * by assumption.
    rewrite cacheHandler_line by (assumption || lia).
    destruct Hc as [Hc|[Hc|Hc]]; rewrite Hc, Z.eqb_refl.
    - apply classify_Hit in Hc as [_ Hh].
      rewrite (slot_eq g (image m)) in Hh by assumption.
      split; [|reflexivity]. rewrite <- Hh. now apply is_hit_ext.
    - split; [|reflexivity]. unfold is_hit. cbn. now rewrite Z.eqb_refl.
    - apply classify_Evict in Hc as (_ & _ & _ & Hfull).
      specialize (Hfull j Hj).
      rewrite (slot_eq g (image m)) in Hfull by assumption.
      split; [|reflexivity]. unfold is_hit. cbn. rewrite Z.eqb_refl.
      unfold is_free in Hfull. now rewrite Hfull. }
  split; [|apply Hself].
  unfold classify.
  rewrite (first_slot_found (is_hit tag) g _ set _ 0 j);
    [reflexivity | lia | apply Hself |].
  intros i Hi. rewrite Hother by lia. apply Hbefore. lia.
Qed.

(** X4: when an access has left its tag resident, a load of any address
    with the same set index and tag is a hit that changes nothing in the
    array and no counter but [hits]. *)
Theorem X4_reload_is_idle_hit g m k a a' :
  in_bounds g (image m) (addrSVal g a) ->
  addrSVal g a' = addrSVal g a -> addrTagVal g a' = addrTagVal g a ->
  resident g (image (checkSimulatorCache g m k a)) (addrSVal g a) (addrTagVal g a)
    = true ->
  image (checkSimulatorCache g (checkSimulatorCache g m k a) 0 a')
    = image (checkSimulatorCache g m k a) /\
  stats (checkSimulatorCache g (checkSimulatorCache g m k a) 0 a')
    = incr_hits (stats (checkSimulatorCache g m k a)).
Proof.
  unfold checkSimulatorCache. intros Hb -> -> Hres.
  set (S0 := addrSVal g a) in *. set (T0 := addrTagVal g a) in *.
  rewrite resident_after_access in Hres by assumption.
  assert (Hc : exists j, classify g (image m) S0 T0 = Hit j \/
                         classify g (image m) S0 T0 = Fill j \/
                         classify g (image m) S0 T0 = Evict j).
  { destruct (classify g (image m) S0 T0) as [j|j|j| |];
      try discriminate; exists j; tauto. }
  destruct Hc as [j Hc].
  destruct (resolved_then_hit g m S0 T0 k j Hb Hc) as [Hhit Hrank].
  rewrite cacheHandler_image, cacheHandler_stats, Hhit.
  split; [|reflexivity].
  unfold hit_slot. rewrite Hrank, Z.eqb_refl. reflexivity.
Qed.

Lemma X4_reload_is_idle_hit_witness :
  let g := geometry 1 2 2 false in
  let m := simulate g [load 0; store 8] [] in
  image (checkSimulatorCache g (checkSimulatorCache g m 1 16) 0 19)
    = image (checkSimulatorCache g m 1 16).
Proof.
  intros g m.
  apply (X4_reload_is_idle_hit g m 1 16 19); by_compute.
Defined.

(** ** Traces without stores *)

Lemma all_clean_step g m set tag :
  in_bounds g (image m) set ->
  all_clean (image m) ->
  all_clean (image (cacheHandler g m set tag 0)).
Proof.
  intros Hb Hclean q Hq. rewrite cacheHandler_line by assumption.
  destruct (Hclean q Hq) as [Hd He].
  pose proof (aged_fields g (image m) set) as Haged.
  destruct (classify g (image m) set tag) as [j|j|j| |] eqn:Hc;
    try (now split);
    assert (Hj : 0 <= j < iCacheLinesPerSet g)
      by (apply (classify_slot_range g (image m) set tag); tauto);
    assert (Hp := slot_in_range g _ set j Hb Hj);
    rewrite (slot_eq g (image m)) in Hp by assumption;
    destruct (Hclean _ (proj1 Hp)) as [Hdp Hep];
    destruct (Haged j q) as (_ & _ & Had & Hae);
    (destruct (Z.eqb_spec q (set * iCacheLinesPerSet g + j)) as [->|Hne];
     [cbn; rewrite ?Hdp, ?Hep; now split|]);
    try (rewrite Had, Hae; now split).
  destruct (_ =? iRecentAccessRankValue g); [now split|].
  rewrite Had, Hae. now split.
Qed.

Lemma all_clean_totals c :
  all_clean c -> count_valid_dirty c = 0 /\ sum_dirty_evictions c = 0.
Proof.
  intros Hclean.
  assert (Hall : Forall (fun l => bDirtyFlag l = 0 /\ dirtyEvictionCount l = 0) c).
  { apply Forall_forall. intros l Hin. apply list_elem_of_In in Hin.
    destruct (In_nth c l zeroLine Hin) as (n & Hn & <-).
    specialize (Hclean (Z.of_nat n) ltac:(lia)).
    unfold line_at in Hclean. now rewrite Nat2Z.id in Hclean. }
  clear Hclean. unfold count_valid_dirty, sum_dirty_evictions.
  induction Hall as [|l c [Hd He] Hall IH]; [split; reflexivity|].
  cbn [List.filter map fold_right]. unfold valid_and_dirty at 1.
  rewrite Hd, He. cbn [Z.eqb andb]. rewrite andb_false_r.
  destruct IH as [IH1 IH2]. split; [exact IH1 | lia].
Qed.

Lemma replay_without_stores s E b v (trace : list trace_record) :
  valid_geometry s E b ->
  Forall (fun r => rec_op r <> "S"%char) trace ->
  forall m,
    run_invariant (geometry s E b v) (image m) -> all_clean (image m) ->
    fst (replay (geometry s E b v) trace (0, m)) = 0 /\
    run_invariant (geometry s E b v)
      (image (snd (replay (geometry s E b v) trace (0, m)))) /\
    all_clean (image (snd (replay (geometry s E b v) trace (0, m)))).
Proof.
  intros Hgeo Hloads. unfold replay.
  induction Hloads as [|r trace Hr Hloads IH]; intros m Hinv Hclean;
    [split; [reflexivity | split; assumption]|].
  cbn [fold_left trace_step].
  apply Ascii.eqb_neq in Hr. rewrite Hr.
  replace (if Ascii.eqb (rec_op r) "L" then 0 else 0) with 0
    by now destruct (Ascii.eqb (rec_op r) "L").
  apply IH; rewrite image_verbose.
  - apply run_invariant_step; [assumption|]. now rewrite image_verbose.
  - unfold checkSimulatorCache. apply all_clean_step; rewrite image_verbose.
    + apply well_formed_in_bounds; [apply Hinv|].
      now apply geometry_set_index.
    + assumption.
Qed.

(** X6: a trace without any ['S'] record ends with no dirty bytes and no
    dirty evictions in the summary. *)
Theorem X6_no_store_no_dirt (s E b : Z) (v : bool)
    (trace : list trace_record) (log : list event) :
  valid_geometry s E b ->
  Forall (fun r => rec_op r <> "S"%char) trace ->
  dirty_bytes (summarize (geometry s E b v) (simulate (geometry s E b v) trace log))
    = 0 /\
  dirty_evictions (summarize (geometry s E b v) (simulate (geometry s E b v) trace log))
    = 0.
Proof.
  intros Hgeo Hloads. unfold simulate.
  destruct (replay_without_stores s E b v trace Hgeo Hloads
              (mkMachine (calloc (wrap32 (iSetCount (geometry s E b v)
                                          * iCacheLinesPerSet (geometry s E b v))))
                         zeroStats log))
    as (_ & (Hwf & _ & Hdv) & Hclean).
  - now apply run_invariant_calloc.
  - intros q _. cbn [image]. now rewrite line_at_calloc.
  - destruct (summarize_totals _ _ Hwf Hdv) as (-> & -> & _).
    destruct (all_clean_totals _ Hclean) as [-> ->]. split; reflexivity.
Qed.

Lemma X6_no_store_no_dirt_witness :
  dirty_evictions (summarize (geometry 0 1 4 false)
                     (simulate (geometry 0 1 4 false)
                        [load 0; mkRecord "M" 16 1; load 32] []))
  = 0.
Proof.
  apply (X6_no_store_no_dirt 0 1 4 false [load 0; mkRecord "M" 16 1; load 32] []).
  - unfold valid_geometry. lia.
  - repeat constructor; discriminate.
Defined.

(** ** Verbose mode *)

Lemma first_slot_quiet test g c set fuel : forall j,
  first_slot test (quiet g) c set fuel j = first_slot test g c set fuel j.
Proof.
  induction fuel as [|fuel IH]; intros j; [reflexivity|].
  cbn [first_slot]. rewrite IH. reflexivity.
Qed.

Lemma rank_loop_quiet g set r fuel : forall i c,
  rank_loop (quiet g) set r fuel i c = rank_loop g set r fuel i c.
Proof.
  induction fuel as [|fuel IH]; intros i c; [reflexivity|].
  cbn [rank_loop]. rewrite IH. reflexivity.
Qed.

Lemma classify_quiet g c set tag :
  classify (quiet g) c set tag = classify g c set tag.
Proof. unfold classify. rewrite !first_slot_quiet. reflexivity. Qed.

Lemma cacheHandler_quiet g m m' set tag k :
  image m' = image m -> stats m' = stats m ->
  image (cacheHandler (quiet g) m' set tag k) = image (cacheHandler g m set tag k) /\
  stats (cacheHandler (quiet g) m' set tag k) = stats (cacheHandler g m set tag k).
Proof.
  intros Hi Hs.
  rewrite !cacheHandler_image, !cacheHandler_stats, classify_quiet, Hi, Hs.
  split; [|reflexivity].
  destruct (classify g (image m) set tag); try reflexivity.
  - unfold hit_slot, cacheLineRankUpdate. now rewrite rank_loop_quiet.
  - unfold fill_slot, cacheLineRankUpdate. now rewrite rank_loop_quiet.
  - unfold evict_slot, cacheLineRankUpdate. now rewrite rank_loop_quiet.
Qed.

Lemma replay_quiet g trace : forall flag m m',
  image m' = image m -> stats m' = stats m ->
  fst (replay (quiet g) trace (flag, m')) = fst (replay g trace (flag, m)) /\
  image (snd (replay (quiet g) trace (flag, m')))
    = image (snd (replay g trace (flag, m))) /\
  stats (snd (replay (quiet g) trace (flag, m')))
    = stats (snd (replay g trace (flag, m))).
Proof.
  unfold replay.
  induction trace as [|r trace IH]; intros flag m m' Hi Hs;
    [now repeat split|].
  cbn [fold_left trace_step].
  set (flag' := if Ascii.eqb (rec_op r) "L" then 0
                else if Ascii.eqb (rec_op r) "S" then 1 else flag).
  destruct (cacheHandler_quiet g (verbose g (EvRecord r) m)
              (verbose (quiet g) (EvRecord r) m')
              (addrSVal g (rec_addr r)) (addrTagVal g (rec_addr r)) flag')
    as [Hi' Hs']; [now rewrite !image_verbose | now rewrite !stats_verbose |].
  apply IH; rewrite ?image_verbose, ?stats_verbose; assumption.
Qed.

Lemma summary_inner_quiet g c i fuel : forall j acc,
  summary_inner (quiet g) c i fuel j acc = summary_inner g c i fuel j acc.
Proof.
  induction fuel as [|fuel IH]; intros j acc; [reflexivity|].
  cbn [summary_inner]. rewrite IH. reflexivity.
Qed.

Lemma summary_outer_quiet g c fuel : forall i acc,
  summary_outer (quiet g) c fuel i acc = summary_outer g c fuel i acc.
Proof.
  induction fuel as [|fuel IH]; intros i acc; [reflexivity|].
  cbn [summary_outer]. rewrite IH, summary_inner_quiet. reflexivity.
Qed.

(** X7: [-v] changes what is printed along the way and nothing else: the
    array and all five numbers of the summary are the same with and
    without it. *)
Theorem X7_verbose_same_summary (s E b : Z)
    (trace : list trace_record) (log log' : list event) :
  image (simulate (geometry s E b true) trace log)
    = image (simulate (geometry s E b false) trace log') /\
  summarize (geometry s E b true) (simulate (geometry s E b true) trace log)
    = summarize (geometry s E b false) (simulate (geometry s E b false) trace log').
Proof.
  change (geometry s E b false) with (quiet (geometry s E b true)).
  set (g := geometry s E b true).
  unfold simulate.
  change (iSetCount (quiet g) * iCacheLinesPerSet (quiet g))
    with (iSetCount g * iCacheLinesPerSet g).
  set (c0 := calloc (wrap32 (iSetCount g * iCacheLinesPerSet g))).
  destruct (replay_quiet g trace 0 (mkMachine c0 zeroStats log)
              (mkMachine c0 zeroStats log') eq_refl eq_refl) as (_ & Hi & Hs).
  split; [now rewrite Hi|].
  unfold summarize. rewrite summary_outer_quiet, Hi, Hs. reflexivity.
Qed.

(** ** Filling a free slot *)

(** X8: a miss on a set with a free slot takes the lowest-indexed free
    slot: that line becomes valid with the new tag, the top rank and the
    dirty bit of a store; its dirty-eviction count and every other line's
    tag, valid bit, dirty bit and count stay; a miss is counted and no
    eviction. *)
Theorem X8_miss_fills_first_free_slot g m set tag k j :
  in_bounds g (image m) set ->
  0 <= j < iCacheLinesPerSet g ->
  resident g (image m) set tag = false ->
  bValidFlag (line_at (image m) (slot g set j)) = CACHE_INVALID_FLAG ->
  (forall i, 0 <= i < j ->
     bValidFlag (line_at (image m) (slot g set i)) <> CACHE_INVALID_FLAG) ->
  line_at (image (cacheHandler g m set tag k)) (slot g set j)
    = mkLine tag (if k =? 1 then 1 else 0) CACHE_VALID_FLAG
             (iRecentAccessRankValue g)
             (dirtyEvictionCount (line_at (image m) (slot g set j))) /\
  (forall i, 0 <= i < iCacheLinesPerSet g -> i <> j ->
     iTag (line_at (image (cacheHandler g m set tag k)) (slot g set i))
       = iTag (line_at (image m) (slot g set i)) /\
     bValidFlag (line_at (image (cacheHandler g m set tag k)) (slot g set i))
       = bValidFlag (line_at (image m) (slot g set i)) /\
     bDirtyFlag (line_at (image (cacheHandler g m set tag k)) (slot g set i))
       = bDirtyFlag (line_at (image m) (slot g set i)) /\
     dirtyEvictionCount (line_at (image (cacheHandler g m set tag k)) (slot g set i))
       = dirtyEvictionCount (line_at (image m) (slot g set i))) /\
  misses (stats (cacheHandler g m set tag k)) = wrap64 (misses (stats m) + 1) /\
  evictions (stats (cacheHandler g m set tag k)) = evictions (stats m) /\
  hits (stats (cacheHandler g m set tag k)) = hits (stats m).
Proof.
  intros Hb Hj Hres Hfree Hbefore.
  assert (Hc : classify g (image m) set tag = Fill j).
  { unfold classify.
    rewrite first_slot_absent.
    2:{ intros i Hi. apply (proj1 (resident_false_iff g _ set tag) Hres). lia. }
    rewrite (first_slot_found is_free g (image m) set _ 0 j);
      [reflexivity | lia | |].
    - unfold is_free. now rewrite Hfree.
    - intros i Hi. unfold is_free. apply Z.eqb_neq. apply Hbefore. lia. }
  rewrite cacheHandler_stats, Hc. cbn [incr_misses hits misses evictions].
  split; [|split; [|repeat split]].
  - assert (Hp := slot_in_range g _ set j Hb Hj).
    rewrite (slot_eq g (image m) set j) in * by assumption.
    rewrite cacheHandler_line, Hc, Z.eqb_refl by (assumption || lia).
    reflexivity.
  - intros i Hi Hij.
    assert (Hq := slot_in_range g _ set i Hb Hi).
    rewrite (slot_eq g (image m) set i) in * by assumption.
    rewrite cacheHandler_line, Hc by (assumption || lia).
    replace (set * iCacheLinesPerSet g + i =? set * iCacheLinesPerSet g + j)
      with false by (symmetry; apply Z.eqb_neq; lia).
    apply aged_fields.
Qed.

Lemma X8_miss_fills_first_free_slot_witness :
  let g := geometry 0 3 0 false in
  let m := simulate g [load 5] [] in
  line_at (image (cacheHandler g m 0 7 1)) (slot g 0 1) = mkLine 7 1 1 3 0.
Proof.
  intros g m.
  destruct (X8_miss_fills_first_free_slot g m 0 7 1 1) as (H & _).
  - by_compute.
  - by_compute.
  - reflexivity.
  - reflexivity.
  - intros i Hi. assert (i = 0) by lia. subst i. vm_compute. discriminate.
  - exact H.
Defined.

(** ** Lines stay valid *)

Lemma cacheHandler_keeps_valid g m set tag k q :
  in_bounds g (image m) set -> 0 <= q ->
  bValidFlag (line_at (image m) q) <> CACHE_INVALID_FLAG ->
  bValidFlag (line_at (image (cacheHandler g m set tag k)) q) <> CACHE_INVALID_FLAG.
Proof.
  intros Hb Hq Hv.
  destruct (cacheHandler_footprint g m set tag k Hb) as (p & Hother & Hp).
  destruct (Z.eq_dec q p) as [->|Hne].
  - destruct Hp as [[_ ->]|(_ & _ & Hv' & _)]; assumption.
  - destruct (Hother q Hq Hne) as [_ ->]. assumption.
Qed.

(** X9: no access ever invalidates a line: a line that is valid after a
    trace is still valid however the trace goes on. *)
Theorem X9_valid_lines_stay_valid (s E b : Z) (v : bool)
    (trace more : list trace_record) (log : list event) (q : Z) :
  valid_geometry s E b -> 0 <= q ->
  bValidFlag (line_at (image (simulate (geometry s E b v) trace log)) q)
    <> CACHE_INVALID_FLAG ->
  bValidFlag (line_at (image (simulate (geometry s E b v) (trace ++ more) log)) q)
    <> CACHE_INVALID_FLAG.
Proof.
  intros Hgeo Hq Hv.
  pose proof (run_invariant_simulate s E b v Hgeo trace log) as Hinv.
  unfold simulate in *. unfold replay in *. rewrite fold_left_app.
  set (acc := fold_left (trace_step (geometry s E b v)) trace _) in *.
  apply (replay_invariant
           (fun c => run_invariant (geometry s E b v) c /\
                     bValidFlag (line_at c q) <> CACHE_INVALID_FLAG)
           (geometry s E b v)); [|now split].
  intros m k addr [Hinv' Hv']. split.
  - now apply run_invariant_step.
  - unfold checkSimulatorCache. apply cacheHandler_keeps_valid; try assumption.
    apply well_formed_in_bounds; [apply Hinv'|].
    now apply geometry_set_index.
Qed.

Lemma X9_valid_lines_stay_valid_witness :
  bValidFlag (line_at (image (simulate (geometry 0 2 0 false)
                                ([load 1] ++ [load 2; load 3; store 4]) [])) 0)
    <> CACHE_INVALID_FLAG.
Proof.
  apply (X9_valid_lines_stay_valid 0 2 0 false [load 1] [load 2; load 3; store 4] [] 0).
  - unfold valid_geometry. lia.
  - lia.
  - vm_compute. discriminate.
Defined.

(** ** Dirty evictions against evictions *)

Lemma line_at_cons_0 x (c : cacheImage_t) : line_at (x :: c) 0 = x.
Proof. reflexivity. Qed.

Lemma line_at_cons_succ x (c : cacheImage_t) q :
  0 <= q -> line_at (x :: c) (q + 1) = line_at c q.
Proof.
  intros Hq. unfold line_at.
  replace (Z.to_nat (q + 1)) with (S (Z.to_nat q)) by lia. reflexivity.
Qed.

Lemma sum_dirty_evictions_cons x c :
  sum_dirty_evictions (x :: c) = dirtyEvictionCount x + sum_dirty_evictions c.
Proof. reflexivity. Qed.

Lemma sum_dirty_evictions_ext (c : cacheImage_t) : forall c',
  length c' = length c ->
  (forall q, 0 <= q ->
     dirtyEvictionCount (line_at c' q) = dirtyEvictionCount (line_at c q)) ->
  sum_dirty_evictions c' = sum_dirty_evictions c.
Proof.
  induction c as [|x c IH]; intros [|x' c'] Hlen Hsame; try discriminate;
    [reflexivity|].
  rewrite !sum_dirty_evictions_cons.
  pose proof (Hsame 0 ltac:(lia)) as H0. rewrite !line_at_cons_0 in H0.
  rewrite H0. f_equal. apply IH; [now injection Hlen|].
  intros q Hq. specialize (Hsame (q + 1) ltac:(lia)).
  now rewrite !line_at_cons_succ in Hsame by assumption.
Qed.

Lemma sum_dirty_evictions_one (c : cacheImage_t) : forall c' p,
  length c' = length c ->
  0 <= p < Z.of_nat (length c) ->
  (forall q, 0 <= q -> q <> p ->
     dirtyEvictionCount (line_at c' q) = dirtyEvictionCount (line_at c q)) ->
  sum_dirty_evictions c'
  = sum_dirty_evictions c - dirtyEvictionCount (line_at c p)
    + dirtyEvictionCount (line_at c' p).
Proof.
  induction c as [|x c IH]; intros [|x' c'] p Hlen Hp Hsame;
    try discriminate; [cbn in Hp; lia|].
  rewrite !sum_dirty_evictions_cons. cbn [length] in Hp.
  destruct (Z.eq_dec p 0) as [->|Hne].
  - rewrite !line_at_cons_0.
    rewrite (sum_dirty_evictions_ext c c'); [lia | now injection Hlen |].
    intros q Hq. specialize (Hsame (q + 1) ltac:(lia) ltac:(lia)).
    now rewrite !line_at_cons_succ in Hsame by assumption.
  - pose proof (Hsame 0 ltac:(lia) ltac:(lia)) as H0.
    rewrite !line_at_cons_0 in H0.
    replace p with ((p - 1) + 1) by lia.
    rewrite !line_at_cons_succ by lia.
    rewrite (IH c' (p - 1)); [lia | now injection Hlen | lia |].
    intros q Hq Hqp. specialize (Hsame (q + 1) ltac:(lia) ltac:(lia)).
    now rewrite !line_at_cons_succ in Hsame by assumption.
Qed.

Lemma sum_dirty_evictions_ge (c : cacheImage_t) : forall p,
  (forall q, 0 <= q -> 0 <= dirtyEvictionCount (line_at c q)) ->
  0 <= p ->
  0 <= dirtyEvictionCount (line_at c p) <= sum_dirty_evictions c.
Proof.
  induction c as [|x c IH]; intros p Hpos Hp.
  - unfold line_at. rewrite nth_overflow by (cbn; lia). cbn. lia.
  - rewrite sum_dirty_evictions_cons.
    assert (Hpos' : forall q, 0 <= q -> 0 <= dirtyEvictionCount (line_at c q)).
    { intros q Hq. specialize (Hpos (q + 1) ltac:(lia)).
      now rewrite line_at_cons_succ in Hpos by assumption. }
    pose proof (Hpos 0 ltac:(lia)) as H0. rewrite line_at_cons_0 in H0.
    pose proof (IH 0 Hpos' ltac:(lia)) as Hsum.
    destruct (Z.eq_dec p 0) as [->|Hne].
    + rewrite line_at_cons_0. lia.
    + replace p with ((p - 1) + 1) by lia.
      rewrite line_at_cons_succ by lia.
      pose proof (IH (p - 1) Hpos' ltac:(lia)). lia.
Qed.

Lemma dirty_evictions_step g m set tag k :
  in_bounds g (image m) set ->
  (forall q, 0 <= q -> 0 <= dirtyEvictionCount (line_at (image m) q)) ->
  sum_dirty_evictions (image m) <= evictions (stats m) ->
  evictions (stats m) + 1 < 2 ^ 32 ->
  (forall q, 0 <= q ->
     0 <= dirtyEvictionCount (line_at (image (cacheHandler g m set tag k)) q)) /\
  sum_dirty_evictions (image (cacheHandler g m set tag k))
    <= evictions (stats (cacheHandler g m set tag k)).
Proof.
  intros Hb Hpos Hsum Hev.
  pose proof (cacheHandler_length g m set tag k Hb) as Hlen.
  pose proof (fun q Hq => cacheHandler_line g m set tag k q Hb Hq) as Hline.
  pose proof (cacheHandler_stats g m set tag k) as Hstats.
  pose proof (aged_fields g (image m) set) as Haged.
  assert (H0 : 0 <= sum_dirty_evictions (image m))
    by (pose proof (sum_dirty_evictions_ge (image m) 0 Hpos ltac:(lia)); lia).
  destruct (classify g (image m) set tag) as [j|j|j| |] eqn:Hc.
  1,2: assert (Hsame : forall q, 0 <= q ->
            dirtyEvictionCount (line_at (image (cacheHandler g m set tag k)) q)
            = dirtyEvictionCount (line_at (image m) q));
    [ intros q Hq; rewrite Hline by assumption;
      destruct (Z.eqb_spec q (set * iCacheLinesPerSet g + j)) as [->|Hne];
      [reflexivity|];
      try (destruct (_ =? iRecentAccessRankValue g); [reflexivity|]);
      apply Haged
    | split;
      [ intros q Hq; rewrite Hsame by assumption; now apply Hpos
      | rewrite (sum_dirty_evictions_ext (image m)) by assumption;
        rewrite Hstats; cbn; lia ] ].
  - assert (Hj : 0 <= j < iCacheLinesPerSet g)
      by (apply (classify_slot_range g (image m) set tag); tauto).
    assert (Hp := slot_in_range g _ set j Hb Hj).
    rewrite (slot_eq g (image m)) in Hp by assumption.
    set (p := set * iCacheLinesPerSet g + j) in *.
    pose proof (sum_dirty_evictions_ge (image m) p Hpos ltac:(lia)) as Hdp.
    assert (Hat : dirtyEvictionCount (line_at (image (cacheHandler g m set tag k)) p)
                  = dirtyEvictionCount (line_at (image m) p) \/
                  dirtyEvictionCount (line_at (image (cacheHandler g m set tag k)) p)
                  = dirtyEvictionCount (line_at (image m) p) + 1).
    { rewrite Hline, Z.eqb_refl by lia. cbn.
      destruct (bDirtyFlag (line_at (image m) p) =? 1); [right|now left].
      apply wrap32_small. lia. }
    assert (Hother : forall q, 0 <= q -> q <> p ->
              dirtyEvictionCount (line_at (image (cacheHandler g m set tag k)) q)
              = dirtyEvictionCount (line_at (image m) q)).
    { intros q Hq Hne. rewrite Hline by assumption.
      apply Z.eqb_neq in Hne. rewrite Hne. apply Haged. }
    split.
    + intros q Hq. destruct (Z.eq_dec q p) as [->|Hne];
        [lia | rewrite Hother by assumption; now apply Hpos].
    + rewrite (sum_dirty_evictions_one (image m) _ p) by (assumption || lia).
      rewrite Hstats. cbn. rewrite wrap64_small by lia. lia.
  - rewrite cacheHandler_image, Hc in *. split; [assumption|].
    rewrite Hstats. cbn. rewrite wrap64_small by lia. lia.
  - rewrite cacheHandler_image, Hc in *. split; [assumption|].
    rewrite Hstats. cbn. lia.
Qed.

Lemma replay_dirty_evictions s E b v (trace : list trace_record) :
  valid_geometry s E b ->
  forall acc,
    run_invariant (geometry s E b v) (image (snd acc)) ->
    (forall q, 0 <= q -> 0 <= dirtyEvictionCount (line_at (image (snd acc)) q)) ->
    sum_dirty_evictions (image (snd acc)) <= evictions (stats (snd acc)) ->
    0 <= hits (stats (snd acc)) ->
    0 <= evictions (stats (snd acc)) <= misses (stats (snd acc)) ->
    hits (stats (snd acc)) + misses (stats (snd acc)) + Z.of_nat (length trace)
      < 2 ^ 32 ->
    0 <= sum_dirty_evictions (image (snd (replay (geometry s E b v) trace acc)))
      <= evictions (stats (snd (replay (geometry s E b v) trace acc))).
Proof.
  intros Hgeo. unfold replay.
  induction trace as [|r trace IH]; intros acc Hinv Hpos Hsum Hh He Hn.
  - cbn. split; [|assumption].
    pose proof (sum_dirty_evictions_ge _ 0 Hpos ltac:(lia)). lia.
  - cbn [fold_left]. cbn [length] in Hn. destruct acc as [flag m].
    cbn [snd trace_step] in *.
    set (flag' := if Ascii.eqb (rec_op r) "L" then 0
                  else if Ascii.eqb (rec_op r) "S" then 1 else flag).
    set (m1 := verbose (geometry s E b v) (EvRecord r) m).
    assert (Hi1 : image m1 = image m) by apply image_verbose.
    assert (Hs1 : stats m1 = stats m) by apply stats_verbose.
    destruct (checkSimulatorCache_counts (geometry s E b v) m1 flag' (rec_addr r))
      as (H1 & H2 & H3); rewrite ?Hs1; try lia.
    rewrite Hs1 in H3.
    destruct (dirty_evictions_step (geometry s E b v) m1
                (addrSVal (geometry s E b v) (rec_addr r))
                (addrTagVal (geometry s E b v) (rec_addr r)) flag')
      as (H4 & H5); rewrite ?Hi1, ?Hs1; try assumption; try lia.
    { apply well_formed_in_bounds; [apply Hinv|]. now apply geometry_set_index. }
    apply IH; cbn [snd]; rewrite ?image_verbose, ?stats_verbose;
      try assumption; try lia.
    apply run_invariant_step; [assumption|]. now rewrite Hi1.
Qed.

Lemma all_clean_calloc n : all_clean (calloc n).
Proof. intros q _. now rewrite line_at_calloc. Qed.

(** X10: the dirty evictions recorded on the slots never exceed the
    evictions counted: over a whole run, the sum of the per-slot counts is
    at most [evictions]. *)
Theorem X10_dirty_evictions_bounded (s E b : Z) (v : bool)
    (trace : list trace_record) (log : list event) :
  valid_geometry s E b ->
  Z.of_nat (length trace) < 2 ^ 32 ->
  0 <= sum_dirty_evictions (image (simulate (geometry s E b v) trace log))
    <= evictions (stats (simulate (geometry s E b v) trace log)).
Proof.
  intros Hgeo Hlen. unfold simulate.
  apply (replay_dirty_evictions s E b v trace Hgeo); cbn [snd image stats].
  - now apply run_invariant_calloc.
  - intros q _. now rewrite line_at_calloc.
  - rewrite (proj2 (all_clean_totals _ (all_clean_calloc _))). cbn. lia.
  - cbn. lia.
  - cbn. lia.
  - cbn. lia.
Qed.

Lemma X10_dirty_evictions_bounded_witness :
  sum_dirty_evictions (image (simulate (geometry 0 1 4 false)
                                [store 0; load 16; store 32; store 48] []))
  <= evictions (stats (simulate (geometry 0 1 4 false)
                         [store 0; load 16; store 32; store 48] [])).
Proof.
  apply (X10_dirty_evictions_bounded 0 1 4 false
           [store 0; load 16; store 32; store 48] []).
  - unfold valid_geometry. lia.
  - cbn. lia.
Defined.

(** ** From the command line to the geometry *)

Lemma parse_options_snoc argv o :
  parse_options (argv ++ [o]) = getopt_case (parse_options argv) o.
Proof. unfold parse_options. now rewrite fold_left_app. Qed.

(** What option parsing guarantees about a value that passes the checks:
    it was given on the command line, and the globals derived from it are
    in step with it. *)
Lemma parse_options_origin argv :
  (0 <= iSignedSetBitCount (parse_options argv) ->
     In (OptS (iSignedSetBitCount (parse_options argv))) argv /\
     iSetBitCount (gl (parse_options argv))
       = to_unsigned (iSignedSetBitCount (parse_options argv)) /\
     iSetCount (gl (parse_options argv))
       = int_shl1 (to_unsigned (iSignedSetBitCount (parse_options argv)))) /\
  (1 <= iSignedCacheLinesPerSet (parse_options argv) ->
     In (OptE (iSignedCacheLinesPerSet (parse_options argv))) argv /\
     iCacheLinesPerSet (gl (parse_options argv))
       = to_unsigned (iSignedCacheLinesPerSet (parse_options argv)) /\
     iRecentAccessRankValue (gl (parse_options argv))
       = to_unsigned (iSignedCacheLinesPerSet (parse_options argv))) /\
  (0 <= iSignedBlockBitCount (parse_options argv) ->
     In (OptB (iSignedBlockBitCount (parse_options argv))) argv /\
     iBlockBitCount (gl (parse_options argv))
       = to_unsigned (iSignedBlockBitCount (parse_options argv)) /\
     iBlocksPerLine (gl (parse_options argv))
       = int_shl1 (to_unsigned (iSignedBlockBitCount (parse_options argv)))) /\
  (forall f, inputTraceFile (parse_options argv) = Some f ->
     In (OptT (Some f)) argv).
Proof.
  induction argv as [|o argv IH] using rev_ind.
  - cbn. repeat split; try lia. discriminate.
  - rewrite parse_options_snoc.
    destruct IH as (Hs & HE & Hb & Hf).
    set (st := parse_options argv) in *.
    destruct o; cbn [getopt_case printHelpVerbose gl iSignedSetBitCount
                     iSignedCacheLinesPerSet iSignedBlockBitCount inputTraceFile
                     iSetBitCount iSetCount iCacheLinesPerSet iBlockBitCount
                     iBlocksPerLine iRecentAccessRankValue];
      (split; [|split; [|split]]);
      try (intros H; destruct (Hs H) as (? & ? & ?);
           repeat split; try assumption; apply in_or_app; now left);
      try (intros H; destruct (HE H) as (? & ? & ?);
           repeat split; try assumption; apply in_or_app; now left);
      try (intros H; destruct (Hb H) as (? & ? & ?);
           repeat split; try assumption; apply in_or_app; now left);
      try (intros f0 H; apply in_or_app; left; now apply Hf);
      try (intros _; repeat split; apply in_or_app; right; now left).
    intros f0 H. apply in_or_app. right. left. now rewrite H.
Qed.

(** X12: when [main] gets past its checks, each of [-s], [-E], [-b] and
    [-t] was given with the value the run uses, and the globals are
    exactly the geometry of those three numbers; when that geometry is
    within the bounds of the array ([valid_geometry]) and the allocation
    is granted, the run ends with status 0 and the summary of that
    geometry on that trace. *)
Theorem X12_checked_run_uses_geometry (argv : list cli_option) :
  general_error_checks (parse_options argv) = false ->
  exists s E b trace,
    0 <= s /\ 1 <= E /\ 0 <= b /\
    In (OptS s) argv /\ In (OptE E) argv /\ In (OptB b) argv /\
    In (OptT (Some trace)) argv /\
    gl (parse_options argv)
      = geometry s E b (bVerbose (gl (parse_options argv))) /\
    (valid_geometry s E b ->
     main argv true =
     let g := geometry s E b (bVerbose (gl (parse_options argv))) in
     let m := simulate g trace
                (printed (parse_options argv)
                 ++ [EvCalloc (wrap32 (iSetCount g * iCacheLinesPerSet g))]) in
     (0, out m ++ [EvSummary (summarize g m)])).
Proof.
  intros Hchk.
  assert (Hok : ~ invalid_configuration (parse_options argv)).
  { intros Hbad. apply general_error_checks_spec in Hbad. congruence. }
  unfold invalid_configuration in Hok.
  destruct (parse_options_origin argv) as (Hs & HE & Hb & Hf).
  destruct (Hs ltac:(lia)) as (Hs1 & Hs2 & Hs3).
  destruct (HE ltac:(lia)) as (HE1 & HE2 & HE3).
  destruct (Hb ltac:(lia)) as (Hb1 & Hb2 & Hb3).
  destruct (inputTraceFile (parse_options argv)) as [trace|] eqn:Hfile;
    [|tauto].
  exists (iSignedSetBitCount (parse_options argv)),
         (iSignedCacheLinesPerSet (parse_options argv)),
         (iSignedBlockBitCount (parse_options argv)), trace.
  assert (Hgl : gl (parse_options argv)
                = geometry (iSignedSetBitCount (parse_options argv))
                           (iSignedCacheLinesPerSet (parse_options argv))
                           (iSignedBlockBitCount (parse_options argv))
                           (bVerbose (gl (parse_options argv)))).
  { unfold geometry. clear - Hs2 Hs3 HE2 HE3 Hb2 Hb3.
    destruct (gl (parse_options argv)); cbn in *. congruence. }
  split; [lia|]. split; [lia|]. split; [lia|].
  split; [exact Hs1|]. split; [exact HE1|]. split; [exact Hb1|].
  split; [now apply Hf|]. split; [exact Hgl|].
  intros _. unfold main. rewrite Hchk, Hfile, <- Hgl. reflexivity.
Qed.

Lemma X12_checked_run_uses_geometry_witness :
  (exists s E b trace,
     In (OptS s) [OptV; OptS 1; OptE 2; OptB 3; OptT (Some [load 0])] /\
     In (OptE E) [OptV; OptS 1; OptE 2; OptB 3; OptT (Some [load 0])] /\
     In (OptB b) [OptV; OptS 1; OptE 2; OptB 3; OptT (Some [load 0])] /\
     In (OptT (Some trace)) [OptV; OptS 1; OptE 2; OptB 3; OptT (Some [load 0])]) /\
  fst (main [OptV; OptS 1; OptE 2; OptB 3; OptT (Some [load 0])] true) = 0.
Proof.
  destruct (X12_checked_run_uses_geometry
              [OptV; OptS 1; OptE 2; OptB 3; OptT (Some [load 0])] eq_refl)
    as (s & E & b & trace & _ & _ & _ & H4 & H5 & H6 & H7 & _ & Hrun).
  split; [exists s, E, b, trace; repeat split; assumption|].
  assert (Hs : s = 1) by (cbn in H4; intuition congruence).
  assert (HE : E = 2) by (cbn in H5; intuition congruence).
  assert (Hb : b = 3) by (cbn in H6; intuition congruence).
  rewrite Hrun; [reflexivity|].
  subst s E b. unfold valid_geometry. lia.
Defined.

(** ** One and two lines per set *)

Lemma cacheHandler_other_set g m set tag k set' i :
  in_bounds g (image m) set -> in_bounds g (image m) set' ->
  set' <> set -> 0 <= i < iCacheLinesPerSet g ->
  line_at (image (cacheHandler g m set tag k)) (set' * iCacheLinesPerSet g + i)
  = line_at (image m) (set' * iCacheLinesPerSet g + i).
Proof.
  intros Hb Hb' Hne Hi.
  assert (Hout : set' * iCacheLinesPerSet g + i < set * iCacheLinesPerSet g \/
                 set * iCacheLinesPerSet g + iCacheLinesPerSet g
                   <= set' * iCacheLinesPerSet g + i) by nia.
  assert (Hq : 0 <= set' * iCacheLinesPerSet g + i)
    by (destruct Hb' as (? & ? & _); nia).
  rewrite cacheHandler_line by assumption.
  destruct (classify g (image m) set tag) as [j|j|j| |] eqn:Hc;
    try reflexivity;
    assert (Hj : 0 <= j < iCacheLinesPerSet g)
      by (apply (classify_slot_range g (image m) set tag); tauto);
    (replace (set' * iCacheLinesPerSet g + i =? set * iCacheLinesPerSet g + j)
       with false by (symmetry; apply Z.eqb_neq; lia));
    rewrite ?aged_other_set by assumption;
    try reflexivity.
  now destruct (_ =? _).
Qed.

Lemma aged_in_set g c set r i :
  0 <= i < iCacheLinesPerSet g -> i <> r ->
  aged g c set r (set * iCacheLinesPerSet g + i)
  = if bValidFlag (line_at c (set * iCacheLinesPerSet g + i)) =? CACHE_VALID_FLAG
    then dec_rank (line_at c (set * iCacheLinesPerSet g + i))
    else line_at c (set * iCacheLinesPerSet g + i).
Proof.
  intros Hi Hne. unfold aged.
  replace ((set * iCacheLinesPerSet g <=? set * iCacheLinesPerSet g + i)
           && (set * iCacheLinesPerSet g + i
               <? set * iCacheLinesPerSet g + iCacheLinesPerSet g)
           && negb (set * iCacheLinesPerSet g + i =? set * iCacheLinesPerSet g + r))
    with true by (symmetry; zbool).
  reflexivity.
Qed.

(** Valid bit and rank of slot [i] of the addressed set after a lookup. *)
Lemma after_access_fields g m set tag k i :
  in_bounds g (image m) set -> 0 <= i < iCacheLinesPerSet g ->
  let l := line_at (image m) (set * iCacheLinesPerSet g + i) in
  let l' := line_at (image (cacheHandler g m set tag k))
                    (set * iCacheLinesPerSet g + i) in
  let lowered := if bValidFlag l =? 1 then wrap32 (iRank l - 1) else iRank l in
  match classify g (image m) set tag with
  | Hit j =>
      bValidFlag l' = bValidFlag l /\
      iRank l' =
        if i =? j then iRecentAccessRankValue g
        else if iRank (line_at (image m) (set * iCacheLinesPerSet g + j))
                =? iRecentAccessRankValue g
             then iRank l else lowered
  | Fill j =>
      if i =? j
      then bValidFlag l' = 1 /\ iRank l' = iRecentAccessRankValue g
      else bValidFlag l' = bValidFlag l /\ iRank l' = lowered
  | Evict j =>
      bValidFlag l' = bValidFlag l /\
      iRank l' = if i =? j then iRecentAccessRankValue g else lowered
  | NoVictim | NoLines => l' = l
  end.
Proof.
  intros Hb Hi l l' lowered. subst l'.
  assert (Hq := slot_in_range g _ set i Hb Hi).
  rewrite (slot_eq g (image m)) in Hq by assumption.
  rewrite cacheHandler_line by (assumption || lia).
  destruct (classify g (image m) set tag) as [j|j|j| |] eqn:Hc;
    try reflexivity;
    assert (Hj : 0 <= j < iCacheLinesPerSet g)
      by (apply (classify_slot_range g (image m) set tag); tauto);
    (destruct (Z.eqb_spec i j) as [->|Hne];
     [rewrite Z.eqb_refl; cbn; now split|]);
    (replace (set * iCacheLinesPerSet g + i =? set * iCacheLinesPerSet g + j)
       with false by (symmetry; apply Z.eqb_neq; lia));
    try (destruct (_ =? iRecentAccessRankValue g); [now split|]);
    rewrite aged_in_set by assumption; subst lowered l;
    unfold CACHE_VALID_FLAG;
    destruct (bValidFlag (line_at (image m) (set * iCacheLinesPerSet g + i)) =? 1);
    now split.
Qed.

Ltac zbool_in H :=
  repeat match type of H with
  | context [?a =? ?b] => destruct (Z.eqb_spec a b)
  end.

Lemma dense_ranks_step g m set tag k :
  well_formed g (image m) -> 0 <= set < iSetCount g ->
  1 <= iCacheLinesPerSet g <= 2 ->
  iRecentAccessRankValue g = iCacheLinesPerSet g ->
  dense_ranks g (image m) ->
  dense_ranks g (image (cacheHandler g m set tag k)).
Proof.
  intros Hwf Hset HE HR Hdense set' Hset'.
  pose proof (well_formed_in_bounds _ _ _ Hwf Hset) as Hb.
  pose proof (well_formed_in_bounds _ _ _ Hwf Hset') as Hb'.
  destruct (Z.eq_dec set' set) as [->|Hne].
  2:{ destruct (Hdense set' Hset') as (Ha & Hc & Hd).
      split; [|split].
      - intros i Hi. rewrite cacheHandler_other_set by assumption. now apply Ha.
      - intros i i' Hi Hi'. rewrite !cacheHandler_other_set by assumption.
        now apply Hc.
      - intros i i' Hi Hi'. rewrite !cacheHandler_other_set by assumption.
        now apply Hd. }
  destruct (Hdense set Hset) as (Ha & Hc & Hd).
  pose proof (fun i Hi => after_access_fields g m set tag k i Hb Hi) as Hafter.
  cbv zeta in Hafter.
  assert (Hcase :
    match classify g (image m) set tag with
    | Hit j => 0 <= j < iCacheLinesPerSet g /\
               bValidFlag (line_at (image m) (set * iCacheLinesPerSet g + j)) <> 0
    | Fill j => 0 <= j < iCacheLinesPerSet g /\
                bValidFlag (line_at (image m) (set * iCacheLinesPerSet g + j)) = 0
    | Evict j => 0 <= j < iCacheLinesPerSet g /\
                 iRank (line_at (image m) (set * iCacheLinesPerSet g + j)) = 1 /\
                 forall i, 0 <= i < iCacheLinesPerSet g ->
                   bValidFlag (line_at (image m) (set * iCacheLinesPerSet g + i)) <> 0
    | NoVictim | NoLines => True
    end).
  { destruct (classify g (image m) set tag) as [j|j|j| |] eqn:Hcl; [| | |exact I|exact I].
    - apply classify_Hit in Hcl as [Hj Hh]. split; [assumption|].
      rewrite (slot_eq g (image m)) in Hh by assumption.
      unfold is_hit in Hh. apply andb_true_iff in Hh as [_ Hv].
      now apply negb_true_iff, Z.eqb_neq in Hv.
    - apply classify_Fill in Hcl as [Hj Hf]. split; [assumption|].
      rewrite (slot_eq g (image m)) in Hf by assumption.
      now apply Z.eqb_eq in Hf.
    - apply classify_Evict in Hcl as (Hj & Hv & _ & Hfull).
      split; [assumption|].
      rewrite (slot_eq g (image m)) in Hv by assumption.
      split; [now apply Z.eqb_eq in Hv|].
      intros i Hi. specialize (Hfull i Hi).
      rewrite (slot_eq g (image m)) in Hfull by assumption.
      now apply Z.eqb_neq in Hfull. }
  rewrite HR in Hafter.
  destruct (Z.eq_dec (iCacheLinesPerSet g) 1) as [HE1|HE1].
  - (* direct mapped *)
    rewrite HE1 in *.
    pose proof (Hafter 0 ltac:(lia)) as F0.
    pose proof (Ha 0 ltac:(lia)) as A0.
    assert (Hidx : forall i, 0 <= i < 1 -> i = 0) by (intros; lia).
    destruct (classify g (image m) set tag) as [j|j|j| |];
      try (destruct Hcase as (Hj & Hcase); apply Hidx in Hj; subst j;
           cbn [Z.eqb Pos.eqb] in F0);
      (split; [|split]);
      try (intros i i' Hi Hi'; apply Hidx in Hi; apply Hidx in Hi'; subst; lia);
      intros i Hi; apply Hidx in Hi; subst i;
      try rewrite F0; try lia; try assumption.
  - (* two lines per set *)
    assert (HE2 : iCacheLinesPerSet g = 2) by lia.
    rewrite HE2 in *.
    pose proof (Hafter 0 ltac:(lia)) as F0. pose proof (Hafter 1 ltac:(lia)) as F1.
    pose proof (Ha 0 ltac:(lia)) as A0. pose proof (Ha 1 ltac:(lia)) as A1.
    pose proof (Hc 0 1 ltac:(lia) ltac:(lia) ltac:(lia)) as C01.
    pose proof (Hd 0 1 ltac:(lia) ltac:(lia)) as D01.
    pose proof (Hd 1 0 ltac:(lia) ltac:(lia)) as D10.
    assert (Hidx : forall i, 0 <= i < 2 -> i = 0 \/ i = 1) by (intros; lia).
    assert (W0 : bValidFlag (line_at (image m) (set * 2 + 0)) = 1 ->
                 wrap32 (iRank (line_at (image m) (set * 2 + 0)) - 1)
                 = iRank (line_at (image m) (set * 2 + 0)) - 1)
      by (intros; apply wrap32_small; lia).
    assert (W1 : bValidFlag (line_at (image m) (set * 2 + 1)) = 1 ->
                 wrap32 (iRank (line_at (image m) (set * 2 + 1)) - 1)
                 = iRank (line_at (image m) (set * 2 + 1)) - 1)
      by (intros; apply wrap32_small; lia).
    clear Hafter Ha Hc Hd Hdense.
    destruct (classify g (image m) set tag) as [j|j|j| |].
    + destruct Hcase as (Hj & Hvj).
      destruct (Hidx j Hj) as [-> | ->]; cbn [Z.eqb Pos.eqb] in F0, F1;
        destruct F0 as [F0v F0r]; destruct F1 as [F1v F1r];
        zbool_in F0r; zbool_in F1r;
        (split; [|split]);
        try (intros i i' Hi Hi' Hii';
             destruct (Hidx i Hi) as [-> | ->];
             destruct (Hidx i' Hi') as [-> | ->]; lia);
        try (intros i i' Hi Hi';
             destruct (Hidx i Hi) as [-> | ->];
             destruct (Hidx i' Hi') as [-> | ->]; lia);
        intros i Hi; destruct (Hidx i Hi) as [-> | ->]; lia.
    + destruct Hcase as (Hj & Hvj).
      destruct (Hidx j Hj) as [-> | ->]; cbn [Z.eqb Pos.eqb] in F0, F1;
        destruct F0 as [F0v F0r]; destruct F1 as [F1v F1r];
        zbool_in F0r; zbool_in F1r;
        (split; [|split]);
        try (intros i i' Hi Hi' Hii';
             destruct (Hidx i Hi) as [-> | ->];
             destruct (Hidx i' Hi') as [-> | ->]; lia);
        try (intros i i' Hi Hi';
             destruct (Hidx i Hi) as [-> | ->];
             destruct (Hidx i' Hi') as [-> | ->]; lia);
        intros i Hi; destruct (Hidx i Hi) as [-> | ->]; lia.
    + destruct Hcase as (Hj & Hrj & Hfull).
      pose proof (Hfull 0 ltac:(lia)). pose proof (Hfull 1 ltac:(lia)).
      destruct (Hidx j Hj) as [-> | ->]; cbn [Z.eqb Pos.eqb] in F0, F1;
        destruct F0 as [F0v F0r]; destruct F1 as [F1v F1r];
        zbool_in F0r; zbool_in F1r;
        (split; [|split]);
        try (intros i i' Hi Hi' Hii';
             destruct (Hidx i Hi) as [-> | ->];
             destruct (Hidx i' Hi') as [-> | ->]; lia);
        try (intros i i' Hi Hi';
             destruct (Hidx i Hi) as [-> | ->];
             destruct (Hidx i' Hi') as [-> | ->]; lia);
        intros i Hi; destruct (Hidx i Hi) as [-> | ->]; lia.
    + (split; [|split]).
      * intros i Hi; destruct (Hidx i Hi) as [-> | ->]; [rewrite F0|rewrite F1]; lia.
      * intros i i' Hi Hi' Hii';
          destruct (Hidx i Hi) as [-> | ->];
          destruct (Hidx i' Hi') as [-> | ->]; rewrite ?F0, ?F1; lia.
      * intros i i' Hi Hi';
          destruct (Hidx i Hi) as [-> | ->];
          destruct (Hidx i' Hi') as [-> | ->]; rewrite ?F0, ?F1; lia.
    + (split; [|split]).
      * intros i Hi; destruct (Hidx i Hi) as [-> | ->]; [rewrite F0|rewrite F1]; lia.
      * intros i i' Hi Hi' Hii';
          destruct (Hidx i Hi) as [-> | ->];
          destruct (Hidx i' Hi') as [-> | ->]; rewrite ?F0, ?F1; lia.
      * intros i i' Hi Hi';
          destruct (Hidx i Hi) as [-> | ->];
          destruct (Hidx i' Hi') as [-> | ->]; rewrite ?F0, ?F1; lia.
Qed.

Lemma dense_ranks_resolves g c set tag :
  in_bounds g c set -> 0 <= set < iSetCount g ->
  1 <= iCacheLinesPerSet g <= 2 ->
  dense_ranks g c ->
  classify g c set tag <> NoVictim /\ classify g c set tag <> NoLines.
Proof.
  intros Hb Hset HE Hdense. split; intros Hc.
  - apply classify_NoVictim in Hc as (_ & Hall).
    destruct (Hdense set Hset) as (Ha & Hdist & _).
    assert (Hline : forall i, 0 <= i < iCacheLinesPerSet g ->
              bValidFlag (line_at c (set * iCacheLinesPerSet g + i)) = 1 /\
              2 <= iRank (line_at c (set * iCacheLinesPerSet g + i))
                <= iCacheLinesPerSet g).
    { intros i Hi. destruct (Hall i Hi) as [Hf Hv].
      rewrite (slot_eq g c) in Hf, Hv by assumption.
      unfold is_free in Hf. unfold is_victim in Hv.
      apply Z.eqb_neq in Hf, Hv. unfold CACHE_INVALID_FLAG in Hf.
      unfold EVICTION_RANK_VAL in Hv.
      destruct (Ha i Hi) as [H0|[H1 Hr]]; [contradiction|]. split; lia. }
    destruct (Hline 0 ltac:(lia)) as [Hv0 Hr0].
    assert (HE2 : iCacheLinesPerSet g = 2) by lia.
    destruct (Hline 1 ltac:(lia)) as [Hv1 Hr1].
    specialize (Hdist 0 1 ltac:(lia) ltac:(lia) ltac:(lia) Hv0 Hv1). lia.
  - apply classify_NoLines in Hc. lia.
Qed.

(** X11: with one or two lines per set the replacement never fails: after
    every record of every trace, the block just accessed is resident in
    its set. *)
Theorem X11_small_sets_keep_accessed_block (s E b : Z) (v : bool)
    (trace : list trace_record) (r : trace_record) (log : list event) :
  valid_geometry s E b -> E <= 2 ->
  resident (geometry s E b v)
    (image (simulate (geometry s E b v) (trace ++ [r]) log))
    (addrSVal (geometry s E b v) (rec_addr r))
    (addrTagVal (geometry s E b v) (rec_addr r)) = true.
Proof.
  intros Hgeo HE2.
  destruct (geometry_fields s E b v Hgeo) as (_ & _ & HE & _ & HR & _).
  assert (HE1 : 1 <= E) by apply Hgeo.
  set (g := geometry s E b v) in *.
  assert (Hinv : run_invariant g (image (simulate g trace log)) /\
                 dense_ranks g (image (simulate g trace log))).
  { unfold simulate.
    apply (replay_invariant (fun c => run_invariant g c /\ dense_ranks g c) g).
    - intros m k addr [Hri Hd]. split.
      + now apply run_invariant_step.
      + unfold checkSimulatorCache. apply dense_ranks_step; try assumption.
        * apply Hri.
        * now apply geometry_set_index.
        * lia.
        * lia.
    - split; [now apply run_invariant_calloc|].
      intros set _. cbn [snd image].
      split; [|split]; intros; rewrite ?line_at_calloc in *;
        cbn in *; try lia; try discriminate. }
  destruct Hinv as [(Hwf & _) Hdense].
  unfold simulate in *. rewrite replay_snoc.
  destruct (replay g trace _) as [flag m]. cbn [snd trace_step] in *.
  rewrite image_verbose. unfold checkSimulatorCache.
  set (m1 := verbose g (EvRecord r) m).
  assert (Him : image m1 = image m) by apply image_verbose.
  assert (Hset := geometry_set_index s E b v Hgeo (rec_addr r)). fold g in Hset.
  assert (Hb : in_bounds g (image m1) (addrSVal g (rec_addr r))).
  { rewrite Him. now apply well_formed_in_bounds. }
  rewrite resident_after_access by assumption.
  destruct (dense_ranks_resolves g (image m1) (addrSVal g (rec_addr r))
              (addrTagVal g (rec_addr r))) as [H1 H2];
    try assumption; try lia; [now rewrite Him|].
  destruct (classify g (image m1) _ _); try reflexivity; contradiction.
Qed.

Lemma X11_small_sets_keep_accessed_block_witness :
  resident (geometry 0 2 0 false)
    (image (simulate (geometry 0 2 0 false)
              ([load 0; load 1; load 0; load 2; load 1] ++ [load 3]) []))
    (addrSVal (geometry 0 2 0 false) (rec_addr (load 3)))
    (addrTagVal (geometry 0 2 0 false) (rec_addr (load 3))) = true.
Proof.
  apply (X11_small_sets_keep_accessed_block 0 2 0 false
           [load 0; load 1; load 0; load 2; load 1] (load 3) []).
  - unfold valid_geometry. lia.
  - lia.
Defined.

(** ** What a lookup depends on *)

Lemma first_slot_ext test g (c1 c2 : cacheImage_t) set fuel : forall j,
  (forall i, j <= i < j + Z.of_nat fuel ->
     test (line_at c1 (slot g set i)) = test (line_at c2 (slot g set i))) ->
  first_slot test g c1 set fuel j = first_slot test g c2 set fuel j.
Proof.
  induction fuel as [|fuel IH]; intros j Hsame; [reflexivity|].
  cbn [first_slot]. rewrite (Hsame j) by lia.
  rewrite (IH (j + 1)); [reflexivity|]. intros i Hi. apply Hsame. lia.
Qed.

(** The three scans read each line's tag, valid bit and rank only. *)
Lemma classify_ext g (c1 c2 : cacheImage_t) set tag :
  (forall i, 0 <= i < iCacheLinesPerSet g ->
     iTag (line_at c1 (slot g set i)) = iTag (line_at c2 (slot g set i)) /\
     bValidFlag (line_at c1 (slot g set i)) = bValidFlag (line_at c2 (slot g set i)) /\
     iRank (line_at c1 (slot g set i)) = iRank (line_at c2 (slot g set i))) ->
  classify g c1 set tag = classify g c2 set tag.
Proof.
  intros Hsame. unfold classify.
  rewrite (first_slot_ext (is_hit tag) g c1 c2),
          (first_slot_ext is_free g c1 c2),
          (first_slot_ext is_victim g c1 c2); [reflexivity| | |];
    intros i Hi; destruct (Hsame i ltac:(lia)) as (Ht & Hv & Hr);
    unfold is_hit, is_free, is_victim; now rewrite ?Ht, ?Hv, ?Hr.
Qed.

Lemma list_line_ext (c1 c2 : cacheImage_t) :
  length c1 = length c2 ->
  (forall q, 0 <= q -> line_at c1 q = line_at c2 q) ->
  c1 = c2.
Proof.
  intros Hlen Hsame. apply (nth_ext c1 c2 zeroLine zeroLine Hlen).
  intros n _. specialize (Hsame (Z.of_nat n) ltac:(lia)).
  unfold line_at in Hsame. now rewrite Nat2Z.id in Hsame.
Qed.

(** Two arrays that agree on the lines of a set resolve a lookup in that
    set alike and agree on those lines afterwards. *)
Lemma cacheHandler_local g m1 m2 set tag k :
  in_bounds g (image m1) set -> in_bounds g (image m2) set ->
  (forall i, 0 <= i < iCacheLinesPerSet g ->
     line_at (image m1) (set * iCacheLinesPerSet g + i)
     = line_at (image m2) (set * iCacheLinesPerSet g + i)) ->
  classify g (image m1) set tag = classify g (image m2) set tag /\
  forall i, 0 <= i < iCacheLinesPerSet g ->
    line_at (image (cacheHandler g m1 set tag k)) (set * iCacheLinesPerSet g + i)
    = line_at (image (cacheHandler g m2 set tag k)) (set * iCacheLinesPerSet g + i).
Proof.
  intros Hb1 Hb2 Hsame.
  assert (Hc : classify g (image m1) set tag = classify g (image m2) set tag).
  { apply classify_ext. intros i Hi.
    rewrite (slot_eq g (image m1)) by assumption. now rewrite Hsame. }
  split; [exact Hc|]. intros i Hi.
  assert (Hq := slot_in_range g _ set i Hb1 Hi).
  rewrite (slot_eq g (image m1)) in Hq by assumption.
  rewrite !cacheHandler_line by (assumption || lia). rewrite <- Hc.
  destruct (classify g (image m1) set tag) as [j|j|j| |] eqn:Hcl;
    try (now apply Hsame);
    assert (Hj : 0 <= j < iCacheLinesPerSet g)
      by (apply (classify_slot_range g (image m1) set tag); tauto);
    unfold aged; rewrite !(Hsame i Hi), !(Hsame j Hj); reflexivity.
Qed.

Lemma cacheHandler_outside g m set tag k q :
  in_bounds g (image m) set -> 0 <= q ->
  q < set * iCacheLinesPerSet g \/
  set * iCacheLinesPerSet g + iCacheLinesPerSet g <= q ->
  line_at (image (cacheHandler g m set tag k)) q = line_at (image m) q.
Proof.
  intros Hb Hq Hout. rewrite cacheHandler_line by assumption.
  destruct (classify g (image m) set tag) as [j|j|j| |] eqn:Hc;
    try reflexivity;
    assert (Hj : 0 <= j < iCacheLinesPerSet g)
      by (apply (classify_slot_range g (image m) set tag); tauto);
    (replace (q =? set * iCacheLinesPerSet g + j)
       with false by (symmetry; apply Z.eqb_neq; lia));
    rewrite ?aged_other_set by assumption;
    try reflexivity.
  now destruct (_ =? _).
Qed.

(** X15: two lookups that go to different sets can be swapped: the array
    and the counters end up the same in either order. *)
Theorem X15_different_sets_commute g m k1 a1 k2 a2 :
  in_bounds g (image m) (addrSVal g a1) ->
  in_bounds g (image m) (addrSVal g a2) ->
  addrSVal g a1 <> addrSVal g a2 ->
  image (checkSimulatorCache g (checkSimulatorCache g m k1 a1) k2 a2)
    = image (checkSimulatorCache g (checkSimulatorCache g m k2 a2) k1 a1) /\
  stats (checkSimulatorCache g (checkSimulatorCache g m k1 a1) k2 a2)
    = stats (checkSimulatorCache g (checkSimulatorCache g m k2 a2) k1 a1).
Proof.
  unfold checkSimulatorCache.
  set (S1 := addrSVal g a1). set (S2 := addrSVal g a2).
  set (T1 := addrTagVal g a1). set (T2 := addrTagVal g a2).
  intros Hb1 Hb2 Hne.
  set (m1 := cacheHandler g m S1 T1 k1). set (m2 := cacheHandler g m S2 T2 k2).
  assert (Hl1 : length (image m1) = length (image m))
    by now apply cacheHandler_length.
  assert (Hl2 : length (image m2) = length (image m))
    by now apply cacheHandler_length.
  assert (Hb12 : in_bounds g (image m1) S2) by now apply (in_bounds_length g (image m)).
  assert (Hb21 : in_bounds g (image m2) S1) by now apply (in_bounds_length g (image m)).
  (* the second lookup of each order sees its own set as in [m] *)
  destruct (cacheHandler_local g m1 m S2 T2 k2 Hb12 Hb2) as [Hc2 Hline2].
  { intros i Hi. unfold m1. apply cacheHandler_other_set; auto. }
  destruct (cacheHandler_local g m2 m S1 T1 k1 Hb21 Hb1) as [Hc1 Hline1].
  { intros i Hi. unfold m2. apply cacheHandler_other_set; auto. }
  assert (HE : 0 <= iCacheLinesPerSet g) by apply Hb1.
  assert (HS1 : 0 <= S1) by apply Hb1. assert (HS2 : 0 <= S2) by apply Hb2.
  split.
  - apply list_line_ext.
    + rewrite !cacheHandler_length by assumption. congruence.
    + intros q Hq.
      destruct (Z_lt_ge_dec q (S1 * iCacheLinesPerSet g)) as [Hlo1|Hhi1];
        [|destruct (Z_lt_ge_dec q (S1 * iCacheLinesPerSet g + iCacheLinesPerSet g))
            as [Hin1|Hout1]].
      2:{ (* q in the first set *)
          rewrite (cacheHandler_outside g m1 S2) by (assumption || nia).
          replace q with (S1 * iCacheLinesPerSet g + (q - S1 * iCacheLinesPerSet g))
            by lia.
          rewrite Hline1 by lia. reflexivity. }
      all: destruct (Z_lt_ge_dec q (S2 * iCacheLinesPerSet g)) as [Hlo2|Hhi2];
        [|destruct (Z_lt_ge_dec q (S2 * iCacheLinesPerSet g + iCacheLinesPerSet g))
            as [Hin2|Hout2]].
      all: try (rewrite (cacheHandler_outside g m2 S1) by (assumption || lia);
                replace q with (S2 * iCacheLinesPerSet g + (q - S2 * iCacheLinesPerSet g))
                  by lia;
                rewrite Hline2 by lia; reflexivity).
      all: rewrite (cacheHandler_outside g m1 S2), (cacheHandler_outside g m2 S1)
          by (assumption || lia);
        unfold m1, m2;
        rewrite (cacheHandler_outside g m S1), (cacheHandler_outside g m S2)
          by (assumption || lia);
        reflexivity.
  - rewrite !cacheHandler_stats. fold m1 m2. rewrite Hc1, Hc2.
    unfold m1, m2. rewrite !cacheHandler_stats.
    destruct (classify g (image m) S1 T1), (classify g (image m) S2 T2);
      reflexivity.
Qed.

Lemma X15_different_sets_commute_witness :
  let g := geometry 1 2 0 false in
  let m := simulate g [load 0; store 1; load 2] [] in
  image (checkSimulatorCache g (checkSimulatorCache g m 1 4) 0 7)
    = image (checkSimulatorCache g (checkSimulatorCache g m 0 7) 1 4).
Proof.
  intros g m.
  apply (X15_different_sets_commute g m 1 4 0 7); by_compute.
Defined.

(** ** Loads against stores *)

Lemma cacheHandler_shape g m1 m2 set tag k1 k2 :
  in_bounds g (image m1) set -> in_bounds g (image m2) set ->
  (forall q, 0 <= q -> same_shape (line_at (image m1) q) (line_at (image m2) q)) ->
  classify g (image m1) set tag = classify g (image m2) set tag /\
  forall q, 0 <= q ->
    same_shape (line_at (image (cacheHandler g m1 set tag k1)) q)
               (line_at (image (cacheHandler g m2 set tag k2)) q).
Proof.
  intros Hb1 Hb2 Hsame.
  assert (Hc : classify g (image m1) set tag = classify g (image m2) set tag).
  { apply classify_ext. intros i Hi.
    apply Hsame. apply (slot_in_range g (image m1)); assumption. }
  split; [exact Hc|]. intros q Hq.
  rewrite !cacheHandler_line by assumption. rewrite <- Hc.
  destruct (Hsame q Hq) as (Htq & Hvq & Hrq).
  assert (Haged : forall j, same_shape (aged g (image m1) set j q)
                                       (aged g (image m2) set j q)).
  { intros j. unfold aged. rewrite Hvq.
    destruct (_ && _); unfold same_shape, dec_rank; cbn; rewrite ?Hrq; tauto. }
  destruct (classify g (image m1) set tag) as [j|j|j| |] eqn:Hcl;
    try (now apply Hsame);
    assert (Hj : 0 <= j < iCacheLinesPerSet g)
      by (apply (classify_slot_range g (image m1) set tag); tauto);
    assert (Hp := slot_in_range g _ set j Hb1 Hj);
    rewrite (slot_eq g (image m1)) in Hp by assumption;
    destruct (Hsame _ (proj1 Hp)) as (Htp & Hvp & Hrp);
    (destruct (q =? set * iCacheLinesPerSet g + j);
     [unfold same_shape; cbn; tauto|]);
    try apply Haged.
  rewrite Hrp. destruct (_ =? iRecentAccessRankValue g); [now apply Hsame|].
  apply Haged.
Qed.

Lemma replay_shape s E b v (t1 t2 : list trace_record) :
  valid_geometry s E b ->
  Forall2 (fun r1 r2 => rec_addr r1 = rec_addr r2) t1 t2 ->
  forall f1 f2 m1 m2,
    run_invariant (geometry s E b v) (image m1) ->
    run_invariant (geometry s E b v) (image m2) ->
    stats m1 = stats m2 ->
    (forall q, 0 <= q -> same_shape (line_at (image m1) q) (line_at (image m2) q)) ->
    stats (snd (replay (geometry s E b v) t1 (f1, m1)))
      = stats (snd (replay (geometry s E b v) t2 (f2, m2))) /\
    forall q, 0 <= q ->
      same_shape
        (line_at (image (snd (replay (geometry s E b v) t1 (f1, m1)))) q)
        (line_at (image (snd (replay (geometry s E b v) t2 (f2, m2)))) q).
Proof.
  intros Hgeo Hall. unfold replay.
  induction Hall as [|r1 r2 t1 t2 Haddr Hall IH];
    intros f1 f2 m1 m2 Hi1 Hi2 Hst Hsh; [now split|].
  cbn [fold_left trace_step]. rewrite <- Haddr.
  set (g := geometry s E b v) in *.
  set (k1 := if Ascii.eqb (rec_op r1) "L" then 0
             else if Ascii.eqb (rec_op r1) "S" then 1 else f1).
  set (k2 := if Ascii.eqb (rec_op r2) "L" then 0
             else if Ascii.eqb (rec_op r2) "S" then 1 else f2).
  set (n1 := verbose g (EvRecord r1) m1). set (n2 := verbose g (EvRecord r2) m2).
  assert (Hn1 : image n1 = image m1) by apply image_verbose.
  assert (Hn2 : image n2 = image m2) by apply image_verbose.
  assert (Hset := geometry_set_index s E b v Hgeo (rec_addr r1)). fold g in Hset.
  unfold checkSimulatorCache.
  destruct (cacheHandler_shape g n1 n2 (addrSVal g (rec_addr r1))
              (addrTagVal g (rec_addr r1)) k1 k2) as [Hc Hsh'].
  { rewrite Hn1. apply well_formed_in_bounds; [apply Hi1 | assumption]. }
  { rewrite Hn2. apply well_formed_in_bounds; [apply Hi2 | assumption]. }
  { now rewrite Hn1, Hn2. }
  apply IH; rewrite ?image_verbose, ?stats_verbose.
  - apply (run_invariant_step s E b v Hgeo n1 k1 (rec_addr r1)). now rewrite Hn1.
  - apply (run_invariant_step s E b v Hgeo n2 k2 (rec_addr r1)). now rewrite Hn2.
  - rewrite !cacheHandler_stats, Hc. unfold n1, n2.
    rewrite !stats_verbose, Hst. reflexivity.
  - assumption.
Qed.

(** X16: whether the records are loads or stores decides the dirty
    bookkeeping and nothing else: two traces over the same addresses end
    with the same hits, misses and evictions and with the same tag, valid
    bit and rank in every line. *)
Theorem X16_kinds_only_touch_dirt (s E b : Z) (v : bool)
    (t1 t2 : list trace_record) (log1 log2 : list event) :
  valid_geometry s E b ->
  Forall2 (fun r1 r2 => rec_addr r1 = rec_addr r2) t1 t2 ->
  stats (simulate (geometry s E b v) t1 log1)
    = stats (simulate (geometry s E b v) t2 log2) /\
  forall q, 0 <= q ->
    iTag (line_at (image (simulate (geometry s E b v) t1 log1)) q)
      = iTag (line_at (image (simulate (geometry s E b v) t2 log2)) q) /\
    bValidFlag (line_at (image (simulate (geometry s E b v) t1 log1)) q)
      = bValidFlag (line_at (image (simulate (geometry s E b v) t2 log2)) q) /\
    iRank (line_at (image (simulate (geometry s E b v) t1 log1)) q)
      = iRank (line_at (image (simulate (geometry s E b v) t2 log2)) q).
Proof.
  intros Hgeo Hall. unfold simulate.
  apply (replay_shape s E b v t1 t2 Hgeo Hall); cbn [image stats].
  - now apply run_invariant_calloc.
  - now apply run_invariant_calloc.
  - reflexivity.
  - intros q _. unfold same_shape. tauto.
Qed.

Lemma X16_kinds_only_touch_dirt_witness :
  stats (simulate (geometry 0 1 4 false) [store 0; load 16] [])
    = stats (simulate (geometry 0 1 4 false) [load 0; store 16] []).
Proof.
  apply (X16_kinds_only_touch_dirt 0 1 4 false [store 0; load 16] [load 0; store 16] [] []).
  - unfold valid_geometry. lia.
  - repeat constructor.
Defined.

(** ** Where the resident blocks come from *)

(** X13: the array never holds a block that was not asked for: every
    valid line carries the tag of some record of the trace whose address
    maps to that line's set. *)
Theorem X13_resident_blocks_were_accessed (s E b : Z) (v : bool)
    (trace : list trace_record) (log : list event) (q : Z) :
  valid_geometry s E b -> 0 <= q ->
  bValidFlag (line_at (image (simulate (geometry s E b v) trace log)) q)
    <> CACHE_INVALID_FLAG ->
  exists r,
    In r trace /\
    addrTagVal (geometry s E b v) (rec_addr r)
      = iTag (line_at (image (simulate (geometry s E b v) trace log)) q) /\
    addrSVal (geometry s E b v) (rec_addr r) * E <= q
      < addrSVal (geometry s E b v) (rec_addr r) * E + E.
Proof.
  intros Hgeo Hq.
  destruct (geometry_fields s E b v Hgeo) as (_ & _ & HE & _).
  set (g := geometry s E b v) in *.
  induction trace as [|r trace IH] using rev_ind.
  - unfold simulate. cbn [replay fold_left snd image].
    rewrite line_at_calloc. intros H. now destruct H.
  - pose proof (run_invariant_simulate s E b v Hgeo trace log) as (Hwf & _).
    fold g in Hwf. unfold simulate in *. rewrite replay_snoc.
    destruct (replay g trace _) as [flag m]. cbn [snd trace_step] in *.
    rewrite image_verbose. unfold checkSimulatorCache.
    set (m1 := verbose g (EvRecord r) m).
    assert (Him : image m1 = image m) by apply image_verbose.
    assert (Hset := geometry_set_index s E b v Hgeo (rec_addr r)). fold g in Hset.
    assert (Hb : in_bounds g (image m1) (addrSVal g (rec_addr r))).
    { rewrite Him. now apply well_formed_in_bounds. }
    destruct (cacheHandler_footprint g m1 (addrSVal g (rec_addr r))
                (addrTagVal g (rec_addr r))
                (if Ascii.eqb (rec_op r) "L" then 0
                 else if Ascii.eqb (rec_op r) "S" then 1 else flag) Hb)
      as (p & Hother & Hp).
    rewrite Him in Hother, Hp.
    assert (Hold : forall c',
              iTag (line_at c' q) = iTag (line_at (image m) q) ->
              bValidFlag (line_at c' q) = bValidFlag (line_at (image m) q) ->
              bValidFlag (line_at c' q) <> CACHE_INVALID_FLAG ->
              exists r0, In r0 (trace ++ [r]) /\
                addrTagVal g (rec_addr r0) = iTag (line_at c' q) /\
                addrSVal g (rec_addr r0) * E <= q < addrSVal g (rec_addr r0) * E + E).
    { intros c' Ht Hv Hvalid. rewrite Hv in Hvalid.
      destruct (IH Hvalid) as (r0 & Hin & Htag & Hrange).
      exists r0. split; [apply in_or_app; now left|]. rewrite Ht. now split. }
    intros Hvalid.
    destruct (Z.eq_dec q p) as [->|Hne].
    + destruct Hp as [[Ht Hv]|(Hrange & Ht & _)]; [now apply Hold|].
      exists r. split; [apply in_or_app; right; now left|].
      rewrite Ht. split; [reflexivity|]. now rewrite HE in Hrange.
    + destruct (Hother q Hq Hne) as [Ht Hv]. now apply Hold.
Qed.

Lemma X13_resident_blocks_were_accessed_witness :
  exists r,
    In r [load 0; store 17; load 35] /\
    addrTagVal (geometry 1 1 4 false) (rec_addr r)
      = iTag (line_at (image (simulate (geometry 1 1 4 false)
                                [load 0; store 17; load 35] [])) 1).
Proof.
  destruct (X13_resident_blocks_were_accessed 1 1 4 false
              [load 0; store 17; load 35] [] 1) as (r & Hin & Htag & _).
  - unfold valid_geometry. lia.
  - lia.
  - vm_compute. discriminate.
  - exists r. now split.
Defined.

(** ** Valid lines against the counters *)

Lemma weight_sum_ext w (c : cacheImage_t) : forall c',
  length c' = length c ->
  (forall q, 0 <= q -> w (line_at c' q) = w (line_at c q)) ->
  weight_sum w c' = weight_sum w c.
Proof.
  unfold weight_sum.
  induction c as [|x c IH]; intros [|x' c'] Hlen Hsame; try discriminate;
    [reflexivity|].
  cbn [map fold_right].
  pose proof (Hsame 0 ltac:(lia)) as H0. rewrite !line_at_cons_0 in H0.
  rewrite H0. f_equal. apply IH; [now injection Hlen|].
  intros q Hq. specialize (Hsame (q + 1) ltac:(lia)).
  now rewrite !line_at_cons_succ in Hsame by assumption.
Qed.

Lemma weight_sum_one w (c : cacheImage_t) : forall c' p,
  length c' = length c ->
  0 <= p < Z.of_nat (length c) ->
  (forall q, 0 <= q -> q <> p -> w (line_at c' q) = w (line_at c q)) ->
  weight_sum w c' = weight_sum w c - w (line_at c p) + w (line_at c' p).
Proof.
  induction c as [|x c IH]; intros [|x' c'] p Hlen Hp Hsame;
    try discriminate; [cbn in Hp; lia|].
  unfold weight_sum in *. cbn [map fold_right]. cbn [length] in Hp.
  destruct (Z.eq_dec p 0) as [->|Hne].
  - rewrite !line_at_cons_0.
    pose proof (weight_sum_ext w c c') as Hext. unfold weight_sum in Hext.
    rewrite Hext; [lia | now injection Hlen |].
    intros q Hq. specialize (Hsame (q + 1) ltac:(lia) ltac:(lia)).
    now rewrite !line_at_cons_succ in Hsame by assumption.
  - pose proof (Hsame 0 ltac:(lia) ltac:(lia)) as H0.
    rewrite !line_at_cons_0 in H0.
    replace p with ((p - 1) + 1) by lia.
    rewrite !line_at_cons_succ by lia.
    rewrite (IH c' (p - 1)); [lia | now injection Hlen | lia |].
    intros q Hq Hqp. specialize (Hsame (q + 1) ltac:(lia) ltac:(lia)).
    now rewrite !line_at_cons_succ in Hsame by assumption.
Qed.

Lemma count_valid_weight c : count_valid c = weight_sum valid_weight c.
Proof.
  unfold count_valid, weight_sum.
  induction c as [|l c IH]; [reflexivity|].
  cbn [List.filter map fold_right]. unfold valid_weight at 1.
  destruct (bValidFlag l =? CACHE_INVALID_FLAG); cbn [negb length]; lia.
Qed.

Lemma count_valid_step g m set tag k :
  in_bounds g (image m) set -> 1 <= iCacheLinesPerSet g ->
  0 <= evictions (stats m) <= misses (stats m) ->
  misses (stats m) + 1 < 2 ^ 64 ->
  count_valid (image (cacheHandler g m set tag k))
  - (misses (stats (cacheHandler g m set tag k))
     - evictions (stats (cacheHandler g m set tag k)))
  = count_valid (image m) - (misses (stats m) - evictions (stats m)).
Proof.
  intros Hb HE Hev Hmis. rewrite !count_valid_weight.
  pose proof (cacheHandler_length g m set tag k Hb) as Hlen.
  pose proof (fun q Hq => cacheHandler_line g m set tag k q Hb Hq) as Hline.
  pose proof (aged_fields g (image m) set) as Haged.
  rewrite cacheHandler_stats.
  assert (Hrest : forall j q, 0 <= q ->
            valid_weight (aged g (image m) set j q)
            = valid_weight (line_at (image m) q)).
  { intros j q Hq. unfold valid_weight.
    destruct (Haged j q) as (_ & -> & _). reflexivity. }
  destruct (classify g (image m) set tag) as [j|j|j| |] eqn:Hc.
  - rewrite (weight_sum_ext valid_weight (image m)); [cbn; lia | assumption |].
    intros q Hq. rewrite Hline by assumption.
    destruct (q =? _) eqn:Hqp; [apply Z.eqb_eq in Hqp; subst q; reflexivity|].
    destruct (_ =? iRecentAccessRankValue g); [reflexivity | now apply Hrest].
  - pose proof (classify_Fill _ _ _ _ _ Hc) as [Hj Hf].
    assert (Hp := slot_in_range g _ set j Hb Hj).
    rewrite (slot_eq g (image m)) in Hp, Hf by assumption.
    rewrite (weight_sum_one valid_weight (image m) _ (set * iCacheLinesPerSet g + j))
      by (try assumption;
          intros q Hq Hne; rewrite Hline by assumption;
          apply Z.eqb_neq in Hne; rewrite Hne; now apply Hrest).
    rewrite Hline, Z.eqb_refl by lia.
    unfold valid_weight at 2 3. unfold is_free in Hf. rewrite Hf.
    cbn. rewrite wrap64_small by lia. lia.
  - rewrite (weight_sum_ext valid_weight (image m));
      [cbn; rewrite !wrap64_small by lia; lia | assumption |].
    intros q Hq. rewrite Hline by assumption.
    destruct (q =? _) eqn:Hqp; [apply Z.eqb_eq in Hqp; subst q; reflexivity|].
    now apply Hrest.
  - rewrite cacheHandler_image, Hc. cbn. rewrite !wrap64_small by lia. lia.
  - apply classify_NoLines in Hc. lia.
Qed.

Lemma replay_count_valid s E b v (trace : list trace_record) :
  valid_geometry s E b ->
  forall acc,
    run_invariant (geometry s E b v) (image (snd acc)) ->
    0 <= hits (stats (snd acc)) ->
    0 <= evictions (stats (snd acc)) <= misses (stats (snd acc)) ->
    hits (stats (snd acc)) + misses (stats (snd acc)) + Z.of_nat (length trace)
      < 2 ^ 64 ->
    count_valid (image (snd (replay (geometry s E b v) trace acc)))
    - (misses (stats (snd (replay (geometry s E b v) trace acc)))
       - evictions (stats (snd (replay (geometry s E b v) trace acc))))
    = count_valid (image (snd acc))
      - (misses (stats (snd acc)) - evictions (stats (snd acc))).
Proof.
  intros Hgeo. unfold replay.
  destruct (geometry_fields s E b v Hgeo) as (_ & _ & HE & _).
  assert (HE1 : 1 <= E) by apply Hgeo.
  induction trace as [|r trace IH]; intros acc Hinv Hh He Hn; [reflexivity|].
  cbn [fold_left]. cbn [length] in Hn. destruct acc as [flag m].
  cbn [snd trace_step] in *.
  set (g := geometry s E b v) in *.
  set (flag' := if Ascii.eqb (rec_op r) "L" then 0
                else if Ascii.eqb (rec_op r) "S" then 1 else flag).
  set (m1 := verbose g (EvRecord r) m).
  assert (Hi1 : image m1 = image m) by apply image_verbose.
  assert (Hs1 : stats m1 = stats m) by apply stats_verbose.
  destruct (checkSimulatorCache_counts g m1 flag' (rec_addr r))
    as (H1 & H2 & H3); rewrite ?Hs1; try lia.
  rewrite Hs1 in H3.
  pose proof (count_valid_step g m1 (addrSVal g (rec_addr r))
                (addrTagVal g (rec_addr r)) flag') as Hstep.
  rewrite Hi1, Hs1 in Hstep.
  rewrite IH; cbn [snd]; rewrite ?image_verbose, ?stats_verbose;
    try assumption; try lia.
  - apply Hstep; try lia.
    apply well_formed_in_bounds; [apply Hinv|]. now apply geometry_set_index.
  - apply run_invariant_step; [assumption|]. now rewrite Hi1.
Qed.

Lemma count_valid_calloc n : count_valid (calloc n) = 0.
Proof.
  unfold count_valid, calloc.
  induction (Z.to_nat n) as [|k IH]; [reflexivity|].
  cbn [repeat List.filter]. exact IH.
Qed.

(** X14: at any point of a run the number of valid lines is the number of
    misses minus the number of evictions. *)
Theorem X14_valid_lines_are_misses_less_evictions (s E b : Z) (v : bool)
    (trace : list trace_record) (log : list event) :
  valid_geometry s E b ->
  Z.of_nat (length trace) < 2 ^ 64 ->
  count_valid (image (simulate (geometry s E b v) trace log))
  = misses (stats (simulate (geometry s E b v) trace log))
    - evictions (stats (simulate (geometry s E b v) trace log)).
Proof.
  intros Hgeo Hlen. unfold simulate.
  pose proof (replay_count_valid s E b v trace Hgeo
                (0, mkMachine (calloc (wrap32 (iSetCount (geometry s E b v)
                                               * iCacheLinesPerSet (geometry s E b v))))
                              zeroStats log)) as H.
  cbn [snd image stats zeroStats hits misses evictions] in H.
  rewrite count_valid_calloc in H.
  enough (Hinv : run_invariant (geometry s E b v)
            (calloc (wrap32 (iSetCount (geometry s E b v)
                             * iCacheLinesPerSet (geometry s E b v))))).
  { specialize (H Hinv ltac:(lia) ltac:(lia) ltac:(lia)). lia. }
  now apply run_invariant_calloc.
Qed.

Lemma X14_valid_lines_are_misses_less_evictions_witness :
  count_valid (image (simulate (geometry 1 2 2 false)
                        [mkRecord "L" 0 1; mkRecord "S" 16 1; mkRecord "L" 32 1] []))
  = misses (stats (simulate (geometry 1 2 2 false)
                     [mkRecord "L" 0 1; mkRecord "S" 16 1; mkRecord "L" 32 1] []))
    - evictions (stats (simulate (geometry 1 2 2 false)
                          [mkRecord "L" 0 1; mkRecord "S" 16 1; mkRecord "L" 32 1] [])).
Proof.
  apply X14_valid_lines_are_misses_less_evictions;
    [unfold valid_geometry; lia | cbn [length]; lia].
Defined.
